(** * spaint: image visualisation, collaborative pose optimiser and
      score-forest relocaliser

    A shallow embedding of

    - [itmx/ocv/OpenCVUtil.h] (greyscale conversion, range scaling),
    - [spaint/collaboration/CollaborativePoseOptimiser.h] (the interface), and
    - [spaint/pipelinecomponents/SLAMComponentWithScoreForest.cpp]
      (hypothesis generation, pixel sampling, pose energies, pre-emptive RANSAC),

    followed by the properties proved about them.

    Conventions.

    - C++ [float] values are modelled by real numbers ([R]): rounding,
      infinities and NaN are outside the model.  Where a property is about an
      IEEE division by zero ([ScaleDataToRange]), its result, which is not a
      finite number, is modelled as an absent result; elsewhere [x / 0] has
      the value that the division of [R] gives it.
    - C++ [int] values are modelled by [Z]; counts that the code never makes
      negative ([size_t], mode and inlier counts) by [nat]; an
      [unsigned char] by its value in [Z], reduced modulo 256 where the code
      stores into one.
    - A pointer into a buffer is modelled by the function from indices to
      elements.
    - A function that may throw returns a [result]; a thrown
      [std::runtime_error] is the value [Throw what].
    - A random engine is the sequence of raw numbers it will produce.
    - An OpenMP parallel loop is modelled by running its iterations one after
      the other in index order. *)

From Stdlib Require Import String.
From Stdlib Require Import ZArith List Bool Lia Reals Lra.
From Stdlib Require Import Permutation Sorted.
From Equations Require Import Equations.
Import ListNotations.

(* ################################################################# *)
(** * Scalars *)

Abbreviation float := R (only parsing).

(** [a < b] on floats, as a test. *)
Definition float_lt (a b : float) : bool :=
  if Rlt_dec a b then true else false.

(** [a >= b] on floats, as a test. *)
Definition float_ge (a b : float) : bool :=
  if Rge_dec a b then true else false.

(** [a > b] on floats, as a test. *)
Definition float_gt (a b : float) : bool := float_lt b a.

(** [static_cast<int>] of a float: truncation towards zero. *)
Definition float_to_int (v : float) : Z :=
  if float_lt v 0%R then (- Int_part (- v))%Z else Int_part v.

(** An IEEE division whose divisor is zero yields an infinity or a NaN; the
    model has no such value and returns nothing. *)
Definition float_div (a b : float) : option float :=
  if Req_dec_T b 0%R then None else Some (a / b)%R.

Definition log10f (v : float) : float := (ln v / ln 10)%R.

(** [unsigned char]: an integer in [0, 256). *)
Definition uchar := Z.

Definition to_uchar (v : Z) : uchar := (v mod 256)%Z.

(* ################################################################# *)
(** * itmx::OpenCVUtil *)

Module OpenCVUtil.

Inductive Order : Type :=
| COL_MAJOR
| ROW_MAJOR.

(** What [clamp_pixel_value<T>] asks of its pixel type [T]: the conversions
    [T(0)] and [T(255)], the comparison [<], and
    [static_cast<unsigned char>]. *)
Class PixelValue (T : Type) : Type := {
  T_of_int : Z -> T;
  T_lt : T -> T -> bool;
  T_to_uchar : T -> uchar
}.

#[export] Instance PixelValue_int : PixelValue Z := {
  T_of_int := fun v => v;
  T_lt := Z.ltb;
  T_to_uchar := to_uchar
}.

#[export] Instance PixelValue_float : PixelValue float := {
  T_of_int := IZR;
  T_lt := float_lt;
  T_to_uchar := fun v => to_uchar (float_to_int v)
}.

Definition clamp_pixel_value {T : Type} `{PixelValue T} (pixelValue : T) : uchar :=
  let pixelValue :=
    if T_lt pixelValue (T_of_int 0) then T_of_int 0 else pixelValue in
  let pixelValue :=
    if T_lt (T_of_int 255) pixelValue then T_of_int 255 else pixelValue in
  T_to_uchar pixelValue.

Definition identity {T : Type} (value : T) : T := value.

Record ScaleByFactor : Type := {
  m_factor : float
}.

Definition ScaleByFactor_call (f : ScaleByFactor) (value : float) : float :=
  (value * m_factor f)%R.

Record ScaleDataToRange : Type := {
  m_minInputValue : float;
  m_minOutputValue : float;
  m_scalingFactor : float
}.

(** [std::max_element] and [std::min_element] over [[first, last)], read
    through the returned iterator: the first largest (smallest) element, and
    nothing for an empty range (the iterator returned is [last], which must
    not be dereferenced). *)
Definition max_element (inputData : list float) : option float :=
  match inputData with
  | [] => None
  | v :: rest =>
      Some (fold_left (fun largest w => if float_lt largest w then w else largest)
                      rest v)
  end.

Definition min_element (inputData : list float) : option float :=
  match inputData with
  | [] => None
  | v :: rest =>
      Some (fold_left (fun smallest w => if float_lt w smallest then w else smallest)
                      rest v)
  end.

(** The constructor of [ScaleDataToRange]; [inputData] holds the
    [inputDataSize] values of the input array. *)
Definition ScaleDataToRange_new (inputData : list float)
    (minOutputValue maxOutputValue : float) : option ScaleDataToRange :=
  match max_element inputData, min_element inputData with
  | Some maxInputValue, Some minInputValue =>
      match float_div (maxOutputValue - minOutputValue)
                      (maxInputValue - minInputValue) with
      | Some scalingFactor =>
          Some {| m_minInputValue := minInputValue;
                  m_minOutputValue := minOutputValue;
                  m_scalingFactor := scalingFactor |}
      | None => None
      end
  | _, _ => None
  end.

Definition ScaleDataToRange_call (f : ScaleDataToRange) (inputValue : float) : float :=
  (m_minOutputValue f + (inputValue - m_minInputValue f) * m_scalingFactor f)%R.

(** [cv::Mat1b]: [rows] by [cols] bytes, stored row by row. *)
Record Mat1b : Type := {
  rows : Z;
  cols : Z;
  data : list uchar
}.

(** The pixel in column [x] of row [y]. *)
Definition Mat1b_at (m : Mat1b) (x y : Z) : uchar :=
  nth (Z.to_nat (y * cols m + x)) (data m) 0%Z.

Section MakeGreyscaleImage.

Context {T U : Type} `{PixelValue U}.
Variable inputData : Z -> T.
Variable scaleFunc : T -> U.

(** The row-major loop [for(int i = 0; i < pixelCount; ++i)], which writes
    the clamped, scaled input element to the next output byte and advances
    both pointers: [n] iterations are left and the input pointer is at
    index [i]. *)
Fixpoint row_major_loop (n : nat) (i : Z) : list uchar :=
  match n with
  | O => []
  | S n' =>
      clamp_pixel_value (scaleFunc (inputData i)) :: row_major_loop n' (i + 1)
  end.

(** The inner column-major loop [for(int x = 0; x < width; ++x)], which
    reads [inputData[x * height + y]]. *)
Fixpoint col_major_row (height y : Z) (n : nat) (x : Z) : list uchar :=
  match n with
  | O => []
  | S n' =>
      clamp_pixel_value (scaleFunc (inputData (x * height + y)))
        :: col_major_row height y n' (x + 1)
  end.

(** The outer column-major loop [for(int y = 0; y < height; ++y)]. *)
Fixpoint col_major_loop (width height : Z) (n : nat) (y : Z) : list uchar :=
  match n with
  | O => []
  | S n' =>
      col_major_row height y (Z.to_nat width) 0
        ++ col_major_loop width height n' (y + 1)
  end.

Definition make_greyscale_image (width height : Z) (order : Order) : Mat1b :=
  let pixelCount := (width * height)%Z in
  {| rows := height;
     cols := width;
     data :=
       match order with
       | ROW_MAJOR => row_major_loop (Z.to_nat pixelCount) 0
       | COL_MAJOR => col_major_loop width height (Z.to_nat height) 0
       end |}.

End MakeGreyscaleImage.

(** The overload without a scaling argument, which passes [&identity<T>]. *)
Definition make_greyscale_image_unscaled {T : Type} `{PixelValue T}
    (inputData : Z -> T) (width height : Z) (order : Order) : Mat1b :=
  make_greyscale_image inputData identity width height order.

(** The overload with a scaling factor, which passes
    [ScaleByFactor(scaleFactor)]; [to_float] is the implicit conversion of a
    [T] to the [float] parameter of the functor. *)
Definition make_greyscale_image_by_factor {T : Type} (to_float : T -> float)
    (inputData : Z -> T) (width height : Z) (order : Order) (scaleFactor : float)
    : Mat1b :=
  make_greyscale_image inputData
    (fun value => ScaleByFactor_call {| m_factor := scaleFactor |} (to_float value))
    width height order.

End OpenCVUtil.

(* ################################################################# *)
(** * spaint::CollaborativePoseOptimiser *)

Module CollaborativePoseOptimiser.

Definition SceneIDPair : Type := (String.string * String.string)%type.

Definition SceneIDPair_eqb (p q : SceneIDPair) : bool :=
  String.eqb (fst p) (fst q) && String.eqb (snd p) (snd q).

Section Optimiser.

(** [ORUtils::SE3Pose], with the inverse pose ([GetInvM]), and the
    enumeration [CollaborationMode] of [CollaborationMode.h]. *)
Variable SE3Pose : Type.
Variable inverse : SE3Pose -> SE3Pose.
Variable CollaborationMode : Type.

Definition SE3PoseCluster : Type := list SE3Pose.

(** Modelled from the spec: the test that a sample is "sufficiently close to
    that cluster's representative pose"; the header declares no such
    function and the spec leaves the distance threshold open. *)
Variable sufficiently_close : SE3Pose -> SE3PoseCluster -> bool.

(** Modelled from the spec: the value of the static [confidence_threshold()],
    declared in the header and described as "a fixed constant, value not
    disclosed". *)
Variable confidence_threshold : Z.

(** The members that [add_relative_transform_sample] touches;
    [std::map] as an association list and [std::set] as a list. *)
Record State : Type := {
  m_relativeTransformSamples : list (SceneIDPair * list SE3PoseCluster);
  m_relativeTransformSamplesChanged : bool;
  m_sceneIDs : list String.string
}.

Definition samples_of (samples : list (SceneIDPair * list SE3PoseCluster))
    (key : SceneIDPair) : list SE3PoseCluster :=
  match find (fun kv => SceneIDPair_eqb (fst kv) key) samples with
  | Some kv => snd kv
  | None => []
  end.

Fixpoint samples_put (samples : list (SceneIDPair * list SE3PoseCluster))
    (key : SceneIDPair) (clusters : list SE3PoseCluster)
    : list (SceneIDPair * list SE3PoseCluster) :=
  match samples with
  | [] => [(key, clusters)]
  | kv :: rest =>
      if SceneIDPair_eqb (fst kv) key then (key, clusters) :: rest
      else kv :: samples_put rest key clusters
  end.

(** Modelled from the spec: step 2 of [add_relative_transform_sample], for one
    direction.  The sample joins the first existing cluster it is sufficiently
    close to, else it starts a new cluster at the end.  The result is the
    position of the receiving cluster and the updated clusters. *)
Fixpoint assign_to_cluster (sample : SE3Pose) (clusters : list SE3PoseCluster)
    : nat * list SE3PoseCluster :=
  match clusters with
  | [] => (O, [[sample]])
  | c :: rest =>
      if sufficiently_close sample c then (O, (c ++ [sample]) :: rest)
      else let (k, rest') := assign_to_cluster sample rest in (S k, c :: rest')
  end.

(** Modelled from the spec: the body of the private
    [bool add_relative_transform_sample_sub(sceneI, sceneJ, sample, mode)]
    (declared in the header, defined outside it): steps 2 and 4, "returns
    whether the receiving cluster has now reached the confidence threshold". *)
Definition add_relative_transform_sample_sub (self : State)
    (sceneI sceneJ : String.string) (sample : SE3Pose) (mode : CollaborationMode)
    : bool * State :=
  let clusters := samples_of (m_relativeTransformSamples self) (sceneI, sceneJ) in
  let (k, clusters') := assign_to_cluster sample clusters in
  let receiving := nth k clusters' [] in
  ((confidence_threshold <=? Z.of_nat (length receiving))%Z,
   {| m_relativeTransformSamples :=
        samples_put (m_relativeTransformSamples self) (sceneI, sceneJ) clusters';
      m_relativeTransformSamplesChanged := m_relativeTransformSamplesChanged self;
      m_sceneIDs := m_sceneIDs self |}).

(** Modelled from the spec: the body of the public
    [void add_relative_transform_sample(sceneI, sceneJ, sample, mode)].  Its
    return type is the header's: [void], here [unit]. *)
Definition add_relative_transform_sample (self : State)
    (sceneI sceneJ : String.string) (sample : SE3Pose) (mode : CollaborationMode)
    : unit * State :=
  let self :=
    {| m_relativeTransformSamples := m_relativeTransformSamples self;
       m_relativeTransformSamplesChanged := m_relativeTransformSamplesChanged self;
       m_sceneIDs := sceneI :: sceneJ :: m_sceneIDs self |} in
  let (_, self) := add_relative_transform_sample_sub self sceneI sceneJ sample mode in
  let (_, self) :=
    add_relative_transform_sample_sub self sceneJ sceneI (inverse sample) mode in
  (tt,
   {| m_relativeTransformSamples := m_relativeTransformSamples self;
      m_relativeTransformSamplesChanged := true;
      m_sceneIDs := m_sceneIDs self |}).

End Optimiser.

End CollaborativePoseOptimiser.

(* ################################################################# *)
(** * Library types used by the relocaliser *)

(** ** [std::runtime_error] and functions that may throw *)

Inductive result (A : Type) : Type :=
| Ok (value : A)
| Throw (what : String.string).

Arguments Ok {A} value.
Arguments Throw {A} what.

Definition bind {A B : Type} (c : result A) (k : A -> result B) : result B :=
  match c with
  | Ok a => k a
  | Throw what => Throw what
  end.

Notation "x <- c ;; k" := (bind c (fun x => k))
  (at level 61, c at next level, right associativity).

Definition throws {A : Type} (c : result A) : Prop :=
  exists what, c = Throw what.

(** ** [std::mt19937] and [std::uniform_int_distribution<int>]

    An engine is the sequence of raw numbers it is going to produce together
    with the number of them already consumed; every sequence is an engine, so
    a statement about all engines covers all seeds.  A distribution over
    [[a, b]] consumes one raw number and maps it into the interval. *)

Module std.

Record mt19937 : Type := {
  raw : nat -> Z;
  consumed : nat
}.

Definition uniform_int_distribution (a b : Z) (eng : mt19937) : Z * mt19937 :=
  ((a + raw eng (consumed eng) mod (b - a + 1))%Z,
   {| raw := raw eng; consumed := S (consumed eng) |}).

(** [v[i] = value] on a [std::vector]. *)
Fixpoint vector_set {A : Type} (v : list A) (i : nat) (value : A) : list A :=
  match v, i with
  | [], _ => []
  | _ :: rest, O => value :: rest
  | a :: rest, S i' => a :: vector_set rest i' value
  end.

Definition empty {A : Type} (v : list A) : bool :=
  match v with
  | [] => true
  | _ :: _ => false
  end.

End std.

(** ** ORUtils vectors, matrices and images *)

Module ORUtils.

Record Vector2i : Type := {
  width : Z;
  height : Z
}.

Record Vector3 (T : Type) : Type := mkVector3 {
  x : T;
  y : T;
  z : T
}.

Arguments mkVector3 {T} x y z.
Arguments x {T} v.
Arguments y {T} v.
Arguments z {T} v.

Record Vector4 (T : Type) : Type := mkVector4 {
  toVector3 : Vector3 T;
  w : T
}.

Arguments mkVector4 {T} toVector3 w.
Arguments toVector3 {T} v.
Arguments w {T} v.

Definition Vector3f : Type := Vector3 float.
Definition Vector3u : Type := Vector3 uchar.
Definition Vector4f : Type := Vector4 float.

(** [operator-] on [Vector3f]. *)
Definition Vector3f_sub (a b : Vector3f) : Vector3f :=
  mkVector3 (x a - x b)%R (y a - y b)%R (z a - z b)%R.

(** [operator-] on [Vector3u]: each difference is stored back into an
    [unsigned char]. *)
Definition Vector3u_sub (a b : Vector3u) : Vector3u :=
  mkVector3 (to_uchar (x a - x b)) (to_uchar (y a - y b)) (to_uchar (z a - z b)).

Definition length (v : Vector3f) : float :=
  sqrt (x v * x v + y v * y v + z v * z v).

(** [Matrix4f]: the sixteen entries [m]. *)
Record Matrix4f : Type := {
  m : list float
}.

(** An image: its dimensions, its number of elements, and its host buffer
    ([GetData(MEMORYDEVICE_CPU)]) as the function from index to element. *)
Record Image (T : Type) : Type := {
  noDims : Vector2i;
  dataSize : nat;
  GetData : Z -> T
}.

Arguments noDims {T} i.
Arguments dataSize {T} i.
Arguments GetData {T} i _.

End ORUtils.

(** ** Features and forest predictions *)

Module RGBDPatchFeature.

(** [position] is the camera-space point, with [w < 0] marking a pixel without
    depth; [colour] is the observed colour as the relocaliser reads it,
    [colour.toVector3().toUChar()]. *)
Record t : Type := {
  position : ORUtils.Vector4f;
  colour : ORUtils.Vector3u
}.

End RGBDPatchFeature.

Module GPUForestMode.

Record t : Type := {
  position : ORUtils.Vector3f;
  colour : ORUtils.Vector3u;
  nbInliers : nat
}.

Definition zero : t :=
  {| position := ORUtils.mkVector3 0%R 0%R 0%R;
     colour := ORUtils.mkVector3 0%Z 0%Z 0%Z;
     nbInliers := O |}.

End GPUForestMode.

Module GPUForestPrediction.

Record t : Type := {
  nbModes : nat;
  modes_array : list GPUForestMode.t
}.

(** [modes[i]]. *)
Definition modes (p : t) (i : Z) : GPUForestMode.t :=
  nth (Z.to_nat i) (modes_array p) GPUForestMode.zero.

End GPUForestPrediction.

(** ** OpenCV matrices *)

Module cv.

Inductive Depth : Type :=
| CV_8U
| CV_16S
| CV_32F.

Definition Depth_eqb (a b : Depth) : bool :=
  match a, b with
  | CV_8U, CV_8U | CV_16S, CV_16S | CV_32F, CV_32F => true
  | _, _ => false
  end.

(** [cv::Mat]: its size, the type of its elements, and for every channel the
    value at row [y] and column [x]. *)
Record Mat : Type := {
  rows : Z;
  cols : Z;
  depth : Depth;
  planes : list (Z -> Z -> float)
}.

(** [cv::Mat::zeros(rows, cols, type)] for a single-channel type. *)
Definition zeros (rows cols : Z) (depth : Depth) : Mat :=
  {| rows := rows; cols := cols; depth := depth; planes := [fun _ _ => 0%R] |}.

(** [m.convertTo(m, CV_32F)]: every 8-bit and 16-bit value is a float. *)
Definition convertTo_32F (m : Mat) : Mat :=
  {| rows := rows m; cols := cols m; depth := CV_32F; planes := planes m |}.

(** [cv::cvtColor(src, dst, CV_BGR2RGB)]: the first and the third channel of
    a matrix of three or four channels change places, a fourth channel is
    dropped; any other number of channels is an error. *)
Definition cvtColor_BGR2RGB (src : Mat) : result Mat :=
  match planes src with
  | [b; g; r] | [b; g; r; _] =>
      Ok {| rows := rows src; cols := cols src; depth := depth src;
            planes := [r; g; b] |}
  | _ => Throw "cvtColor: invalid number of channels"%string
  end.

(** [cv::split(m, mv)]: one single-channel matrix per channel. *)
Definition split (m : Mat) : list Mat :=
  map (fun plane => {| rows := rows m; cols := cols m; depth := depth m;
                       planes := [plane] |})
      (planes m).

(** [cv::merge(mv, dst)]: the channels of the matrices one after the other;
    the matrices must agree in size and depth. *)
Definition merge (mv : list Mat) : result Mat :=
  match mv with
  | [] => Throw "merge: no matrix"%string
  | first :: _ =>
      if forallb (fun m => (rows m =? rows first)%Z && (cols m =? cols first)%Z
                           && Depth_eqb (depth m) (depth first)) mv
      then Ok {| rows := rows first; cols := cols first; depth := depth first;
                 planes := flat_map planes mv |}
      else Throw "merge: matrices of different size or depth"%string
  end.

End cv.

(* ################################################################# *)
(** * spaint::SLAMComponentWithScoreForest *)

Module SLAMComponentWithScoreForest.

Record PoseCandidate : Type := {
  cameraPose : ORUtils.Matrix4f;
  inliers : list (Z * Z);
  energy : float;
  cameraId : Z
}.

(** A default-constructed candidate: no inliers; the remaining members are
    not initialised by the code and are given fixed values here. *)
Definition PoseCandidate_default : PoseCandidate :=
  {| cameraPose := {| ORUtils.m := [] |};
     inliers := [];
     energy := 0%R;
     cameraId := 0%Z |}.

(** Functions of other libraries that the relocaliser calls and whose code is
    not part of it:
    - [Helpers::Kabsch(localPoints, worldPoints)], the points being the
      columns of the two matrices;
    - [Matrix4f * Vector3f], the rigid transformation of a point;
    - [GPUForestPrediction::get_best_mode_and_energy(v, energy)], which
      returns the index of the best mode (negative if there is none) and
      stores its energy;
    - the engine that [std::mt19937::seed(s)] leaves behind. *)
Class Externals : Type := {
  Kabsch : list ORUtils.Vector3f -> list ORUtils.Vector3f -> ORUtils.Matrix4f;
  Matrix4f_mul : ORUtils.Matrix4f -> ORUtils.Vector3f -> ORUtils.Vector3f;
  get_best_mode_and_energy :
    GPUForestPrediction.t -> ORUtils.Vector3f -> Z * float;
  mt19937_seed : Z -> std.mt19937
}.

(** The members of the component that relocalisation reads. *)
Record t : Type := {
  m_featureImage : ORUtils.Image RGBDPatchFeature.t;
  m_predictionsImage : ORUtils.Image GPUForestPrediction.t;
  m_kInitRansac : nat;
  m_nbPointsForKabschBoostrap : nat;
  m_useAllModesPerLeafInPoseHypothesisGeneration : bool;
  m_checkMinDistanceBetweenSampledModes : bool;
  m_minDistanceBetweenSampledModes : float;
  m_checkRigidTransformationConstraint : bool;
  m_translationErrorMaxForCorrectPose : float;
  m_batchSizeRansac : nat;
  m_trimKinitAfterFirstEnergyComputation : nat;
  m_poseUpdate : bool;
  m_usePredictionCovarianceForPoseOptimization : bool;
  m_maxNbModesPerLeaf : nat
}.

(** The component as its constructor configures it, holding the feature and
    prediction images that [evaluate_forest] has filled in. *)
Definition configured (featureImage : ORUtils.Image RGBDPatchFeature.t)
    (predictionsImage : ORUtils.Image GPUForestPrediction.t) : t :=
  {| m_featureImage := featureImage;
     m_predictionsImage := predictionsImage;
     m_kInitRansac := 1024;
     m_nbPointsForKabschBoostrap := 3;
     m_useAllModesPerLeafInPoseHypothesisGeneration := true;
     m_checkMinDistanceBetweenSampledModes := true;
     m_minDistanceBetweenSampledModes := 0.3%R;
     m_checkRigidTransformationConstraint := false;
     m_translationErrorMaxForCorrectPose := 0.05%R;
     m_batchSizeRansac := 500;
     m_trimKinitAfterFirstEnergyComputation := 64;
     m_poseUpdate := false;
     m_usePredictionCovarianceForPoseOptimization := true;
     m_maxNbModesPerLeaf := 10 |}.

Definition patchFeaturesData (self : t) (i : Z) : RGBDPatchFeature.t :=
  ORUtils.GetData (m_featureImage self) i.

Definition predictionsData (self : t) (i : Z) : GPUForestPrediction.t :=
  ORUtils.GetData (m_predictionsImage self) i.

(** [y * m_featureImage->noDims.width + x]. *)
Definition linearIdx_of (self : t) (x y : Z) : Z :=
  (y * ORUtils.width (ORUtils.noDims (m_featureImage self)) + x)%Z.

Definition col_index_generator (self : t) : std.mt19937 -> Z * std.mt19937 :=
  std.uniform_int_distribution 0
    (ORUtils.width (ORUtils.noDims (m_featureImage self)) - 1).

Definition row_index_generator (self : t) : std.mt19937 -> Z * std.mt19937 :=
  std.uniform_int_distribution 0
    (ORUtils.height (ORUtils.noDims (m_featureImage self)) - 1).

(** ** hypothesize_pose *)

Definition maxIterationsOuter : Z := 20.
Definition maxIterationsInner : Z := 6000.

(** The colour test applied to the first pixel. *)
Definition consistentColour (featureColour modeColour : ORUtils.Vector3u) : bool :=
  let colourDiff := ORUtils.Vector3u_sub featureColour modeColour in
  (Z.abs (ORUtils.x colourDiff) <=? 30)%Z
  && (Z.abs (ORUtils.y colourDiff) <=? 30)%Z
  && (Z.abs (ORUtils.z colourDiff) <=? 30)%Z.

(** The world position of mode [modeIdx] of the prediction at pixel [(x, y)]. *)
Definition worldPt_of (self : t) (selected : Z * Z * Z) : ORUtils.Vector3f :=
  let '(x, y, modeIdx) := selected in
  GPUForestMode.position
    (GPUForestPrediction.modes (predictionsData self (linearIdx_of self x y)) modeIdx).

(** The camera-space position of the feature at pixel [(x, y)]. *)
Definition localPt_of (self : t) (selected : Z * Z * Z) : ORUtils.Vector3f :=
  let '(x, y, _) := selected in
  ORUtils.toVector3
    (RGBDPatchFeature.position (patchFeaturesData self (linearIdx_of self x y))).

(** The loop over the points selected so far that leaves [farEnough] false
    as soon as one of them is closer than the minimum distance. *)
Definition farEnough (self : t) (selectedPixelsAndModes : list (Z * Z * Z))
    (worldPt : ORUtils.Vector3f) : bool :=
  forallb
    (fun other =>
       let worldPtOther := worldPt_of self other in
       let distOther := ORUtils.length (ORUtils.Vector3f_sub worldPtOther worldPt) in
       negb (float_lt distOther (m_minDistanceBetweenSampledModes self)))
    selectedPixelsAndModes.

(** The loop over the points selected so far that sets [violatesConditions]. *)
Definition violatesConditions (self : t) (selectedPixelsAndModes : list (Z * Z * Z))
    (worldPtCur localCur : ORUtils.Vector3f) : bool :=
  existsb
    (fun first =>
       let worldPtFirst := worldPt_of self first in
       let distWorld := ORUtils.length (ORUtils.Vector3f_sub worldPtFirst worldPtCur) in
       let localPred := localPt_of self first in
       let distLocal := ORUtils.length (ORUtils.Vector3f_sub localPred localCur) in
       float_lt distLocal (m_minDistanceBetweenSampledModes self)
       || float_gt (Rabs (distLocal - distWorld))
                   (0.5 * m_translationErrorMaxForCorrectPose self))
    selectedPixelsAndModes.

(** One iteration of the inner loop: draw a pixel and a mode, and either
    [continue] (the selection is returned unchanged) or push the triple. *)
Definition sample_point (self : t) (selectedPixelsAndModes : list (Z * Z * Z))
    (eng : std.mt19937) : list (Z * Z * Z) * std.mt19937 :=
  let (x, eng) := col_index_generator self eng in
  let (y, eng) := row_index_generator self eng in
  let linearFeatureIdx := linearIdx_of self x y in
  let selectedFeature := patchFeaturesData self linearFeatureIdx in
  if float_lt (ORUtils.w (RGBDPatchFeature.position selectedFeature)) 0
  then (selectedPixelsAndModes, eng)
  else
    let selectedPrediction := predictionsData self linearFeatureIdx in
    if (GPUForestPrediction.nbModes selectedPrediction =? 0)%nat
    then (selectedPixelsAndModes, eng)
    else
      let (selectedModeIdx, eng) :=
        if m_useAllModesPerLeafInPoseHypothesisGeneration self
        then std.uniform_int_distribution 0
               (Z.of_nat (GPUForestPrediction.nbModes selectedPrediction) - 1) eng
        else (0%Z, eng) in
      let selectedMode := GPUForestPrediction.modes selectedPrediction selectedModeIdx in
      if std.empty selectedPixelsAndModes
         && negb (consistentColour (RGBDPatchFeature.colour selectedFeature)
                                   (GPUForestMode.colour selectedMode))
      then (selectedPixelsAndModes, eng)
      else if m_checkMinDistanceBetweenSampledModes self
              && negb (farEnough self selectedPixelsAndModes
                                 (GPUForestMode.position selectedMode))
      then (selectedPixelsAndModes, eng)
      else if m_checkRigidTransformationConstraint self
              && violatesConditions self selectedPixelsAndModes
                   (GPUForestMode.position selectedMode)
                   (ORUtils.toVector3 (RGBDPatchFeature.position selectedFeature))
      then (selectedPixelsAndModes, eng)
      else (selectedPixelsAndModes ++ [(x, y, selectedModeIdx)], eng).

(** The inner loop, with [remaining = maxIterationsInner - iterationsInner]. *)
Fixpoint select_pixels_and_modes (self : t) (remaining : nat)
    (selectedPixelsAndModes : list (Z * Z * Z)) (eng : std.mt19937)
    : list (Z * Z * Z) * std.mt19937 :=
  match remaining with
  | O => (selectedPixelsAndModes, eng)
  | S remaining' =>
      if (length selectedPixelsAndModes =? m_nbPointsForKabschBoostrap self)%nat
      then (selectedPixelsAndModes, eng)
      else
        let (selectedPixelsAndModes, eng) :=
          sample_point self selectedPixelsAndModes eng in
        select_pixels_and_modes self remaining' selectedPixelsAndModes eng
  end.

Definition tmpInliers_of (self : t) (selectedPixelsAndModes : list (Z * Z * Z))
    : list (Z * Z) :=
  map (fun '(x, y, modeIdx) => (linearIdx_of self x y, modeIdx))
      selectedPixelsAndModes.

Section WithExternals.

Context {externals : Externals}.

(** The candidate built from the selected points. *)
Definition candidate_of (self : t) (selectedPixelsAndModes : list (Z * Z * Z))
    : PoseCandidate :=
  let localPoints := map (localPt_of self) selectedPixelsAndModes in
  let worldPoints := map (worldPt_of self) selectedPixelsAndModes in
  {| cameraPose := Kabsch localPoints worldPoints;
     inliers := tmpInliers_of self selectedPixelsAndModes;
     energy := 0%R;
     cameraId := (-1)%Z |}.

(** The state of the outer loop when it is left: the value returned from
    inside the loop body, if any, and the variables the code after the loop
    reads. *)
Record OuterLoopExit : Type := {
  returned : option bool;
  exit_iterationsOuter : Z;
  exit_res : PoseCandidate;
  exit_eng : std.mt19937
}.

(** The outer loop [while (!foundIsometricMapping && iterationsOuter <
    maxIterationsOuter)]; [fuel] bounds the number of iterations and is
    [maxIterationsOuter] at the call. *)
Fixpoint hypothesize_pose_loop (self : t) (fuel : nat)
    (foundIsometricMapping : bool) (iterationsOuter : Z)
    (res : PoseCandidate) (eng : std.mt19937) : OuterLoopExit :=
  match fuel with
  | O => {| returned := None; exit_iterationsOuter := iterationsOuter;
            exit_res := res; exit_eng := eng |}
  | S fuel' =>
      if negb foundIsometricMapping && (iterationsOuter <? maxIterationsOuter)%Z
      then
        let iterationsOuter := (iterationsOuter + 1)%Z in
        let (selectedPixelsAndModes, eng) :=
          select_pixels_and_modes self (Z.to_nat maxIterationsInner) [] eng in
        if negb (length selectedPixelsAndModes =? m_nbPointsForKabschBoostrap self)%nat
        then {| returned := Some false; exit_iterationsOuter := iterationsOuter;
                exit_res := res; exit_eng := eng |}
        else
          hypothesize_pose_loop self fuel' true iterationsOuter
            (candidate_of self selectedPixelsAndModes) eng
      else {| returned := None; exit_iterationsOuter := iterationsOuter;
              exit_res := res; exit_eng := eng |}
  end.

Definition hypothesize_pose (self : t) (res : PoseCandidate) (eng : std.mt19937)
    : bool * PoseCandidate * std.mt19937 :=
  let exit :=
    hypothesize_pose_loop self (Z.to_nat maxIterationsOuter) false 0 res eng in
  match returned exit with
  | Some value => (value, exit_res exit, exit_eng exit)
  | None =>
      ((exit_iterationsOuter exit <? maxIterationsOuter)%Z,
       exit_res exit, exit_eng exit)
  end.



Definition set_inliers (c : PoseCandidate) (value : list (Z * Z)) : PoseCandidate :=
  {| cameraPose := cameraPose c; inliers := value;
     energy := energy c; cameraId := cameraId c |}.

Definition set_energy (c : PoseCandidate) (value : float) : PoseCandidate :=
  {| cameraPose := cameraPose c; inliers := inliers c;
     energy := value; cameraId := cameraId c |}.

Definition set_cameraId (c : PoseCandidate) (value : Z) : PoseCandidate :=
  {| cameraPose := cameraPose c; inliers := inliers c;
     energy := energy c; cameraId := value |}.

(** ** generate_pose_candidates *)

Definition nbThreads : nat := 12.

(** The engines [engs], seeded with [i + 1]. *)
Definition seeded_engines : list std.mt19937 :=
  map (fun i => mt19937_seed (Z.of_nat i + 1)) (seq 0 nbThreads).

(** The parallel loop over [i < m_kInitRansac], executed one iteration after
    the other in index order; [omp_get_thread_num i] is the thread that the
    OpenMP schedule gives iteration [i], whose engine the iteration uses.
    [remaining] iterations are left. *)
Fixpoint generate_pose_candidates_loop (self : t) (omp_get_thread_num : Z -> nat)
    (remaining : nat) (i : Z) (engs : list std.mt19937)
    (poseCandidates : list PoseCandidate) : list PoseCandidate :=
  match remaining with
  | O => poseCandidates
  | S remaining' =>
      let threadId := omp_get_thread_num i in
      let candidate := PoseCandidate_default in
      let '(found, candidate, eng) :=
        hypothesize_pose self candidate (nth threadId engs (mt19937_seed 1)) in
      let engs := std.vector_set engs threadId eng in
      let poseCandidates :=
        if found && negb (std.empty (inliers candidate))
        then poseCandidates ++ [set_cameraId candidate i]
        else poseCandidates in
      generate_pose_candidates_loop self omp_get_thread_num remaining' (i + 1)
        engs poseCandidates
  end.

Definition generate_pose_candidates (self : t) (omp_get_thread_num : Z -> nat)
    (poseCandidates : list PoseCandidate) : list PoseCandidate :=
  generate_pose_candidates_loop self omp_get_thread_num (m_kInitRansac self) 0
    seeded_engines poseCandidates.

(** ** sample_pixels_for_ransac *)

(** The loop [while (!validIndex && innerIterations++ < 50)] for one slot of
    the batch, with [remaining = 50 - innerIterations]; the first component
    of the result is [validIndex]. *)
Fixpoint sample_valid_pixel (self : t) (remaining : nat)
    (maskSampledPixels : list bool) (sampledPixelIdx : list (Z * Z))
    (eng : std.mt19937)
    : bool * list bool * list (Z * Z) * std.mt19937 :=
  match remaining with
  | O => (false, maskSampledPixels, sampledPixelIdx, eng)
  | S remaining' =>
      let (first, eng) := col_index_generator self eng in
      let (second, eng) := row_index_generator self eng in
      let linearIdx := linearIdx_of self first second in
      if float_ge (ORUtils.w (RGBDPatchFeature.position
                                (patchFeaturesData self linearIdx))) 0
      then
        let selectedPrediction := predictionsData self linearIdx in
        if (0 <? GPUForestPrediction.nbModes selectedPrediction)%nat
        then
          let validIndex :=
            std.empty maskSampledPixels
            || negb (nth (Z.to_nat linearIdx) maskSampledPixels false) in
          if validIndex
          then
            (true,
             if negb (std.empty maskSampledPixels)
             then std.vector_set maskSampledPixels (Z.to_nat linearIdx) true
             else maskSampledPixels,
             sampledPixelIdx ++ [(first, second)],
             eng)
          else sample_valid_pixel self remaining' maskSampledPixels sampledPixelIdx eng
        else sample_valid_pixel self remaining' maskSampledPixels sampledPixelIdx eng
      else sample_valid_pixel self remaining' maskSampledPixels sampledPixelIdx eng
  end.

(** The loop [for (int i = 0; i < batchSize; ++i)], left early by [break]
    when no valid pixel was found for a slot. *)
Fixpoint sample_pixels_for_ransac_loop (self : t) (remaining : nat)
    (maskSampledPixels : list bool) (sampledPixelIdx : list (Z * Z))
    (eng : std.mt19937) : list bool * list (Z * Z) * std.mt19937 :=
  match remaining with
  | O => (maskSampledPixels, sampledPixelIdx, eng)
  | S remaining' =>
      let '(validIndex, maskSampledPixels, sampledPixelIdx, eng) :=
        sample_valid_pixel self 50 maskSampledPixels sampledPixelIdx eng in
      if negb validIndex
      then (maskSampledPixels, sampledPixelIdx, eng)
      else sample_pixels_for_ransac_loop self remaining' maskSampledPixels
             sampledPixelIdx eng
  end.

Definition sample_pixels_for_ransac (self : t) (maskSampledPixels : list bool)
    (sampledPixelIdx : list (Z * Z)) (eng : std.mt19937) (batchSize : nat)
    : list bool * list (Z * Z) * std.mt19937 :=
  sample_pixels_for_ransac_loop self batchSize maskSampledPixels sampledPixelIdx eng.

(** ** update_inliers_for_optimization *)

Definition update_inliers_for_optimization (self : t)
    (sampledPixelIdx : list (Z * Z)) (poseCandidates : list PoseCandidate)
    : list PoseCandidate :=
  map (fun candidate =>
         set_inliers candidate
           (inliers candidate
              ++ map (fun '(x, y) => (linearIdx_of self x y, (-1)%Z)) sampledPixelIdx))
      poseCandidates.

(** ** compute_pose_energy *)

(** The energy of a matched mode as it enters the sum: divided by the number
    of modes and by the inliers of the mode, and floored. *)
Definition normalised_energy (energy : float) (nbModes nbInliers : nat) : float :=
  let energy := (energy / INR nbModes)%R in
  let energy := (energy / INR nbInliers)%R in
  if float_lt energy 1e-6 then 1e-6%R else energy.

(** The loop over the inliers; [totalEnergy] is the sum so far. *)
Fixpoint compute_pose_energy_loop (self : t) (candidateCameraPose : ORUtils.Matrix4f)
    (inliersIndices : list (Z * Z)) (totalEnergy : float) : result float :=
  match inliersIndices with
  | [] => Ok totalEnergy
  | (linearIdx, _) :: rest =>
      let localPixel :=
        ORUtils.toVector3 (RGBDPatchFeature.position (patchFeaturesData self linearIdx)) in
      let projectedPixel := Matrix4f_mul candidateCameraPose localPixel in
      let pred := predictionsData self linearIdx in
      let (argmax, energy) := get_best_mode_and_energy pred projectedPixel in
      if (argmax <? 0)%Z
      then Throw "prediction has no valid modes"%string
      else if (GPUForestMode.nbInliers (GPUForestPrediction.modes pred argmax) =? 0)%nat
      then Throw "mode has no inliers"%string
      else
        let energy :=
          normalised_energy energy (GPUForestPrediction.nbModes pred)
            (GPUForestMode.nbInliers (GPUForestPrediction.modes pred argmax)) in
        compute_pose_energy_loop self candidateCameraPose rest
          (totalEnergy + - log10f energy)%R
  end.

Definition compute_pose_energy (self : t) (candidateCameraPose : ORUtils.Matrix4f)
    (inliersIndices : list (Z * Z)) : result float :=
  totalEnergy <- compute_pose_energy_loop self candidateCameraPose inliersIndices 0%R ;;
  Ok (totalEnergy / INR (length inliersIndices))%R.

(** ** compute_and_sort_energies *)

(** [std::sort] with the comparison [a.energy < b.energy], as an insertion
    sort; the order of candidates of equal energy, which [std::sort] leaves
    open, is kept. *)
Fixpoint insert_by_energy (c : PoseCandidate) (sorted : list PoseCandidate)
    : list PoseCandidate :=
  match sorted with
  | [] => [c]
  | d :: rest =>
      if float_lt (energy d) (energy c) then d :: insert_by_energy c rest
      else c :: d :: rest
  end.

Definition sort_by_energy (poseCandidates : list PoseCandidate) : list PoseCandidate :=
  fold_right insert_by_energy [] poseCandidates.

(** The loop that stores the energy of every candidate. *)
Fixpoint compute_energies (self : t) (poseCandidates : list PoseCandidate)
    : result (list PoseCandidate) :=
  match poseCandidates with
  | [] => Ok []
  | candidate :: rest =>
      value <- compute_pose_energy self (cameraPose candidate) (inliers candidate) ;;
      rest' <- compute_energies self rest ;;
      Ok (set_energy candidate value :: rest')
  end.

Definition compute_and_sort_energies (self : t) (poseCandidates : list PoseCandidate)
    : result (list PoseCandidate) :=
  poseCandidates <- compute_energies self poseCandidates ;;
  Ok (sort_by_energy poseCandidates).

(** ** update_candidate_poses *)

Definition update_candidate_pose (self : t) (poseCandidate : PoseCandidate)
    : result (bool * PoseCandidate) :=
  Throw "not updated yet"%string.

Fixpoint update_candidate_poses (self : t) (poseCandidates : list PoseCandidate)
    : result (list PoseCandidate) :=
  match poseCandidates with
  | [] => Ok []
  | candidate :: rest =>
      updated <- update_candidate_pose self candidate ;;
      rest' <- update_candidate_poses self rest ;;
      Ok (snd updated :: rest')
  end.

(** ** estimate_pose *)

(** The body of the main loop [while (candidates.size() > 1)]. *)
Definition ransac_iteration (self : t) (maskSampledPixels : list bool)
    (random_engine : std.mt19937) (candidates : list PoseCandidate)
    : result (list bool * std.mt19937 * list PoseCandidate) :=
  let '(maskSampledPixels, sampledPixelIdx, random_engine) :=
    sample_pixels_for_ransac self maskSampledPixels [] random_engine
      (m_batchSizeRansac self) in
  let candidates := update_inliers_for_optimization self sampledPixelIdx candidates in
  candidates <-
    (if m_poseUpdate self then update_candidate_poses self candidates
     else Ok candidates) ;;
  candidates <- compute_and_sort_energies self candidates ;;
  Ok (maskSampledPixels, random_engine,
      firstn (length candidates / 2) candidates).

Lemma insert_by_energy_length c sorted :
  length (insert_by_energy c sorted) = S (length sorted).
Proof.
  induction sorted as [|d rest IH]; simpl; [reflexivity|].
  destruct (float_lt (energy d) (energy c)); simpl; [rewrite IH|]; reflexivity.
Qed.

Lemma sort_by_energy_length poseCandidates :
  length (sort_by_energy poseCandidates) = length poseCandidates.
Proof.
  induction poseCandidates as [|c rest IH]; simpl; [reflexivity|].
  rewrite insert_by_energy_length. f_equal. exact IH.
Qed.

Lemma compute_energies_length self poseCandidates scored :
  compute_energies self poseCandidates = Ok scored ->
  length scored = length poseCandidates.
Proof.
  revert scored.
  induction poseCandidates as [|c rest IH]; simpl; intros scored Hok.
  - injection Hok as <-. reflexivity.
  - destruct (compute_pose_energy self (cameraPose c) (inliers c)); simpl in Hok;
      [|discriminate].
    destruct (compute_energies self rest) as [rest'|]; simpl in Hok; [|discriminate].
    injection Hok as <-. simpl. f_equal. apply IH. reflexivity.
Qed.

Lemma compute_and_sort_energies_length self poseCandidates sorted :
  compute_and_sort_energies self poseCandidates = Ok sorted ->
  length sorted = length poseCandidates.
Proof.
  unfold compute_and_sort_energies. intros Hok.
  destruct (compute_energies self poseCandidates) as [scored|] eqn:Hscored;
    simpl in Hok; [|discriminate].
  injection Hok as <-. rewrite sort_by_energy_length.
  eapply compute_energies_length. exact Hscored.
Qed.

Lemma update_candidate_poses_length self poseCandidates updated :
  update_candidate_poses self poseCandidates = Ok updated ->
  length updated = length poseCandidates.
Proof.
  destruct poseCandidates; simpl; intros Hok; [|discriminate].
  injection Hok as <-. reflexivity.
Qed.

Lemma update_inliers_for_optimization_length self sampledPixelIdx poseCandidates :
  length (update_inliers_for_optimization self sampledPixelIdx poseCandidates)
  = length poseCandidates.
Proof. unfold update_inliers_for_optimization. apply length_map. Qed.

Lemma ransac_iteration_length self mask eng candidates mask' eng' candidates' :
  ransac_iteration self mask eng candidates = Ok (mask', eng', candidates') ->
  length candidates' = (length candidates / 2)%nat.
Proof.
  unfold ransac_iteration. intros Hok.
  destruct (sample_pixels_for_ransac self mask [] eng (m_batchSizeRansac self))
    as [[mask1 sampled] eng1].
  pose proof (update_inliers_for_optimization_length self sampled candidates) as Hlen.
  set (updated := update_inliers_for_optimization self sampled candidates) in *.
  assert (Hrefined : forall refined,
             (if m_poseUpdate self then update_candidate_poses self updated
              else Ok updated) = Ok refined ->
             length refined = length candidates).
  { intros refined Href. destruct (m_poseUpdate self).
    - rewrite (update_candidate_poses_length _ _ _ Href). exact Hlen.
    - injection Href as <-. exact Hlen. }
  destruct (if m_poseUpdate self then update_candidate_poses self updated
            else Ok updated) as [refined|]; cbn [bind] in Hok; [|discriminate].
  destruct (compute_and_sort_energies self refined) as [sorted|] eqn:Hsorted;
    cbn [bind] in Hok; [|discriminate].
  injection Hok as _ _ <-.
  assert (Hsame : length sorted = length candidates).
  { rewrite (compute_and_sort_energies_length _ _ _ Hsorted).
    apply Hrefined. reflexivity. }
  rewrite firstn_length_le; rewrite Hsame; [reflexivity|].
  exact (Nat.Div0.div_le_upper_bound (length candidates) 2 (length candidates)
           ltac:(lia)).
Qed.

Definition inspect {A : Type} (a : A) : {b : A | a = b} := exist _ a eq_refl.

(** The main loop [while (candidates.size() > 1)].  The recursion is on the
    number of candidates, which every completed iteration halves. *)
Equations? ransac_loop (self : t) (maskSampledPixels : list bool)
    (random_engine : std.mt19937) (candidates : list PoseCandidate)
    : result (list PoseCandidate) by wf (length candidates) lt :=
  ransac_loop self maskSampledPixels random_engine candidates
    with inspect (1 <? length candidates)%nat => {
    | exist _ false _ := Ok candidates;
    | exist _ true Hwhile
        with inspect (ransac_iteration self maskSampledPixels random_engine candidates) => {
        | exist _ (Throw what) _ := Throw what;
        | exist _ (Ok (maskSampledPixels', random_engine', candidates')) Hbody :=
            ransac_loop self maskSampledPixels' random_engine' candidates' } }.
Proof.
  apply ransac_iteration_length in Hbody. rewrite Hbody.
  apply Nat.ltb_lt in Hwhile. apply Nat.div_lt; lia.
Qed.

(** The engine a default-constructed [std::mt19937] holds (seed 5489). *)
Definition default_engine : std.mt19937 := mt19937_seed 5489.

(** [samples.erase(samples.begin() + nbSamplesPerCamera, samples.end())] when
    the candidate has more than [nbSamplesPerCamera] inliers. *)
Definition cap_inliers (nbSamplesPerCamera : nat) (candidate : PoseCandidate)
    : PoseCandidate :=
  if (nbSamplesPerCamera <? length (inliers candidate))%nat
  then set_inliers candidate (firstn nbSamplesPerCamera (inliers candidate))
  else candidate.

(** The block guarded by [m_trimKinitAfterFirstEnergyComputation <
    candidates.size()]. *)
Definition first_trim (self : t) (random_engine : std.mt19937)
    (candidates : list PoseCandidate)
    : result (std.mt19937 * list PoseCandidate) :=
  if (m_trimKinitAfterFirstEnergyComputation self <? length candidates)%nat
  then
    let nbSamplesPerCamera := length (inliers (nth 0 candidates PoseCandidate_default)) in
    let dummy_vector : list bool := [] in
    let '(_, sampledPixelIdx, random_engine) :=
      sample_pixels_for_ransac self dummy_vector [] random_engine
        (m_batchSizeRansac self) in
    let candidates := update_inliers_for_optimization self sampledPixelIdx candidates in
    candidates <- compute_and_sort_energies self candidates ;;
    let candidates := firstn (m_trimKinitAfterFirstEnergyComputation self) candidates in
    let candidates :=
      if (1 <? m_trimKinitAfterFirstEnergyComputation self)%nat
      then map (cap_inliers nbSamplesPerCamera) candidates
      else candidates in
    Ok (random_engine, candidates)
  else Ok (random_engine, candidates).

(** [estimate_pose], from the candidates that [generate_pose_candidates]
    produced on. *)
Definition estimate_pose_from (self : t) (candidates : list PoseCandidate)
    : result (option PoseCandidate) :=
  let random_engine := default_engine in
  trimmed <- first_trim self random_engine candidates ;;
  let (random_engine, candidates) := trimmed : std.mt19937 * list PoseCandidate in
  let maskSampledPixels := repeat false (ORUtils.dataSize (m_featureImage self)) in
  candidates <- ransac_loop self maskSampledPixels random_engine candidates ;;
  Ok (if negb (std.empty candidates)
      then Some (nth 0 candidates PoseCandidate_default)
      else None).

Definition estimate_pose (self : t) (omp_get_thread_num : Z -> nat)
    : result (option PoseCandidate) :=
  estimate_pose_from self (generate_pose_candidates self omp_get_thread_num []).

(** ** process_relocalisation *)

Inductive TrackingResult : Type :=
| TRACKING_GOOD
| TRACKING_POOR
| TRACKING_FAILED.

(** [process_relocalisation], for a frame on which [CountValidDepths] gives
    [validDepths] and [evaluate_forest] leaves the component as [self];
    [track pose] is the tracker result after the pose has been installed and
    the tracker has been run again. *)
Definition process_relocalisation (self : t) (omp_get_thread_num : Z -> nat)
    (validDepths : nat) (track : ORUtils.Matrix4f -> TrackingResult)
    (trackingResult : TrackingResult) : result TrackingResult :=
  match trackingResult with
  | TRACKING_FAILED =>
      if (validDepths <? Nat.max (m_nbPointsForKabschBoostrap self)
                                 (m_batchSizeRansac self))%nat
      then Ok trackingResult
      else
        pose_candidate <- estimate_pose self omp_get_thread_num ;;
        match pose_candidate with
        | Some candidate => Ok (track (cameraPose candidate))
        | None => Ok trackingResult
        end
  | _ => Ok trackingResult
  end.

End WithExternals.

(** ** build_rgbd_image *)

Section BuildRgbdImage.

(** [OpenCVUtil::make_rgb_image(rgbaData, width, height)], which the header
    declares and does not define. *)
Variable make_rgb_image : (Z -> ORUtils.Vector4 uchar) -> Z -> Z -> cv.Mat.

(** [std::swap(channels[0], channels[2])]. *)
Definition swap_0_2 {A : Type} (channels : list A) : list A :=
  match channels with
  | c0 :: c1 :: c2 :: rest => c2 :: c1 :: c0 :: rest
  | _ => channels
  end.

Definition build_rgbd_image (inputRGBImage : ORUtils.Image (ORUtils.Vector4 uchar))
    (inputRawDepthImage : ORUtils.Image Z) : result cv.Mat :=
  let rgb :=
    make_rgb_image (ORUtils.GetData inputRGBImage)
      (ORUtils.width (ORUtils.noDims inputRGBImage))
      (ORUtils.height (ORUtils.noDims inputRGBImage)) in
  let depth :=
    {| cv.rows := ORUtils.height (ORUtils.noDims inputRawDepthImage);
       cv.cols := ORUtils.width (ORUtils.noDims inputRawDepthImage);
       cv.depth := cv.CV_16S;
       cv.planes :=
         [fun y x =>
            IZR (ORUtils.GetData inputRawDepthImage
                   (y * ORUtils.width (ORUtils.noDims inputRawDepthImage) + x)%Z)] |} in
  rgb <- cv.cvtColor_BGR2RGB rgb ;;
  let rgb := cv.convertTo_32F rgb in
  let depth := cv.convertTo_32F depth in
  let dummyFiller :=
    cv.zeros (ORUtils.height (ORUtils.noDims inputRawDepthImage))
      (ORUtils.width (ORUtils.noDims inputRawDepthImage)) cv.CV_32F in
  let channels := cv.split rgb in
  let channels := swap_0_2 channels in
  let channels := channels ++ [dummyFiller] in
  let channels := channels ++ [dummyFiller] in
  let channels := channels ++ [depth] in
  let channels := channels ++ [dummyFiller] in
  let channels := channels ++ [dummyFiller] in
  let channels := channels ++ [dummyFiller] in
  cv.merge channels.

End BuildRgbdImage.

End SLAMComponentWithScoreForest.

(* ################################################################# *)
(** * Properties of the scalar tests *)

Lemma float_lt_true a b : (a < b)%R -> float_lt a b = true.
Proof. intros Hab. unfold float_lt. destruct (Rlt_dec a b); [reflexivity|contradiction]. Qed.

Lemma float_lt_false a b : (b <= a)%R -> float_lt a b = false.
Proof. intros Hab. unfold float_lt. destruct (Rlt_dec a b); [lra|reflexivity]. Qed.

Lemma float_lt_spec a b : reflect (a < b)%R (float_lt a b).
Proof. unfold float_lt. destruct (Rlt_dec a b); constructor; assumption. Qed.

Lemma float_ge_true a b : (a >= b)%R -> float_ge a b = true.
Proof. intros Hab. unfold float_ge. destruct (Rge_dec a b); [reflexivity|contradiction]. Qed.

Lemma float_ge_false a b : (a < b)%R -> float_ge a b = false.
Proof. intros Hab. unfold float_ge. destruct (Rge_dec a b); [lra|reflexivity]. Qed.

Lemma float_ge_spec a b : reflect (a >= b)%R (float_ge a b).
Proof. unfold float_ge. destruct (Rge_dec a b); constructor; assumption. Qed.



Lemma to_uchar_range v : (0 <= to_uchar v < 256)%Z.
Proof. unfold to_uchar. apply Z.mod_pos_bound. lia. Qed.

Lemma to_uchar_small v : (0 <= v < 256)%Z -> to_uchar v = v.
Proof. intros Hv. unfold to_uchar. apply Z.mod_small. exact Hv. Qed.

(** Truncation of a float in [0, 255] stays in [0, 255]. *)
Lemma Int_part_pixel v :
  (0 <= v <= 255)%R -> (0 <= Int_part v <= 255)%Z.
Proof.
  intros [Hlo Hhi]. destruct (base_Int_part v) as [Hle Hgt]. split.
  - assert (Hlt : (-1 < Int_part v)%Z) by (apply lt_IZR; lra). lia.
  - apply le_IZR. lra.
Qed.

(** ** Base-10 logarithm *)

Lemma ln_10_pos : (0 < ln 10)%R.
Proof. rewrite <- ln_1. apply ln_increasing; lra. Qed.

Lemma log10f_1 : log10f 1 = 0%R.
Proof. unfold log10f. rewrite ln_1. pose proof ln_10_pos. field. lra. Qed.

Lemma log10f_10 : log10f 10 = 1%R.
Proof. unfold log10f. pose proof ln_10_pos. field. lra. Qed.

Lemma log10f_floor : log10f 1e-6 = (-6)%R.
Proof.
  unfold log10f. pose proof ln_10_pos as Hpos.
  replace 1e-6%R with (/ (10 ^ 6))%R by lra.
  rewrite ln_Rinv by (apply pow_lt; lra).
  rewrite ln_pow by lra. simpl INR. field. lra.
Qed.

Lemma log10f_le a b : (0 < a)%R -> (a <= b)%R -> (log10f a <= log10f b)%R.
Proof.
  intros Ha Hab. unfold log10f. pose proof ln_10_pos as Hpos.
  apply Rmult_le_compat_r; [left; apply Rinv_0_lt_compat; exact Hpos|].
  destruct Hab as [Hlt|Heq].
  - left. apply ln_increasing; assumption.
  - rewrite Heq. right. reflexivity.
Qed.

(* ################################################################# *)
(** * Properties of itmx::OpenCVUtil *)

Module OpenCVUtilProperties.

Import OpenCVUtil.

Section Greyscale.

Context {T U : Type} `{PixelValue U}.
Variable inputData : Z -> T.
Variable scaleFunc : T -> U.

Lemma row_major_loop_length n i :
  length (row_major_loop inputData scaleFunc n i) = n.
Proof. revert i. induction n as [|n IH]; intros i; simpl; [|rewrite IH]; reflexivity. Qed.

Lemma row_major_loop_nth n : forall i k,
  (k < n)%nat ->
  nth k (row_major_loop inputData scaleFunc n i) 0%Z
  = clamp_pixel_value (scaleFunc (inputData (i + Z.of_nat k))).
Proof.
  induction n as [|n IH]; intros i k Hk; [lia|].
  destruct k as [|k]; simpl row_major_loop; simpl nth.
  - rewrite Z.add_0_r. reflexivity.
  - rewrite IH by lia. do 3 f_equal. lia.
Qed.

Lemma col_major_row_length height y n x :
  length (col_major_row inputData scaleFunc height y n x) = n.
Proof. revert x. induction n as [|n IH]; intros x; simpl; [|rewrite IH]; reflexivity. Qed.

Lemma col_major_row_nth height y n : forall x k,
  (k < n)%nat ->
  nth k (col_major_row inputData scaleFunc height y n x) 0%Z
  = clamp_pixel_value (scaleFunc (inputData ((x + Z.of_nat k) * height + y))).
Proof.
  induction n as [|n IH]; intros x k Hk; [lia|].
  destruct k as [|k]; simpl col_major_row; simpl nth.
  - rewrite Z.add_0_r. reflexivity.
  - rewrite IH by lia. do 3 f_equal. lia.
Qed.

Lemma col_major_loop_length width height n y :
  length (col_major_loop inputData scaleFunc width height n y)
  = (n * Z.to_nat width)%nat.
Proof.
  revert y. induction n as [|n IH]; intros y; simpl; [reflexivity|].
  rewrite length_app, col_major_row_length, IH. reflexivity.
Qed.

(** Row [r] of the rows still to be written, column [c]. *)
Lemma col_major_loop_nth width height n : forall y r c,
  (r < n)%nat -> (c < Z.to_nat width)%nat ->
  nth (r * Z.to_nat width + c) (col_major_loop inputData scaleFunc width height n y) 0%Z
  = clamp_pixel_value
      (scaleFunc (inputData (Z.of_nat c * height + (y + Z.of_nat r)))).
Proof.
  induction n as [|n IH]; intros y r c Hr Hc; [lia|].
  simpl col_major_loop. destruct r as [|r].
  - rewrite app_nth1 by (rewrite col_major_row_length; lia).
    simpl Nat.add. rewrite col_major_row_nth by lia.
    do 3 f_equal. lia.
  - rewrite app_nth2 by (rewrite col_major_row_length; lia).
    rewrite col_major_row_length.
    replace (S r * Z.to_nat width + c - Z.to_nat width)%nat
      with (r * Z.to_nat width + c)%nat by lia.
    rewrite IH by lia. do 3 f_equal. lia.
Qed.

End Greyscale.

(** On floats, [clamp_pixel_value] is 0 below 0, 255 above 255, and the
    truncation of the value in between; the result is a byte value. *)
Lemma clamp_pixel_value_float (v : float) :
  (0 <= clamp_pixel_value v <= 255)%Z
  /\ ((v < 0)%R -> clamp_pixel_value v = 0%Z)
  /\ ((255 < v)%R -> clamp_pixel_value v = 255%Z)
  /\ ((0 <= v <= 255)%R -> clamp_pixel_value v = Int_part v).
Proof.
  assert (H0 : float_to_int 0 = 0%Z).
  { unfold float_to_int. rewrite float_lt_false by lra.
    symmetry. apply Int_part_spec. simpl. lra. }
  assert (H255 : float_to_int 255 = 255%Z).
  { unfold float_to_int. rewrite float_lt_false by lra.
    symmetry. apply Int_part_spec. simpl. lra. }
  assert (Hmid : (0 <= v <= 255)%R -> clamp_pixel_value v = Int_part v).
  { intros Hv. unfold clamp_pixel_value. simpl.
    rewrite (float_lt_false v 0) by lra. rewrite (float_lt_false 255 v) by lra.
    unfold float_to_int. rewrite float_lt_false by lra.
    apply to_uchar_small. pose proof (Int_part_pixel v Hv). lia. }
  assert (Hlow : (v < 0)%R -> clamp_pixel_value v = 0%Z).
  { intros Hv. unfold clamp_pixel_value. simpl.
    rewrite (float_lt_true v 0) by lra. rewrite (float_lt_false 255 0) by lra.
    rewrite H0. reflexivity. }
  assert (Hhigh : (255 < v)%R -> clamp_pixel_value v = 255%Z).
  { intros Hv. unfold clamp_pixel_value. simpl.
    rewrite (float_lt_false v 0) by lra. rewrite (float_lt_true 255 v) by lra.
    rewrite H255. reflexivity. }
  repeat split; try assumption.
  - destruct (Rlt_dec v 0) as [Hneg|Hpos]; [rewrite Hlow by assumption; lia|].
    destruct (Rlt_dec 255 v) as [Hbig|Hsmall]; [rewrite Hhigh by assumption; lia|].
    rewrite Hmid by lra. apply Int_part_pixel. lra.
  - destruct (Rlt_dec v 0) as [Hneg|Hpos]; [rewrite Hlow by assumption; lia|].
    destruct (Rlt_dec 255 v) as [Hbig|Hsmall]; [rewrite Hhigh by assumption; lia|].
    rewrite Hmid by lra. apply Int_part_pixel. lra.
Qed.

(** C8.  For every input buffer, width, height and scaling function:
    in row-major order the byte at linear index [i < width * height] of the
    image is the clamped, truncated [scaleFunc (inputData[i])]; in
    column-major order the pixel at [(x, y)] is the clamped, truncated
    [scaleFunc (inputData[x * height + y])]; and clamping a float means 0
    below 0, 255 above 255 and truncation in between. *)
Theorem make_greyscale_image_pixels :
  forall (T U : Type) (pixel : PixelValue U) (inputData : Z -> T)
         (scaleFunc : T -> U) (width height : Z),
  (forall i, (0 <= i < width * height)%Z ->
     nth (Z.to_nat i)
         (data (make_greyscale_image inputData scaleFunc width height ROW_MAJOR)) 0%Z
     = clamp_pixel_value (scaleFunc (inputData i)))
  /\ (forall x y, (0 <= x < width)%Z -> (0 <= y < height)%Z ->
        Mat1b_at (make_greyscale_image inputData scaleFunc width height COL_MAJOR) x y
        = clamp_pixel_value (scaleFunc (inputData (x * height + y)%Z)))
  /\ (forall v : float,
        (0 <= clamp_pixel_value v <= 255)%Z
        /\ ((v < 0)%R -> clamp_pixel_value v = 0%Z)
        /\ ((255 < v)%R -> clamp_pixel_value v = 255%Z)
        /\ ((0 <= v <= 255)%R -> clamp_pixel_value v = Int_part v)).
Proof.
  intros T U pixel inputData scaleFunc width height. split; [|split].
  - intros i Hi. simpl data.
    rewrite row_major_loop_nth by lia.
    do 3 f_equal. lia.
  - intros x y Hx Hy. unfold Mat1b_at. simpl cols. simpl data.
    replace (Z.to_nat (y * width + x))
      with (Z.to_nat y * Z.to_nat width + Z.to_nat x)%nat by nia.
    rewrite col_major_loop_nth by lia.
    rewrite !Z2Nat.id by lia. reflexivity.
  - exact clamp_pixel_value_float.
Qed.

(** A 3 by 2 buffer of integers in column-major order, scaled by a
    function that doubles. *)
Lemma make_greyscale_image_pixels_witness :
  Mat1b_at (make_greyscale_image (fun i => (100 * i - 60)%Z) (fun v => (2 * v)%Z)
              3 2 COL_MAJOR) 2 1
  = clamp_pixel_value (2 * (100 * (2 * 2 + 1) - 60))%Z
  /\ nth 4 (data (make_greyscale_image (fun i => (100 * i - 60)%Z)
                    (fun v => (2 * v)%Z) 3 2 ROW_MAJOR)) 0%Z
     = clamp_pixel_value (2 * (100 * 4 - 60))%Z.
Proof.
  destruct (make_greyscale_image_pixels Z Z PixelValue_int
              (fun i => (100 * i - 60)%Z) (fun v => (2 * v)%Z) 3 2)
    as [Hrow [Hcol _]].
  split.
  - apply (Hcol 2%Z 1%Z); lia.
  - apply (Hrow 4%Z); lia.
Defined.

(** ** ScaleDataToRange *)

Lemma fold_left_max_spec rest : forall v,
  let largest :=
    fold_left (fun largest w => if float_lt largest w then w else largest) rest v in
  (largest = v \/ In largest rest)
  /\ (v <= largest)%R
  /\ (forall w, In w rest -> (w <= largest)%R).
Proof.
  induction rest as [|u rest IH]; intros v; simpl.
  - split; [left; reflexivity|]. split; [lra|]. intros w [].
  - destruct (float_lt_spec v u) as [Hlt|Hge].
    + destruct (IH u) as [Hin [Hle Hall]]. split; [|split].
      * destruct Hin as [->|Hin]; [right; left; reflexivity|right; right; exact Hin].
      * lra.
      * intros w [<-|Hw]; [exact Hle|apply Hall; exact Hw].
    + destruct (IH v) as [Hin [Hle Hall]]. split; [|split].
      * destruct Hin as [->|Hin]; [left; reflexivity|right; right; exact Hin].
      * exact Hle.
      * intros w [<-|Hw]; [lra|apply Hall; exact Hw].
Qed.

Lemma fold_left_min_spec rest : forall v,
  let smallest :=
    fold_left (fun smallest w => if float_lt w smallest then w else smallest) rest v in
  (smallest = v \/ In smallest rest)
  /\ (smallest <= v)%R
  /\ (forall w, In w rest -> (smallest <= w)%R).
Proof.
  induction rest as [|u rest IH]; intros v; simpl.
  - split; [left; reflexivity|]. split; [lra|]. intros w [].
  - destruct (float_lt_spec u v) as [Hlt|Hge].
    + destruct (IH u) as [Hin [Hle Hall]]. split; [|split].
      * destruct Hin as [->|Hin]; [right; left; reflexivity|right; right; exact Hin].
      * lra.
      * intros w [<-|Hw]; [exact Hle|apply Hall; exact Hw].
    + destruct (IH v) as [Hin [Hle Hall]]. split; [|split].
      * destruct Hin as [->|Hin]; [left; reflexivity|right; right; exact Hin].
      * exact Hle.
      * intros w [<-|Hw]; [lra|apply Hall; exact Hw].
Qed.

Lemma max_element_spec inputData maxInputValue :
  max_element inputData = Some maxInputValue ->
  In maxInputValue inputData
  /\ (forall w, In w inputData -> (w <= maxInputValue)%R).
Proof.
  destruct inputData as [|v rest]; simpl; [discriminate|].
  intros Hmax. injection Hmax as <-.
  destruct (fold_left_max_spec rest v) as [Hin [Hle Hall]]. split.
  - destruct Hin as [->|Hin]; [left; reflexivity|right; exact Hin].
  - intros w [<-|Hw]; [exact Hle|apply Hall; exact Hw].
Qed.

Lemma min_element_spec inputData minInputValue :
  min_element inputData = Some minInputValue ->
  In minInputValue inputData
  /\ (forall w, In w inputData -> (minInputValue <= w)%R).
Proof.
  destruct inputData as [|v rest]; simpl; [discriminate|].
  intros Hmin. injection Hmin as <-.
  destruct (fold_left_min_spec rest v) as [Hin [Hle Hall]]. split.
  - destruct Hin as [->|Hin]; [left; reflexivity|right; exact Hin].
  - intros w [<-|Hw]; [exact Hle|apply Hall; exact Hw].
Qed.





End OpenCVUtilProperties.

(* ################################################################# *)
(** * Properties of spaint::SLAMComponentWithScoreForest *)

Module RelocaliserProperties.

Import SLAMComponentWithScoreForest.

(** ** What the checks of [hypothesize_pose] accept *)

(** The feature at [linearIdx] has a non-negative validity component. *)
Definition valid_feature (self : t) (linearIdx : Z) : Prop :=
  (0 <= ORUtils.w (RGBDPatchFeature.position (patchFeaturesData self linearIdx)))%R.

(** The prediction at [linearIdx] has at least one mode. *)
Definition has_modes (self : t) (linearIdx : Z) : Prop :=
  (1 <= GPUForestPrediction.nbModes (predictionsData self linearIdx))%nat.

(** An inlier pair refers to a valid feature and to a prediction with modes. *)
Definition inlier_source_ok (self : t) (inlier : Z * Z) : Prop :=
  valid_feature self (fst inlier) /\ has_modes self (fst inlier).

(** The world position of the mode an inlier pair names. *)
Definition inlier_worldPt (self : t) (inlier : Z * Z) : ORUtils.Vector3f :=
  GPUForestMode.position
    (GPUForestPrediction.modes (predictionsData self (fst inlier)) (snd inlier)).

(** The triple [p] passes every check of the inner loop when the triples
    [selected] have been chosen before it. *)
Definition acceptable (self : t) (selected : list (Z * Z * Z)) (p : Z * Z * Z)
    : Prop :=
  let linearIdx := linearIdx_of self (fst (fst p)) (snd (fst p)) in
  let feature := patchFeaturesData self linearIdx in
  let mode := GPUForestPrediction.modes (predictionsData self linearIdx) (snd p) in
  float_lt (ORUtils.w (RGBDPatchFeature.position feature)) 0 = false
  /\ GPUForestPrediction.nbModes (predictionsData self linearIdx) <> O
  /\ (selected = [] ->
      consistentColour (RGBDPatchFeature.colour feature) (GPUForestMode.colour mode)
      = true)
  /\ (m_checkMinDistanceBetweenSampledModes self = true ->
      farEnough self selected (GPUForestMode.position mode) = true)
  /\ (m_checkRigidTransformationConstraint self = true ->
      violatesConditions self selected (GPUForestMode.position mode)
        (ORUtils.toVector3 (RGBDPatchFeature.position feature)) = false).

(** The selections the inner loop can build: each triple was acceptable
    when it was pushed. *)
Inductive selection (self : t) : list (Z * Z * Z) -> Prop :=
| selection_nil : selection self []
| selection_push selected p :
    selection self selected -> acceptable self selected p ->
    selection self (selected ++ [p]).

Lemma sample_point_spec self selected eng :
  fst (sample_point self selected eng) = selected
  \/ exists p, fst (sample_point self selected eng) = selected ++ [p]
               /\ acceptable self selected p.
Proof.
  unfold sample_point.
  destruct (col_index_generator self eng) as [x eng1].
  destruct (row_index_generator self eng1) as [y eng2].
  destruct (float_lt _ 0) eqn:Hvalid; [left; reflexivity|].
  destruct (_ =? 0)%nat eqn:Hmodes; [left; reflexivity|].
  destruct (if m_useAllModesPerLeafInPoseHypothesisGeneration self
            then _ else _) as [modeIdx eng3].
  destruct (std.empty selected && _) eqn:Hcolour; [left; reflexivity|].
  destruct (m_checkMinDistanceBetweenSampledModes self && _) eqn:Hfar;
    [left; reflexivity|].
  destruct (m_checkRigidTransformationConstraint self && _) eqn:Hrigid;
    [left; reflexivity|].
  right. exists (x, y, modeIdx). split; [reflexivity|].
  unfold acceptable. cbn [fst snd].
  split; [exact Hvalid|]. split; [apply Nat.eqb_neq; exact Hmodes|].
  split; [|split].
  - intros ->. simpl in Hcolour. apply negb_false_iff in Hcolour. exact Hcolour.
  - intros Hflag. rewrite Hflag in Hfar. simpl in Hfar.
    apply negb_false_iff in Hfar. exact Hfar.
  - intros Hflag. rewrite Hflag in Hrigid. simpl in Hrigid. exact Hrigid.
Qed.

Lemma select_pixels_and_modes_selection self remaining :
  forall selected eng,
  selection self selected ->
  selection self (fst (select_pixels_and_modes self remaining selected eng)).
Proof.
  induction remaining as [|remaining IH]; intros selected eng Hsel; simpl.
  - exact Hsel.
  - destruct (_ =? _)%nat; [exact Hsel|].
    destruct (sample_point self selected eng) as [selected' eng'] eqn:Hpoint.
    apply IH.
    destruct (sample_point_spec self selected eng) as [Hsame|[p [Hpush Hacc]]];
      rewrite Hpoint in *; simpl in *; subst selected'.
    + exact Hsel.
    + apply selection_push; assumption.
Qed.

(** ** Consequences for the selected points *)

Lemma acceptable_source_ok self selected p :
  acceptable self selected p ->
  inlier_source_ok self (linearIdx_of self (fst (fst p)) (snd (fst p)), snd p).
Proof.
  intros [Hvalid [Hmodes _]]. split; cbn [fst].
  - unfold valid_feature.
    destruct (float_lt_spec
                (ORUtils.w (RGBDPatchFeature.position
                   (patchFeaturesData self
                      (linearIdx_of self (fst (fst p)) (snd (fst p)))))) 0)
      as [Hlt|Hge]; [discriminate|lra].
  - unfold has_modes. lia.
Qed.

Lemma tmpInliers_of_push self selected p :
  tmpInliers_of self (selected ++ [p])
  = tmpInliers_of self selected
    ++ [(linearIdx_of self (fst (fst p)) (snd (fst p)), snd p)].
Proof.
  unfold tmpInliers_of. rewrite map_app. destruct p as [[x y] modeIdx]. reflexivity.
Qed.

Lemma tmpInliers_of_length self selected :
  length (tmpInliers_of self selected) = length selected.
Proof. apply length_map. Qed.

Lemma selection_sources_ok self selected :
  selection self selected ->
  Forall (inlier_source_ok self) (tmpInliers_of self selected).
Proof.
  induction 1 as [|selected p Hsel IH Hacc].
  - constructor.
  - rewrite tmpInliers_of_push. apply Forall_app. split; [exact IH|].
    constructor; [|constructor]. eapply acceptable_source_ok. exact Hacc.
Qed.

(** Two inlier pairs whose modes are at least the minimum distance apart. *)
Definition far_apart (self : t) (p q : Z * Z) : Prop :=
  (m_minDistanceBetweenSampledModes self
   <= ORUtils.length (ORUtils.Vector3f_sub (inlier_worldPt self p)
                                           (inlier_worldPt self q)))%R.

Lemma length_sub_sym a b :
  ORUtils.length (ORUtils.Vector3f_sub a b) = ORUtils.length (ORUtils.Vector3f_sub b a).
Proof. unfold ORUtils.length, ORUtils.Vector3f_sub. simpl. f_equal. ring. Qed.

Lemma far_apart_sym self p q : far_apart self p q -> far_apart self q p.
Proof. unfold far_apart. rewrite length_sub_sym. exact (fun H => H). Qed.

Lemma worldPt_of_inlier self p :
  worldPt_of self p
  = inlier_worldPt self (linearIdx_of self (fst (fst p)) (snd (fst p)), snd p).
Proof. destruct p as [[x y] modeIdx]. reflexivity. Qed.

Lemma farEnough_far_apart self selected worldPt :
  farEnough self selected worldPt = true ->
  Forall (fun other =>
            (m_minDistanceBetweenSampledModes self
             <= ORUtils.length (ORUtils.Vector3f_sub (worldPt_of self other) worldPt))%R)
         selected.
Proof.
  unfold farEnough. intros Hfar. apply Forall_forall. intros other Hin.
  rewrite forallb_forall in Hfar. specialize (Hfar other Hin).
  apply negb_true_iff in Hfar.
  destruct (float_lt_spec
              (ORUtils.length (ORUtils.Vector3f_sub (worldPt_of self other) worldPt))
              (m_minDistanceBetweenSampledModes self)) as [Hlt|Hge];
    [discriminate|lra].
Qed.

Lemma Forall_firstn_keep {A : Type} (P : A -> Prop) n l :
  Forall P l -> Forall P (firstn n l).
Proof.
  revert l. induction n as [|n IH]; intros l Hl; simpl; [constructor|].
  destruct Hl; constructor; [assumption|apply IH; assumption].
Qed.

Lemma ForallOrdPairs_push {A : Type} (R : A -> A -> Prop) l a :
  ForallOrdPairs R l -> Forall (fun x => R x a) l -> ForallOrdPairs R (l ++ [a]).
Proof.
  induction 1 as [|x l Hx Hl IH]; intros Hall; simpl.
  - constructor; constructor.
  - inversion Hall as [|? ? Hxa Hla]; subst. constructor.
    + apply Forall_app. split; [exact Hx|]. constructor; [exact Hxa|constructor].
    + apply IH. exact Hla.
Qed.

Lemma ForallOrdPairs_nth_error {A : Type} (R : A -> A -> Prop) l :
  ForallOrdPairs R l ->
  forall i j x y, (i < j)%nat ->
  nth_error l i = Some x -> nth_error l j = Some y -> R x y.
Proof.
  induction 1 as [|a l Ha Hl IH]; intros i j x y Hij Hi Hj.
  - destruct i; discriminate.
  - destruct j as [|j]; [lia|]. destruct i as [|i]; simpl in Hi, Hj.
    + injection Hi as <-. rewrite Forall_forall in Ha. apply Ha.
      eapply nth_error_In. exact Hj.
    + eapply IH; [|exact Hi|exact Hj]. lia.
Qed.

Lemma selection_spread self selected :
  m_checkMinDistanceBetweenSampledModes self = true ->
  selection self selected ->
  ForallOrdPairs (far_apart self) (tmpInliers_of self selected).
Proof.
  intros Hflag. induction 1 as [|selected p Hsel IH Hacc].
  - constructor.
  - rewrite tmpInliers_of_push. apply ForallOrdPairs_push; [exact IH|].
    destruct Hacc as [_ [_ [_ [Hfar _]]]]. specialize (Hfar Hflag).
    apply farEnough_far_apart in Hfar.
    unfold tmpInliers_of. apply Forall_map.
    eapply Forall_impl; [|exact Hfar].
    intros other Hother. unfold far_apart. cbn beta in Hother.
    destruct other as [[x y] modeIdx]. exact Hother.
Qed.

(** The first selected point passed the colour test. *)
Lemma selection_first_colour self selected p :
  selection self selected -> nth_error selected 0 = Some p ->
  let linearIdx := linearIdx_of self (fst (fst p)) (snd (fst p)) in
  consistentColour
    (RGBDPatchFeature.colour (patchFeaturesData self linearIdx))
    (GPUForestMode.colour
       (GPUForestPrediction.modes (predictionsData self linearIdx) (snd p)))
  = true.
Proof.
  induction 1 as [|selected q Hsel IH Hacc]; intros Hfirst; [discriminate|].
  destruct selected as [|p0 selected].
  - simpl in Hfirst. injection Hfirst as <-.
    destruct Hacc as [_ [_ [Hcolour _]]]. apply Hcolour. reflexivity.
  - apply IH. exact Hfirst.
Qed.

(** If no pixel and mode can pass the checks made on the first point, the
    inner loop selects nothing. *)
Lemma select_pixels_and_modes_nothing self remaining :
  (forall p, ~ acceptable self [] p) ->
  forall eng, fst (select_pixels_and_modes self remaining [] eng) = [].
Proof.
  intros Hnone. induction remaining as [|remaining IH]; intros eng;
    cbn [select_pixels_and_modes].
  - reflexivity.
  - destruct (length (A:=Z * Z * Z) [] =? m_nbPointsForKabschBoostrap self)%nat;
      [reflexivity|].
    destruct (sample_point self [] eng) as [selected' eng'] eqn:Hpoint.
    destruct (sample_point_spec self [] eng) as [Hsame|[p [_ Hacc]]].
    + rewrite Hpoint in Hsame. simpl in Hsame. subst selected'. apply IH.
    + exfalso. exact (Hnone p Hacc).
Qed.

(** ** The outer loop runs its body once *)

Section WithExternals.

Context {externals : Externals}.

(** [hypothesize_pose] is one run of the inner loop: it succeeds exactly when
    that run selects [m_nbPointsForKabschBoostrap] triples, and then [res]
    is the candidate built from them; otherwise [res] is left as it was. *)
Lemma hypothesize_pose_single_attempt self res eng :
  hypothesize_pose self res eng
  = let (selectedPixelsAndModes, eng) :=
      select_pixels_and_modes self (Z.to_nat maxIterationsInner) [] eng in
    if (length selectedPixelsAndModes =? m_nbPointsForKabschBoostrap self)%nat
    then (true, candidate_of self selectedPixelsAndModes, eng)
    else (false, res, eng).
Proof.
  unfold hypothesize_pose.
  change (Z.to_nat maxIterationsOuter) with (S (S 18)).
  cbn [hypothesize_pose_loop negb andb].
  change (0 <? maxIterationsOuter)%Z with true. cbn [andb].
  destruct (select_pixels_and_modes self (Z.to_nat maxIterationsInner) [] eng)
    as [selected eng'].
  destruct (length selected =? m_nbPointsForKabschBoostrap self)%nat;
    cbn [negb returned exit_res exit_eng exit_iterationsOuter andb];
    reflexivity.
Qed.

(** A successful [hypothesize_pose] returns the candidate built from a
    selection of [m_nbPointsForKabschBoostrap] triples: its pose is the
    Kabsch alignment of their camera-space points to their mode positions,
    its inliers are their (pixel index, mode index) pairs, its energy is 0. *)
Lemma hypothesize_pose_true self res eng c eng' :
  hypothesize_pose self res eng = (true, c, eng') ->
  exists selected,
    selection self selected
    /\ length selected = m_nbPointsForKabschBoostrap self
    /\ select_pixels_and_modes self (Z.to_nat maxIterationsInner) [] eng
       = (selected, eng')
    /\ cameraPose c
       = Kabsch (map (localPt_of self) selected) (map (worldPt_of self) selected)
    /\ inliers c = tmpInliers_of self selected
    /\ energy c = 0%R
    /\ cameraId c = (-1)%Z.
Proof.
  rewrite hypothesize_pose_single_attempt.
  pose proof (select_pixels_and_modes_selection self (Z.to_nat maxIterationsInner)
                [] eng (selection_nil self)) as Hsel.
  destruct (select_pixels_and_modes self (Z.to_nat maxIterationsInner) [] eng)
    as [selected eng1].
  simpl in Hsel.
  destruct (length selected =? m_nbPointsForKabschBoostrap self)%nat eqn:Hsize;
    intros Hresult; [|discriminate].
  injection Hresult as <- <-. exists selected.
  apply Nat.eqb_eq in Hsize. repeat split; try assumption; reflexivity.
Qed.

Lemma hypothesize_pose_false self res eng c eng' :
  hypothesize_pose self res eng = (false, c, eng') ->
  c = res
  /\ length (fst (select_pixels_and_modes self (Z.to_nat maxIterationsInner) [] eng))
     <> m_nbPointsForKabschBoostrap self.
Proof.
  rewrite hypothesize_pose_single_attempt.
  destruct (select_pixels_and_modes self (Z.to_nat maxIterationsInner) [] eng)
    as [selected eng1].
  destruct (length selected =? m_nbPointsForKabschBoostrap self)%nat eqn:Hsize;
    intros Hresult; [discriminate|].
  injection Hresult as <- _. split; [reflexivity|].
  apply Nat.eqb_neq in Hsize. exact Hsize.
Qed.

(** ** Inliers come from valid features with modes *)

(** A sampled pixel refers to a valid feature and a prediction with modes. *)
Definition pixel_ok (self : t) (s : Z * Z) : Prop :=
  inlier_source_ok self (linearIdx_of self (fst s) (snd s), (-1)%Z).

Definition candidate_ok (self : t) (c : PoseCandidate) : Prop :=
  Forall (inlier_source_ok self) (inliers c).

Lemma sample_valid_pixel_ok self remaining :
  forall mask sampled eng,
  Forall (pixel_ok self) sampled ->
  Forall (pixel_ok self)
         (snd (fst (sample_valid_pixel self remaining mask sampled eng))).
Proof.
  induction remaining as [|remaining IH]; intros mask sampled eng Hok;
    cbn [sample_valid_pixel].
  - exact Hok.
  - destruct (col_index_generator self eng) as [first eng1].
    destruct (row_index_generator self eng1) as [second eng2].
    destruct (float_ge_spec
                (ORUtils.w (RGBDPatchFeature.position
                   (patchFeaturesData self (linearIdx_of self first second)))) 0)
      as [Hvalid|_]; [|apply IH; exact Hok].
    destruct (0 <? _)%nat eqn:Hmodes; [|apply IH; exact Hok].
    destruct (std.empty mask || _); [|apply IH; exact Hok].
    cbn [fst snd]. apply Forall_app. split; [exact Hok|].
    constructor; [|constructor]. split; cbn [fst snd].
    + unfold valid_feature. lra.
    + unfold has_modes. apply Nat.ltb_lt in Hmodes. lia.
Qed.

Lemma sample_pixels_for_ransac_ok self batchSize :
  forall mask sampled eng,
  Forall (pixel_ok self) sampled ->
  Forall (pixel_ok self)
         (snd (fst (sample_pixels_for_ransac self mask sampled eng batchSize))).
Proof.
  unfold sample_pixels_for_ransac.
  induction batchSize as [|batchSize IH]; intros mask sampled eng Hok;
    cbn [sample_pixels_for_ransac_loop].
  - exact Hok.
  - pose proof (sample_valid_pixel_ok self 50 mask sampled eng Hok) as Hslot.
    destruct (sample_valid_pixel self 50 mask sampled eng)
      as [[[validIndex mask'] sampled'] eng'].
    cbn [fst snd] in Hslot.
    destruct (negb validIndex); [exact Hslot|apply IH; exact Hslot].
Qed.

Lemma update_inliers_for_optimization_ok self sampled poseCandidates :
  Forall (pixel_ok self) sampled ->
  Forall (candidate_ok self) poseCandidates ->
  Forall (candidate_ok self)
         (update_inliers_for_optimization self sampled poseCandidates).
Proof.
  intros Hsampled Hcands. unfold update_inliers_for_optimization.
  apply Forall_map. eapply Forall_impl; [|exact Hcands].
  intros c Hc. unfold candidate_ok. cbn [set_inliers inliers].
  apply Forall_app. split; [exact Hc|].
  apply Forall_map. eapply Forall_impl; [|exact Hsampled].
  intros [x y] Hxy. exact Hxy.
Qed.

Lemma insert_by_energy_perm c sorted :
  Permutation (insert_by_energy c sorted) (c :: sorted).
Proof.
  induction sorted as [|d rest IH]; simpl; [reflexivity|].
  destruct (float_lt (energy d) (energy c)); [|reflexivity].
  rewrite IH. apply perm_swap.
Qed.

Lemma sort_by_energy_perm poseCandidates :
  Permutation (sort_by_energy poseCandidates) poseCandidates.
Proof.
  induction poseCandidates as [|c rest IH]; simpl; [reflexivity|].
  rewrite insert_by_energy_perm. constructor. exact IH.
Qed.

(** Scoring changes nothing but the energies. *)
Lemma compute_energies_rest self poseCandidates scored :
  compute_energies self poseCandidates = Ok scored ->
  Forall2 (fun c c' => exists value,
             compute_pose_energy self (cameraPose c) (inliers c) = Ok value
             /\ c' = set_energy c value)
          poseCandidates scored.
Proof.
  revert scored.
  induction poseCandidates as [|c rest IH]; cbn [compute_energies]; intros scored Hok.
  - injection Hok as <-. constructor.
  - destruct (compute_pose_energy self (cameraPose c) (inliers c)) as [value|] eqn:Hc;
      cbn [bind] in Hok; [|discriminate].
    destruct (compute_energies self rest) as [rest'|]; cbn [bind] in Hok;
      [|discriminate].
    injection Hok as <-. constructor.
    + exists value. split; [exact Hc|reflexivity].
    + apply IH. reflexivity.
Qed.

Lemma compute_energies_ok self poseCandidates scored :
  compute_energies self poseCandidates = Ok scored ->
  Forall (candidate_ok self) poseCandidates ->
  Forall (candidate_ok self) scored.
Proof.
  intros Hscored Hok. apply compute_energies_rest in Hscored.
  induction Hscored as [|c c' rest rest' [value [_ ->]] _ IH]; [constructor|].
  inversion Hok; subst. constructor; [assumption|]. apply IH. assumption.
Qed.

Lemma compute_and_sort_energies_ok self poseCandidates sorted :
  compute_and_sort_energies self poseCandidates = Ok sorted ->
  Forall (candidate_ok self) poseCandidates ->
  Forall (candidate_ok self) sorted.
Proof.
  unfold compute_and_sort_energies. intros Hsorted Hok.
  destruct (compute_energies self poseCandidates) as [scored|] eqn:Hscored;
    cbn [bind] in Hsorted; [|discriminate].
  injection Hsorted as <-.
  eapply Permutation_Forall; [symmetry; apply sort_by_energy_perm|].
  eapply compute_energies_ok; eassumption.
Qed.

Lemma update_candidate_poses_ok self poseCandidates updated :
  update_candidate_poses self poseCandidates = Ok updated ->
  updated = poseCandidates.
Proof.
  destruct poseCandidates; cbn; intros Hok; [|discriminate].
  injection Hok as <-. reflexivity.
Qed.

Lemma cap_inliers_ok self nbSamplesPerCamera c :
  candidate_ok self c -> candidate_ok self (cap_inliers nbSamplesPerCamera c).
Proof.
  intros Hc. unfold cap_inliers. destruct (_ <? _)%nat; [|exact Hc].
  unfold candidate_ok. cbn [set_inliers inliers]. apply Forall_firstn_keep. exact Hc.
Qed.

Lemma ransac_iteration_ok self mask eng candidates mask' eng' candidates' :
  ransac_iteration self mask eng candidates = Ok (mask', eng', candidates') ->
  Forall (candidate_ok self) candidates ->
  Forall (candidate_ok self) candidates'.
Proof.
  unfold ransac_iteration. intros Hiter Hok.
  pose proof (sample_pixels_for_ransac_ok self (m_batchSizeRansac self) mask [] eng
                (Forall_nil _)) as Hsampled.
  destruct (sample_pixels_for_ransac self mask [] eng (m_batchSizeRansac self))
    as [[mask1 sampled] eng1].
  cbn [fst snd] in Hsampled.
  pose proof (update_inliers_for_optimization_ok self sampled candidates Hsampled Hok)
    as Hupdated.
  set (updated := update_inliers_for_optimization self sampled candidates) in *.
  assert (Hrefined : forall refined,
             (if m_poseUpdate self then update_candidate_poses self updated
              else Ok updated) = Ok refined -> refined = updated).
  { intros refined Href. destruct (m_poseUpdate self).
    - eapply update_candidate_poses_ok. exact Href.
    - injection Href as <-. reflexivity. }
  destruct (if m_poseUpdate self then update_candidate_poses self updated
            else Ok updated) as [refined|]; cbn [bind] in Hiter; [|discriminate].
  rewrite (Hrefined refined eq_refl) in Hiter.
  destruct (compute_and_sort_energies self updated) as [sorted|] eqn:Hsorted;
    cbn [bind] in Hiter; [|discriminate].
  injection Hiter as _ _ <-. apply Forall_firstn_keep.
  eapply compute_and_sort_energies_ok; eassumption.
Qed.

Lemma first_trim_ok self eng candidates eng' candidates' :
  first_trim self eng candidates = Ok (eng', candidates') ->
  Forall (candidate_ok self) candidates ->
  Forall (candidate_ok self) candidates'.
Proof.
  unfold first_trim. intros Htrim Hok.
  destruct (_ <? length candidates)%nat.
  - pose proof (sample_pixels_for_ransac_ok self (m_batchSizeRansac self) [] [] eng
                  (Forall_nil _)) as Hsampled.
    destruct (sample_pixels_for_ransac self [] [] eng (m_batchSizeRansac self))
      as [[mask1 sampled] eng1].
    cbn [fst snd] in Hsampled.
    destruct (compute_and_sort_energies self
                (update_inliers_for_optimization self sampled candidates))
      as [sorted|] eqn:Hsorted; cbn [bind] in Htrim; [|discriminate].
    injection Htrim as _ <-.
    assert (Hkept : Forall (candidate_ok self)
                      (firstn (m_trimKinitAfterFirstEnergyComputation self) sorted)).
    { apply Forall_firstn_keep. eapply compute_and_sort_energies_ok; [exact Hsorted|].
      apply update_inliers_for_optimization_ok; assumption. }
    destruct (1 <? _)%nat; [|exact Hkept].
    apply Forall_map. eapply Forall_impl; [|exact Hkept].
    intros c Hc. apply cap_inliers_ok. exact Hc.
  - injection Htrim as _ <-. exact Hok.
Qed.

Lemma ransac_loop_ok self mask eng candidates final :
  ransac_loop self mask eng candidates = Ok final ->
  Forall (candidate_ok self) candidates ->
  Forall (candidate_ok self) final.
Proof.
  funelim (ransac_loop self mask eng candidates); intros Hloop Hok.
  - injection Hloop as <-. exact Hok.
  - eapply H; [exact Hloop|].
    eapply ransac_iteration_ok; eassumption.
  - discriminate Hloop.
Qed.

Lemma generate_pose_candidates_loop_ok self omp_get_thread_num remaining :
  forall i engs poseCandidates,
  Forall (candidate_ok self) poseCandidates ->
  Forall (candidate_ok self)
         (generate_pose_candidates_loop self omp_get_thread_num remaining i engs
            poseCandidates).
Proof.
  induction remaining as [|remaining IH]; intros i engs poseCandidates Hok;
    cbn [generate_pose_candidates_loop].
  - exact Hok.
  - destruct (hypothesize_pose self PoseCandidate_default
                (nth (omp_get_thread_num i) engs (mt19937_seed 1)))
      as [[found candidate] eng'] eqn:Hhyp.
    apply IH. destruct found; cbn [andb]; [|exact Hok].
    destruct (negb (std.empty (inliers candidate))); [|exact Hok].
    apply Forall_app. split; [exact Hok|]. constructor; [|constructor].
    destruct (hypothesize_pose_true _ _ _ _ _ Hhyp)
      as [selected [Hsel [_ [_ [_ [Hinliers _]]]]]].
    unfold candidate_ok. cbn [set_cameraId inliers]. rewrite Hinliers.
    apply selection_sources_ok. exact Hsel.
Qed.

Lemma estimate_pose_from_ok self candidates c :
  estimate_pose_from self candidates = Ok (Some c) ->
  Forall (candidate_ok self) candidates ->
  candidate_ok self c.
Proof.
  unfold estimate_pose_from. intros Hest Hok.
  destruct (first_trim self default_engine candidates) as [[eng1 trimmed]|] eqn:Htrim;
    cbn [bind] in Hest; [|discriminate].
  destruct (ransac_loop self _ eng1 trimmed) as [final|] eqn:Hloop;
    cbn [bind] in Hest; [|discriminate].
  assert (Hfinal : Forall (candidate_ok self) final).
  { eapply ransac_loop_ok; [exact Hloop|]. eapply first_trim_ok; eassumption. }
  destruct final as [|c0 final]; cbn in Hest; [discriminate|].
  injection Hest as <-. inversion Hfinal; assumption.
Qed.

(** ** The energy of a pose *)

(** What the best-mode query answers for an inlier under a pose. *)
Definition matched (self : t) (candidateCameraPose : ORUtils.Matrix4f)
    (inlier : Z * Z) : Z * float :=
  get_best_mode_and_energy (predictionsData self (fst inlier))
    (Matrix4f_mul candidateCameraPose
       (ORUtils.toVector3
          (RGBDPatchFeature.position (patchFeaturesData self (fst inlier))))).

Definition matched_mode (self : t) (candidateCameraPose : ORUtils.Matrix4f)
    (inlier : Z * Z) : GPUForestMode.t :=
  GPUForestPrediction.modes (predictionsData self (fst inlier))
    (fst (matched self candidateCameraPose inlier)).

(** The two conditions under which [compute_pose_energy] throws. *)
Definition violates_invariant (self : t) (candidateCameraPose : ORUtils.Matrix4f)
    (inlier : Z * Z) : Prop :=
  (fst (matched self candidateCameraPose inlier) < 0)%Z
  \/ GPUForestMode.nbInliers (matched_mode self candidateCameraPose inlier) = O.

(** The normalised, floored energy of the mode matched to an inlier. *)
Definition inlier_energy (self : t) (candidateCameraPose : ORUtils.Matrix4f)
    (inlier : Z * Z) : float :=
  normalised_energy (snd (matched self candidateCameraPose inlier))
    (GPUForestPrediction.nbModes (predictionsData self (fst inlier)))
    (GPUForestMode.nbInliers (matched_mode self candidateCameraPose inlier)).

(** What an inlier adds to [totalEnergy]. *)
Definition contribution (self : t) (candidateCameraPose : ORUtils.Matrix4f)
    (inlier : Z * Z) : float :=
  (- log10f (inlier_energy self candidateCameraPose inlier))%R.

Definition sum (values : list float) : float := fold_right Rplus 0%R values.

Lemma compute_pose_energy_loop_step self pose inlier rest totalEnergy :
  compute_pose_energy_loop self pose (inlier :: rest) totalEnergy
  = if (fst (matched self pose inlier) <? 0)%Z
    then Throw "prediction has no valid modes"%string
    else if (GPUForestMode.nbInliers (matched_mode self pose inlier) =? 0)%nat
    then Throw "mode has no inliers"%string
    else compute_pose_energy_loop self pose rest
           (totalEnergy + contribution self pose inlier)%R.
Proof.
  destruct inlier as [linearIdx modeIdx]. cbn [compute_pose_energy_loop].
  unfold contribution, inlier_energy, matched_mode, matched. cbn [fst snd].
  destruct (get_best_mode_and_energy _ _) as [argmax energy]. reflexivity.
Qed.

Lemma compute_pose_energy_loop_throws self pose inliersIndices :
  forall totalEnergy,
  throws (compute_pose_energy_loop self pose inliersIndices totalEnergy)
  <-> Exists (violates_invariant self pose) inliersIndices.
Proof.
  induction inliersIndices as [|inlier rest IH]; intros totalEnergy.
  - cbn. split.
    + intros [what Hthrow]. discriminate.
    + intros Hex. inversion Hex.
  - rewrite compute_pose_energy_loop_step.
    destruct (fst (matched self pose inlier) <? 0)%Z eqn:Hneg.
    { apply Z.ltb_lt in Hneg. split.
      - intros _. left. left. exact Hneg.
      - intros _. eexists. reflexivity. }
    apply Z.ltb_ge in Hneg.
    destruct (GPUForestMode.nbInliers (matched_mode self pose inlier) =? 0)%nat
      eqn:Hzero.
    { apply Nat.eqb_eq in Hzero. split.
      - intros _. left. right. exact Hzero.
      - intros _. eexists. reflexivity. }
    apply Nat.eqb_neq in Hzero. rewrite IH. split.
    + intros Hex. right. exact Hex.
    + intros Hex. inversion Hex as [? ? [Hbad|Hbad]|]; subst;
        [lia|contradiction|assumption].
Qed.

Lemma compute_pose_energy_loop_value self pose inliersIndices :
  forall totalEnergy value,
  compute_pose_energy_loop self pose inliersIndices totalEnergy = Ok value ->
  value = (totalEnergy + sum (map (contribution self pose) inliersIndices))%R.
Proof.
  induction inliersIndices as [|inlier rest IH]; intros totalEnergy value.
  - cbn. intros Hok. injection Hok as <-. lra.
  - rewrite compute_pose_energy_loop_step.
    destruct (_ <? 0)%Z; [discriminate|].
    destruct (_ =? 0)%nat; [discriminate|].
    intros Hok. rewrite (IH _ _ Hok). cbn [map sum fold_right]. unfold sum. lra.
Qed.

Lemma compute_pose_energy_throws self pose inliersIndices :
  throws (compute_pose_energy self pose inliersIndices)
  <-> Exists (violates_invariant self pose) inliersIndices.
Proof.
  rewrite <- (compute_pose_energy_loop_throws self pose inliersIndices 0%R).
  unfold compute_pose_energy.
  destruct (compute_pose_energy_loop self pose inliersIndices 0) as [total|what];
    cbn [bind]; split; intros [w Hw]; try discriminate; eexists; reflexivity.
Qed.

Lemma compute_pose_energy_value self pose inliersIndices value :
  compute_pose_energy self pose inliersIndices = Ok value ->
  value = (sum (map (contribution self pose) inliersIndices)
           / INR (length inliersIndices))%R.
Proof.
  unfold compute_pose_energy.
  destruct (compute_pose_energy_loop self pose inliersIndices 0) as [total|what]
    eqn:Hloop; cbn [bind]; intros Hok; [|discriminate].
  injection Hok as <-.
  rewrite (compute_pose_energy_loop_value _ _ _ _ _ Hloop). f_equal. lra.
Qed.

Lemma compute_pose_energy_returns self pose inliersIndices :
  ~ Exists (violates_invariant self pose) inliersIndices ->
  compute_pose_energy self pose inliersIndices
  = Ok (sum (map (contribution self pose) inliersIndices)
        / INR (length inliersIndices))%R.
Proof.
  intros Hnone.
  destruct (compute_pose_energy self pose inliersIndices) as [value|what] eqn:Hc.
  - rewrite (compute_pose_energy_value _ _ _ _ Hc). reflexivity.
  - exfalso. apply Hnone. apply compute_pose_energy_throws. eexists. exact Hc.
Qed.

(** The floor keeps the normalised energy at or above [1e-6]. *)
Lemma normalised_energy_floor energy nbModes nbInliers :
  (1e-6 <= normalised_energy energy nbModes nbInliers)%R.
Proof.
  unfold normalised_energy.
  destruct (float_lt_spec (energy / INR nbModes / INR nbInliers) 1e-6); lra.
Qed.

Lemma normalised_energy_at_floor energy nbModes nbInliers :
  (energy / INR nbModes / INR nbInliers <= 1e-6)%R ->
  normalised_energy energy nbModes nbInliers = 1e-6%R.
Proof.
  intros Hlow. unfold normalised_energy.
  destruct (float_lt_spec (energy / INR nbModes / INR nbInliers) 1e-6); lra.
Qed.

Lemma normalised_energy_above_floor energy nbModes nbInliers :
  (1e-6 <= energy / INR nbModes / INR nbInliers)%R ->
  normalised_energy energy nbModes nbInliers
  = (energy / INR nbModes / INR nbInliers)%R.
Proof.
  intros Hhigh. unfold normalised_energy.
  destruct (float_lt_spec (energy / INR nbModes / INR nbInliers) 1e-6); lra.
Qed.

Lemma contribution_le_6 self pose inlier :
  (contribution self pose inlier <= 6)%R.
Proof.
  unfold contribution, inlier_energy.
  pose proof (normalised_energy_floor (snd (matched self pose inlier))
                (GPUForestPrediction.nbModes (predictionsData self (fst inlier)))
                (GPUForestMode.nbInliers (matched_mode self pose inlier))) as Hfloor.
  pose proof (log10f_le 1e-6 _ ltac:(lra) Hfloor) as Hlog.
  rewrite log10f_floor in Hlog. lra.
Qed.

Lemma contribution_nonneg self pose inlier :
  (inlier_energy self pose inlier <= 1)%R ->
  (0 <= contribution self pose inlier)%R.
Proof.
  intros Hle. unfold contribution.
  assert (Hpos : (0 < inlier_energy self pose inlier)%R).
  { unfold inlier_energy.
    pose proof (normalised_energy_floor (snd (matched self pose inlier))
                  (GPUForestPrediction.nbModes (predictionsData self (fst inlier)))
                  (GPUForestMode.nbInliers (matched_mode self pose inlier))).
    lra. }
  pose proof (log10f_le _ _ Hpos Hle) as Hlog. rewrite log10f_1 in Hlog. lra.
Qed.

Lemma sum_le_6 self pose inliersIndices :
  (sum (map (contribution self pose) inliersIndices)
   <= 6 * INR (length inliersIndices))%R.
Proof.
  induction inliersIndices as [|inlier rest IH].
  - cbn. lra.
  - cbn [map sum fold_right]. fold (sum (map (contribution self pose) rest)).
    rewrite length_cons, S_INR.
    pose proof (contribution_le_6 self pose inlier). lra.
Qed.

Lemma sum_nonneg self pose inliersIndices :
  Forall (fun inlier => (inlier_energy self pose inlier <= 1)%R) inliersIndices ->
  (0 <= sum (map (contribution self pose) inliersIndices))%R.
Proof.
  induction 1 as [|inlier rest Hle _ IH].
  - cbn. lra.
  - cbn [map sum fold_right]. fold (sum (map (contribution self pose) rest)).
    pose proof (contribution_nonneg self pose inlier Hle). lra.
Qed.

Lemma INR_length_pos {A : Type} (l : list A) : l <> [] -> (0 < INR (length l))%R.
Proof.
  destruct l; [intros Hne; contradiction|]. intros _.
  rewrite length_cons. apply lt_0_INR. lia.
Qed.

(** ** Sorting by energy *)

Definition energy_le (a b : PoseCandidate) : Prop := (energy a <= energy b)%R.

Lemma insert_by_energy_sorted c sorted :
  StronglySorted energy_le sorted ->
  StronglySorted energy_le (insert_by_energy c sorted).
Proof.
  induction 1 as [|d rest Hrest IH Hd]; cbn [insert_by_energy].
  - constructor; constructor.
  - destruct (float_lt_spec (energy d) (energy c)) as [Hlt|Hge].
    + constructor; [exact IH|].
      eapply Permutation_Forall; [symmetry; apply insert_by_energy_perm|].
      constructor; [unfold energy_le; lra|exact Hd].
    + constructor; [constructor; assumption|].
      constructor; [unfold energy_le; lra|].
      eapply Forall_impl; [|exact Hd].
      intros e He. unfold energy_le in *. lra.
Qed.

Lemma sort_by_energy_sorted poseCandidates :
  StronglySorted energy_le (sort_by_energy poseCandidates).
Proof.
  induction poseCandidates as [|c rest IH]; cbn; [constructor|].
  apply insert_by_energy_sorted. exact IH.
Qed.

(** In a sorted list every element of a prefix is at most every element
    after the prefix. *)
Lemma sorted_prefix_lowest {A : Type} (R : A -> A -> Prop) l :
  StronglySorted R l ->
  forall k a b, In a (firstn k l) -> In b (skipn k l) -> R a b.
Proof.
  induction 1 as [|x l Hl IH Hx]; intros k a b Ha Hb.
  - destruct k; destruct Ha.
  - destruct k as [|k]; [destruct Ha|]. cbn in Ha, Hb. destruct Ha as [<-|Ha].
    + rewrite Forall_forall in Hx. apply Hx.
      rewrite <- (firstn_skipn k l). apply in_or_app. right. exact Hb.
    + eapply IH; eassumption.
Qed.

(** ** Where errors come from and where they go *)

Lemma compute_energies_throws self poseCandidates :
  throws (compute_energies self poseCandidates)
  <-> Exists (fun c => throws (compute_pose_energy self (cameraPose c) (inliers c)))
             poseCandidates.
Proof.
  induction poseCandidates as [|c rest IH]; cbn [compute_energies].
  - split; [intros [what Hw]; discriminate|intros Hex; inversion Hex].
  - destruct (compute_pose_energy self (cameraPose c) (inliers c)) as [value|what]
      eqn:Hc; cbn [bind].
    + destruct (compute_energies self rest) as [rest'|what'] eqn:Hrest; cbn [bind].
      * split; [intros [w Hw]; discriminate|].
        intros Hex. inversion Hex as [? ? [w Hw]|? ? Hlater]; subst.
        -- congruence.
        -- apply IH in Hlater. destruct Hlater as [w Hw]. discriminate.
      * split; [|intros _; eexists; reflexivity].
        intros _. right. apply IH. eexists. reflexivity.
    + split; [|intros _; eexists; reflexivity].
      intros _. left. rewrite Hc. eexists. reflexivity.
Qed.

Lemma compute_and_sort_energies_throws self poseCandidates :
  throws (compute_and_sort_energies self poseCandidates)
  <-> Exists (fun c => throws (compute_pose_energy self (cameraPose c) (inliers c)))
             poseCandidates.
Proof.
  rewrite <- compute_energies_throws. unfold compute_and_sort_energies.
  destruct (compute_energies self poseCandidates) as [scored|what]; cbn [bind];
    split; intros [w Hw]; try discriminate; eexists; reflexivity.
Qed.



Lemma ransac_loop_single self mask eng candidates :
  (length candidates <= 1)%nat ->
  ransac_loop self mask eng candidates = Ok candidates.
Proof.
  intros Hfew. funelim (ransac_loop self mask eng candidates).
  - reflexivity.
  - pose proof (proj1 (Nat.ltb_lt _ _) Hwhile). lia.
  - pose proof (proj1 (Nat.ltb_lt _ _) Hwhile). lia.
Qed.

Lemma ransac_loop_step self mask eng candidates mask' eng' candidates' :
  (1 < length candidates)%nat ->
  ransac_iteration self mask eng candidates = Ok (mask', eng', candidates') ->
  ransac_loop self mask eng candidates = ransac_loop self mask' eng' candidates'.
Proof.
  intros Hmany Hiter. funelim (ransac_loop self mask eng candidates).
  - pose proof (proj1 (Nat.ltb_ge _ _) e). lia.
  - pose proof Hbody as Hcopy. rewrite Hiter in Hcopy.
    injection Hcopy as <- <- <-. reflexivity.
  - pose proof e as Hcopy. rewrite Hiter in Hcopy. discriminate Hcopy.
Qed.

(** The loop ends with at most one candidate, and with exactly one when it
    started with any. *)
Lemma ransac_loop_final self mask eng candidates final :
  ransac_loop self mask eng candidates = Ok final ->
  (length final <= 1)%nat /\ (candidates <> [] -> length final = 1%nat).
Proof.
  funelim (ransac_loop self mask eng candidates); intros Hloop.
  - injection Hloop as <-. pose proof (proj1 (Nat.ltb_ge _ _) e) as Hfew.
    split; [exact Hfew|].
    destruct candidates; [intros Hne; contradiction|]. cbn in Hfew |- *. lia.
  - destruct (H _ Hloop) as [Hle Hone]. split; [exact Hle|].
    intros _. apply Hone.
    pose proof (ransac_iteration_length _ _ _ _ _ _ _ Hbody) as Hlen.
    pose proof (proj1 (Nat.ltb_lt _ _) Hwhile) as Hmany.
    intros Hnil. rewrite Hnil in Hlen. cbn [length] in Hlen.
    assert (Hhalf : (1 <= length candidates / 2)%nat).
    { apply Nat.div_le_lower_bound; lia. }
    lia.
  - discriminate Hloop.
Qed.

Lemma first_trim_nonempty self eng candidates eng' candidates' :
  first_trim self eng candidates = Ok (eng', candidates') ->
  (0 < m_trimKinitAfterFirstEnergyComputation self)%nat ->
  candidates <> [] -> candidates' <> [].
Proof.
  unfold first_trim. intros Htrim Hpos Hne.
  destruct (_ <? length candidates)%nat eqn:Hmany.
  - apply Nat.ltb_lt in Hmany.
    destruct (sample_pixels_for_ransac self [] [] eng (m_batchSizeRansac self))
      as [[mask1 sampled] eng1].
    destruct (compute_and_sort_energies self
                (update_inliers_for_optimization self sampled candidates))
      as [sorted|] eqn:Hsorted; cbn [bind] in Htrim; [|discriminate].
    injection Htrim as _ <-.
    apply compute_and_sort_energies_length in Hsorted.
    rewrite update_inliers_for_optimization_length in Hsorted.
    assert (Hkept : length (firstn (m_trimKinitAfterFirstEnergyComputation self) sorted)
                    = m_trimKinitAfterFirstEnergyComputation self).
    { apply firstn_length_le. lia. }
    intros Hempty.
    assert (Hzero : length (firstn (m_trimKinitAfterFirstEnergyComputation self) sorted)
                    = O).
    { destruct (1 <? _)%nat.
      - rewrite <- (length_map (cap_inliers
                       (length (inliers (nth 0 candidates PoseCandidate_default))))).
        rewrite Hempty. reflexivity.
      - rewrite Hempty. reflexivity. }
    lia.
  - injection Htrim as _ <-. exact Hne.
Qed.

(** [estimate_pose] returns a candidate exactly when it does not throw and
    there was an initial candidate. *)
Lemma estimate_pose_from_result self candidates r :
  (0 < m_trimKinitAfterFirstEnergyComputation self)%nat ->
  estimate_pose_from self candidates = Ok r ->
  (candidates <> [] <-> exists c, r = Some c).
Proof.
  unfold estimate_pose_from. intros Hpos Hest.
  destruct (first_trim self default_engine candidates) as [[eng1 trimmed]|] eqn:Htrim;
    cbn [bind] in Hest; [|discriminate].
  destruct (ransac_loop self _ eng1 trimmed) as [final|] eqn:Hloop;
    cbn [bind] in Hest; [|discriminate].
  injection Hest as <-.
  destruct (ransac_loop_final _ _ _ _ _ Hloop) as [_ Hone].
  split.
  - intros Hne.
    pose proof (Hone (first_trim_nonempty _ _ _ _ _ Htrim Hpos Hne)) as Hlen.
    destruct final as [|c final]; [discriminate Hlen|]. cbn. eauto.
  - intros [c Hsome] ->.
    unfold first_trim in Htrim. cbn in Htrim. injection Htrim as _ <-.
    rewrite ransac_loop_single in Hloop by (cbn; lia).
    injection Hloop as <-. cbn in Hsome. discriminate.
Qed.

(** ** When no error is raised *)

(** The best-mode query finds a supported mode for every pixel that passes
    the guards of the samplers. *)
Definition backend_finds_modes (self : t) : Prop :=
  forall pose inlier,
  inlier_source_ok self inlier -> ~ violates_invariant self pose inlier.

Lemma compute_pose_energy_ok self pose inliersIndices :
  backend_finds_modes self ->
  Forall (inlier_source_ok self) inliersIndices ->
  exists value, compute_pose_energy self pose inliersIndices = Ok value.
Proof.
  intros Hbackend Hok. eexists. apply compute_pose_energy_returns.
  intros Hex. apply Exists_exists in Hex. destruct Hex as [inlier [Hin Hbad]].
  rewrite Forall_forall in Hok. exact (Hbackend pose inlier (Hok inlier Hin) Hbad).
Qed.

Lemma compute_and_sort_energies_returns self poseCandidates :
  backend_finds_modes self ->
  Forall (candidate_ok self) poseCandidates ->
  exists sorted, compute_and_sort_energies self poseCandidates = Ok sorted.
Proof.
  intros Hbackend Hok.
  destruct (compute_and_sort_energies self poseCandidates) as [sorted|what] eqn:Hc;
    [eexists; reflexivity|].
  exfalso.
  assert (Hthrows : throws (compute_and_sort_energies self poseCandidates))
    by (eexists; exact Hc).
  apply compute_and_sort_energies_throws in Hthrows.
  apply Exists_exists in Hthrows. destruct Hthrows as [c [Hin [w Hw]]].
  rewrite Forall_forall in Hok.
  destruct (compute_pose_energy_ok self (cameraPose c) (inliers c) Hbackend (Hok c Hin))
    as [value Hvalue].
  congruence.
Qed.

Lemma ransac_iteration_returns self mask eng candidates :
  m_poseUpdate self = false ->
  backend_finds_modes self ->
  Forall (candidate_ok self) candidates ->
  exists next, ransac_iteration self mask eng candidates = Ok next.
Proof.
  intros Hupdate Hbackend Hok. unfold ransac_iteration.
  pose proof (sample_pixels_for_ransac_ok self (m_batchSizeRansac self) mask [] eng
                (Forall_nil _)) as Hsampled.
  destruct (sample_pixels_for_ransac self mask [] eng (m_batchSizeRansac self))
    as [[mask1 sampled] eng1].
  cbn [fst snd] in Hsampled. rewrite Hupdate. cbn [bind].
  destruct (compute_and_sort_energies_returns self
              (update_inliers_for_optimization self sampled candidates) Hbackend
              (update_inliers_for_optimization_ok _ _ _ Hsampled Hok))
    as [sorted Hsorted].
  rewrite Hsorted. cbn [bind]. eexists. reflexivity.
Qed.

Lemma ransac_loop_returns self mask eng candidates :
  m_poseUpdate self = false ->
  backend_finds_modes self ->
  Forall (candidate_ok self) candidates ->
  exists final, ransac_loop self mask eng candidates = Ok final.
Proof.
  funelim (ransac_loop self mask eng candidates); intros Hupdate Hbackend Hok.
  - eexists. reflexivity.
  - apply H; [assumption|assumption|]. eapply ransac_iteration_ok; eassumption.
  - destruct (ransac_iteration_returns self maskSampledPixels random_engine candidates
                Hupdate Hbackend Hok) as [next Hnext].
    congruence.
Qed.

Lemma first_trim_returns self eng candidates :
  backend_finds_modes self ->
  Forall (candidate_ok self) candidates ->
  exists trimmed, first_trim self eng candidates = Ok trimmed.
Proof.
  intros Hbackend Hok. unfold first_trim.
  destruct (_ <? length candidates)%nat; [|eexists; reflexivity].
  pose proof (sample_pixels_for_ransac_ok self (m_batchSizeRansac self) [] [] eng
                (Forall_nil _)) as Hsampled.
  destruct (sample_pixels_for_ransac self [] [] eng (m_batchSizeRansac self))
    as [[mask1 sampled] eng1].
  cbn [fst snd] in Hsampled.
  destruct (compute_and_sort_energies_returns self
              (update_inliers_for_optimization self sampled candidates) Hbackend
              (update_inliers_for_optimization_ok _ _ _ Hsampled Hok))
    as [sorted Hsorted].
  rewrite Hsorted. cbn [bind]. eexists. reflexivity.
Qed.

Lemma estimate_pose_from_returns self candidates :
  m_poseUpdate self = false ->
  backend_finds_modes self ->
  Forall (candidate_ok self) candidates ->
  exists r, estimate_pose_from self candidates = Ok r.
Proof.
  intros Hupdate Hbackend Hok. unfold estimate_pose_from.
  destruct (first_trim_returns self default_engine candidates Hbackend Hok)
    as [[eng1 trimmed] Htrim].
  rewrite Htrim. cbn [bind].
  destruct (ransac_loop_returns self
              (repeat false (ORUtils.dataSize (m_featureImage self))) eng1 trimmed
              Hupdate Hbackend (first_trim_ok _ _ _ _ _ Htrim Hok))
    as [final Hfinal].
  rewrite Hfinal. cbn [bind]. eexists. reflexivity.
Qed.

End WithExternals.

(** ** A frame of four pixels in a row

    Pixel [i] sees the camera-space point [(i, 0, 0)] in the colour
    [observed]; pixel 0 has no depth.  The forest predicts one mode per pixel, at the world position
    [(i, 0, 0)], of colour [modeColour] and with [support] supporting
    samples. *)

Definition grey : ORUtils.Vector3u := ORUtils.mkVector3 100%Z 100%Z 100%Z.

Definition example_feature (observed : ORUtils.Vector3u) (i : Z)
    : RGBDPatchFeature.t :=
  {| RGBDPatchFeature.position :=
       ORUtils.mkVector4 (ORUtils.mkVector3 (IZR i) 0%R 0%R)
                         (if (i =? 0)%Z then (-1)%R else 1%R);
     RGBDPatchFeature.colour := observed |}.

Definition example_mode (modeColour : ORUtils.Vector3u) (support : nat) (i : Z)
    : GPUForestMode.t :=
  {| GPUForestMode.position := ORUtils.mkVector3 (IZR i) 0%R 0%R;
     GPUForestMode.colour := modeColour;
     GPUForestMode.nbInliers := support |}.

Definition example_prediction (modeColour : ORUtils.Vector3u) (support : nat) (i : Z)
    : GPUForestPrediction.t :=
  {| GPUForestPrediction.nbModes := 1;
     GPUForestPrediction.modes_array := [example_mode modeColour support i] |}.

Definition example_frame (observed modeColour : ORUtils.Vector3u) (support : nat)
    : t :=
  configured
    {| ORUtils.noDims := {| ORUtils.width := 4; ORUtils.height := 1 |};
       ORUtils.dataSize := 4;
       ORUtils.GetData := example_feature observed |}
    {| ORUtils.noDims := {| ORUtils.width := 4; ORUtils.height := 1 |};
       ORUtils.dataSize := 4;
       ORUtils.GetData := example_prediction modeColour support |}.

(** The engine that replays [draws] over and over, [position] raw numbers
    into the sequence. *)
Definition replayed (draws : list Z) (position : nat) : std.mt19937 :=
  {| std.raw := fun n => nth (n mod length draws) draws 0%Z;
     std.consumed := position |}.

(** Column, row and mode draws that select the pixels 1, 2 and 3. *)
Definition three_pixels : list Z := [1; 0; 0; 2; 0; 0; 3; 0; 0]%Z.

(** The first mode with supporting samples, if any, scored [peak] per
    supporting sample. *)
Fixpoint first_supported (peak : float) (modes : list GPUForestMode.t) (i : Z)
    : Z * float :=
  match modes with
  | [] => ((-1)%Z, 0%R)
  | mode :: rest =>
      if (GPUForestMode.nbInliers mode =? 0)%nat
      then first_supported peak rest (i + 1)%Z
      else (i, (peak * INR (GPUForestMode.nbInliers mode))%R)
  end.

(** External functions for the examples: the identity pose, the query
    [first_supported], and seeds that all replay [three_pixels]. *)
Definition example_externals (peak : float) : Externals :=
  {| Kabsch := fun _ _ =>
       {| ORUtils.m := [1; 0; 0; 0; 0; 1; 0; 0; 0; 0; 1; 0; 0; 0; 0; 1]%R |};
     Matrix4f_mul := fun _ point => point;
     get_best_mode_and_energy := fun prediction _ =>
       first_supported peak (GPUForestPrediction.modes_array prediction) 0;
     mt19937_seed := fun _ => replayed three_pixels 0 |}.

Definition example_selection : list (Z * Z * Z) :=
  [(1, 0, 0); (2, 0, 0); (3, 0, 0)]%Z.

Definition example_inliers : list (Z * Z) := [(1, 0); (2, 0); (3, 0)]%Z.

(** The OpenMP static schedule of 1024 iterations over 12 threads. *)
Definition static_schedule (i : Z) : nat := Z.to_nat (i / 86).

Lemma length_along_x a b :
  ORUtils.length
    (ORUtils.Vector3f_sub (ORUtils.mkVector3 a 0%R 0%R) (ORUtils.mkVector3 b 0%R 0%R))
  = Rabs (a - b).
Proof.
  unfold ORUtils.length, ORUtils.Vector3f_sub. cbn.
  replace ((a - b) * (a - b) + (0 - 0) * (0 - 0) + (0 - 0) * (0 - 0))%R
    with (Rsqr (a - b)) by (unfold Rsqr; ring).
  apply sqrt_Rsqr_abs.
Qed.

Lemma pixels_apart (xo x : Z) : xo <> x -> (1 <= Rabs (IZR xo - IZR x))%R.
Proof.
  intros Hne. rewrite <- minus_IZR, <- abs_IZR. apply IZR_le. lia.
Qed.

Lemma example_farEnough observed modeColour support selected x :
  Forall (fun other => exists xo, other = (xo, 0, 0)%Z /\ xo <> x) selected ->
  farEnough (example_frame observed modeColour support) selected
    (ORUtils.mkVector3 (IZR x) 0%R 0%R) = true.
Proof.
  intros Hothers. unfold farEnough. apply forallb_forall. intros other Hin.
  rewrite Forall_forall in Hothers. destruct (Hothers other Hin) as [xo [-> Hne]].
  apply negb_true_iff. apply float_lt_false.
  change (worldPt_of (example_frame observed modeColour support) (xo, 0, 0)%Z)
    with (ORUtils.mkVector3 (IZR (0 * 4 + xo)) 0%R 0%R).
  change (0 * 4 + xo)%Z with xo.
  rewrite length_along_x.
  change (m_minDistanceBetweenSampledModes (example_frame observed modeColour support))
    with 0.3%R.
  pose proof (pixels_apart xo x Hne). lra.
Qed.

(** The engine [eng] after [n] more raw numbers. *)
Definition advanced (eng : std.mt19937) (n : nat) : std.mt19937 :=
  {| std.raw := std.raw eng; std.consumed := n + std.consumed eng |}.

Lemma example_sample_point observed modeColour support selected eng x :
  (std.raw eng (std.consumed eng) mod 4 = x)%Z -> x <> 0%Z ->
  (selected = [] -> consistentColour observed modeColour = true) ->
  Forall (fun other => exists xo, other = (xo, 0, 0)%Z /\ xo <> x) selected ->
  sample_point (example_frame observed modeColour support) selected eng
  = (selected ++ [(x, 0, 0)%Z], advanced eng 3).
Proof.
  intros Hx Hnonzero Hcolour Hothers.
  unfold sample_point, col_index_generator, row_index_generator,
    std.uniform_int_distribution.
  cbn [example_frame configured m_featureImage m_predictionsImage ORUtils.noDims
       ORUtils.width ORUtils.height std.raw std.consumed
       m_useAllModesPerLeafInPoseHypothesisGeneration
       m_checkMinDistanceBetweenSampledModes m_checkRigidTransformationConstraint].
  change (4 - 1 - 0 + 1)%Z with 4%Z. change (1 - 1 - 0 + 1)%Z with 1%Z.
  rewrite Z.mod_1_r.
  rewrite Hx. rewrite !Z.add_0_l.
  unfold linearIdx_of, patchFeaturesData, predictionsData.
  cbn [example_frame configured m_featureImage m_predictionsImage ORUtils.noDims
       ORUtils.width ORUtils.GetData].
  change (0 * 4 + x)%Z with x.
  unfold example_feature at 1.
  cbn [RGBDPatchFeature.position ORUtils.w].
  rewrite (proj2 (Z.eqb_neq x 0) Hnonzero).
  rewrite float_lt_false by lra.
  cbn [example_prediction GPUForestPrediction.nbModes Nat.eqb Z.of_nat].
  rewrite Z.mod_1_r.
  change (GPUForestPrediction.modes (example_prediction modeColour support x) 0)
    with (example_mode modeColour support x).
  cbn [example_mode GPUForestMode.colour GPUForestMode.position
       example_feature RGBDPatchFeature.colour andb].
  assert (Hfirst : std.empty selected && negb (consistentColour observed modeColour) = false).
  { destruct selected; [|reflexivity]. rewrite Hcolour by reflexivity. reflexivity. }
  rewrite Hfirst.
  rewrite (example_farEnough observed modeColour support selected x Hothers).
  reflexivity.
Qed.

Lemma select_pixels_and_modes_step self remaining selected eng :
  (length selected =? m_nbPointsForKabschBoostrap self)%nat = false ->
  select_pixels_and_modes self (S remaining) selected eng
  = select_pixels_and_modes self remaining
      (fst (sample_point self selected eng)) (snd (sample_point self selected eng)).
Proof.
  intros Hsize. cbn [select_pixels_and_modes]. rewrite Hsize.
  destruct (sample_point self selected eng). reflexivity.
Qed.

Lemma select_pixels_and_modes_done self remaining selected eng :
  (length selected =? m_nbPointsForKabschBoostrap self)%nat = true ->
  select_pixels_and_modes self remaining selected eng = (selected, eng).
Proof.
  intros Hsize. destruct remaining; cbn [select_pixels_and_modes];
    [|rewrite Hsize]; reflexivity.
Qed.

(** Three draws of the pixels 1, 2 and 3 fill the selection. *)
Lemma example_select_three observed modeColour support eng remaining :
  consistentColour observed modeColour = true ->
  (std.raw eng (std.consumed eng) mod 4 = 1)%Z ->
  (std.raw eng (3 + std.consumed eng) mod 4 = 2)%Z ->
  (std.raw eng (6 + std.consumed eng) mod 4 = 3)%Z ->
  select_pixels_and_modes (example_frame observed modeColour support) (3 + remaining) [] eng
  = (example_selection, advanced eng 9).
Proof.
  intros Hcolour H1 H2 H3.
  change (3 + remaining)%nat with (S (S (S remaining))).
  rewrite select_pixels_and_modes_step by reflexivity.
  rewrite (example_sample_point observed modeColour support [] eng 1%Z H1 ltac:(lia)
             (fun _ => Hcolour) (Forall_nil _)).
  cbn [fst snd app].
  rewrite select_pixels_and_modes_step by reflexivity.
  rewrite (example_sample_point observed modeColour support [(1, 0, 0)%Z] (advanced eng 3) 2%Z
             H2 ltac:(lia) ltac:(discriminate)).
  2: { repeat constructor. exists 1%Z. split; [reflexivity|lia]. }
  cbn [fst snd app].
  rewrite select_pixels_and_modes_step by reflexivity.
  rewrite (example_sample_point observed modeColour support [(1, 0, 0); (2, 0, 0)]%Z
             (advanced (advanced eng 3) 3) 3%Z H3 ltac:(lia) ltac:(discriminate)).
  2: { repeat constructor; [exists 1%Z|exists 2%Z]; (split; [reflexivity|lia]). }
  cbn [fst snd app].
  rewrite select_pixels_and_modes_done by reflexivity.
  reflexivity.
Qed.


Lemma replayed_raw position n :
  std.raw (replayed three_pixels position) n = nth (n mod 9) three_pixels 0%Z.
Proof. reflexivity. Qed.

Section Examples.

Context {externals : Externals}.

(** On the example frame, a hypothesis drawn from the start of a replay of
    [three_pixels] selects the pixels 1, 2 and 3. *)
Lemma example_hypothesize_pose observed modeColour support res q :
  consistentColour observed modeColour = true ->
  hypothesize_pose (example_frame observed modeColour support) res
    (replayed three_pixels (q * 9))
  = (true,
     candidate_of (example_frame observed modeColour support) example_selection,
     replayed three_pixels (S q * 9)).
Proof.
  intros Hcolour. rewrite hypothesize_pose_single_attempt.
  change (Z.to_nat maxIterationsInner) with (3 + Z.to_nat 5997)%nat.
  rewrite (example_select_three observed modeColour support _ _ Hcolour).
  - reflexivity.
  - rewrite replayed_raw. cbn [std.consumed replayed].
    rewrite Nat.Div0.mod_mul. reflexivity.
  - rewrite replayed_raw. cbn [std.consumed replayed].
    rewrite Nat.Div0.mod_add. reflexivity.
  - rewrite replayed_raw. cbn [std.consumed replayed].
    rewrite Nat.Div0.mod_add. reflexivity.
Qed.

End Examples.

Definition at_boundary (eng : std.mt19937) : Prop :=
  exists q, eng = replayed three_pixels (q * 9).

Lemma Forall_vector_set {A : Type} (P : A -> Prop) v i a :
  Forall P v -> P a -> Forall P (std.vector_set v i a).
Proof.
  intros Hv Ha. revert i. induction Hv as [|b v Hb Hv IH]; intros i; cbn.
  - constructor.
  - destruct i; constructor; auto.
Qed.

Lemma Forall_nth_default {A : Type} (P : A -> Prop) l i d :
  Forall P l -> P d -> P (nth i l d).
Proof.
  intros Hl Hd. revert i. induction Hl as [|b l Hb Hl IH]; intros i; cbn.
  - destruct i; exact Hd.
  - destruct i; [exact Hb|apply IH].
Qed.

Lemma example_generate_loop peak observed modeColour support omp_get_thread_num remaining :
  consistentColour observed modeColour = true ->
  forall i engs poseCandidates,
  Forall at_boundary engs ->
  exists generated,
    generate_pose_candidates_loop (externals := example_externals peak)
      (example_frame observed modeColour support) omp_get_thread_num remaining i engs
      poseCandidates
    = poseCandidates ++ generated
    /\ length generated = remaining
    /\ Forall (fun c => inliers c = example_inliers) generated.
Proof.
  intros Hcolour.
  induction remaining as [|remaining IH]; intros i engs poseCandidates Hengs;
    cbn [generate_pose_candidates_loop].
  - exists []. rewrite app_nil_r. repeat split. constructor.
  - assert (Hthread : at_boundary
                        (nth (omp_get_thread_num i) engs
                           (mt19937_seed (Externals := example_externals peak) 1))).
    { apply Forall_nth_default; [exact Hengs|]. exists O. reflexivity. }
    destruct Hthread as [q Hq]. rewrite Hq.
    rewrite (example_hypothesize_pose (externals := example_externals peak)
               observed modeColour support PoseCandidate_default q Hcolour).
    cbn [andb negb std.empty candidate_of inliers tmpInliers_of map example_selection].
    destruct (IH (i + 1)%Z
                (std.vector_set engs (omp_get_thread_num i)
                   (replayed three_pixels (S q * 9)))
                (poseCandidates
                 ++ [set_cameraId
                       (candidate_of (externals := example_externals peak)
                          (example_frame observed modeColour support) example_selection) i]))
      as [generated [Hloop [Hlen Hall]]].
    { apply Forall_vector_set; [exact Hengs|]. exists (S q). reflexivity. }
    eexists. split; [|split].
    + etransitivity; [exact Hloop|]. rewrite <- app_assoc. reflexivity.
    + cbn [length app]. rewrite Hlen. reflexivity.
    + constructor; [reflexivity|exact Hall].
Qed.

Lemma example_generate peak observed modeColour support omp_get_thread_num :
  consistentColour observed modeColour = true ->
  exists first rest,
    generate_pose_candidates (externals := example_externals peak)
      (example_frame observed modeColour support) omp_get_thread_num []
    = first :: rest
    /\ length (first :: rest) = 1024%nat
    /\ Forall (fun c => inliers c = example_inliers) (first :: rest).
Proof.
  intros Hcolour. unfold generate_pose_candidates.
  destruct (example_generate_loop peak observed modeColour support omp_get_thread_num
              (m_kInitRansac (example_frame observed modeColour support)) Hcolour 0%Z
              (seeded_engines (externals := example_externals peak)) [])
    as [generated [Hloop [Hlen Hall]]].
  { unfold seeded_engines. apply Forall_map. apply Forall_forall.
    intros i _. exists O. reflexivity. }
  rewrite Hloop. cbn [app].
  destruct generated as [|first rest]; [discriminate Hlen|].
  exists first, rest. repeat split; assumption.
Qed.

(** ** Errors are not caught *)

Section Propagation.

Context {externals : Externals}.

Lemma first_trim_propagates self eng candidates :
  (m_trimKinitAfterFirstEnergyComputation self < length candidates)%nat ->
  (forall sampled,
     throws (compute_and_sort_energies self
               (update_inliers_for_optimization self sampled candidates))) ->
  throws (first_trim self eng candidates).
Proof.
  intros Hmany Hthrows. unfold first_trim.
  rewrite (proj2 (Nat.ltb_lt _ _) Hmany).
  destruct (sample_pixels_for_ransac self [] [] eng (m_batchSizeRansac self))
    as [[mask1 sampled] eng1].
  destruct (Hthrows sampled) as [what Hwhat]. rewrite Hwhat. cbn [bind].
  eexists. reflexivity.
Qed.

Lemma ransac_iteration_propagates self mask eng candidates :
  (forall sampled,
     throws (compute_and_sort_energies self
               (update_inliers_for_optimization self sampled candidates))) ->
  throws (ransac_iteration self mask eng candidates).
Proof.
  intros Hthrows. unfold ransac_iteration.
  destruct (sample_pixels_for_ransac self mask [] eng (m_batchSizeRansac self))
    as [[mask1 sampled] eng1].
  destruct (m_poseUpdate self).
  - destruct (update_candidate_poses self
                (update_inliers_for_optimization self sampled candidates))
      as [updated|what] eqn:Hupdated; cbn [bind]; [|eexists; reflexivity].
    rewrite (update_candidate_poses_ok _ _ _ Hupdated).
    destruct (Hthrows sampled) as [what Hwhat]. rewrite Hwhat. cbn [bind].
    eexists. reflexivity.
  - cbn [bind]. destruct (Hthrows sampled) as [what Hwhat]. rewrite Hwhat.
    cbn [bind]. eexists. reflexivity.
Qed.


Lemma estimate_pose_from_propagates_trim self candidates :
  throws (first_trim self default_engine candidates) ->
  throws (estimate_pose_from self candidates).
Proof.
  intros [what Hwhat]. unfold estimate_pose_from. rewrite Hwhat. cbn [bind].
  eexists. reflexivity.
Qed.



(** One completed iteration keeps the better half of the candidates it
    scored. *)
Lemma ransac_iteration_keeps_best self mask eng candidates mask' eng' candidates' :
  ransac_iteration self mask eng candidates = Ok (mask', eng', candidates') ->
  exists sampled scored sorted,
    compute_energies self (update_inliers_for_optimization self sampled candidates)
    = Ok scored
    /\ Permutation sorted scored
    /\ StronglySorted energy_le sorted
    /\ length sorted = length candidates
    /\ candidates' = firstn (length candidates / 2) sorted
    /\ (forall kept dropped,
          In kept candidates' ->
          In dropped (skipn (length candidates / 2) sorted) ->
          (energy kept <= energy dropped)%R).
Proof.
  unfold ransac_iteration. intros Hiter.
  destruct (sample_pixels_for_ransac self mask [] eng (m_batchSizeRansac self))
    as [[mask1 sampled] eng1].
  set (updated := update_inliers_for_optimization self sampled candidates) in *.
  assert (Hrefined : forall refined,
             (if m_poseUpdate self then update_candidate_poses self updated
              else Ok updated) = Ok refined -> refined = updated).
  { intros refined Href. destruct (m_poseUpdate self).
    - eapply update_candidate_poses_ok. exact Href.
    - injection Href as <-. reflexivity. }
  destruct (if m_poseUpdate self then update_candidate_poses self updated
            else Ok updated) as [refined|]; cbn [bind] in Hiter; [|discriminate].
  rewrite (Hrefined refined eq_refl) in Hiter.
  unfold compute_and_sort_energies in Hiter.
  destruct (compute_energies self updated) as [scored|] eqn:Hscored;
    cbn [bind] in Hiter; [|discriminate].
  injection Hiter as _ _ <-.
  pose proof (compute_energies_length _ _ _ Hscored) as Hlen.
  unfold updated in Hlen. rewrite update_inliers_for_optimization_length in Hlen.
  rewrite sort_by_energy_length, Hlen.
  exists sampled, scored, (sort_by_energy scored).
  split; [exact Hscored|]. split; [apply sort_by_energy_perm|].
  split; [apply sort_by_energy_sorted|].
  split; [rewrite sort_by_energy_length; exact Hlen|].
  split; [reflexivity|].
  intros kept dropped Hkept Hdropped.
  exact (sorted_prefix_lowest energy_le _ (sort_by_energy_sorted scored) _ _ _
           Hkept Hdropped).
Qed.

End Propagation.

(** ** Examples of runs *)

Lemma example_never_violates peak observed modeColour support pose inlier :
  support <> O ->
  ~ violates_invariant (externals := example_externals peak)
      (example_frame observed modeColour support) pose inlier.
Proof.
  intros Hsupport. unfold violates_invariant, matched_mode, matched.
  cbn [get_best_mode_and_energy example_externals predictionsData example_frame
       configured m_predictionsImage ORUtils.GetData example_prediction
       GPUForestPrediction.modes_array first_supported example_mode
       GPUForestMode.nbInliers].
  rewrite (proj2 (Nat.eqb_neq support 0) Hsupport). cbn [fst].
  intros [Hneg|Hzero]; [lia|].
  apply Hsupport. exact Hzero.
Qed.

Lemma example_backend_finds_modes peak observed modeColour support :
  support <> O ->
  backend_finds_modes (externals := example_externals peak)
    (example_frame observed modeColour support).
Proof.
  intros Hsupport pose inlier _.
  apply example_never_violates. exact Hsupport.
Qed.

Lemma example_generated_ok peak observed modeColour support omp_get_thread_num :
  Forall (candidate_ok (example_frame observed modeColour support))
    (generate_pose_candidates (externals := example_externals peak)
       (example_frame observed modeColour support) omp_get_thread_num []).
Proof.
  apply generate_pose_candidates_loop_ok. constructor.
Qed.

(** With supported modes and matching colours, [estimate_pose] returns a
    candidate on the example frame. *)
Lemma example_estimate_pose peak observed modeColour support omp_get_thread_num :
  consistentColour observed modeColour = true -> support <> O ->
  exists c,
    estimate_pose (externals := example_externals peak)
      (example_frame observed modeColour support) omp_get_thread_num
    = Ok (Some c).
Proof.
  intros Hcolour Hsupport. unfold estimate_pose.
  destruct (estimate_pose_from_returns (externals := example_externals peak)
              (example_frame observed modeColour support)
              (generate_pose_candidates (externals := example_externals peak)
                 (example_frame observed modeColour support) omp_get_thread_num [])
              eq_refl
              (example_backend_finds_modes peak observed modeColour support Hsupport)
              (example_generated_ok peak observed modeColour support omp_get_thread_num))
    as [r Hr].
  destruct (example_generate peak observed modeColour support omp_get_thread_num Hcolour)
    as [first [rest [Hgen _]]].
  pose proof (estimate_pose_from_result (externals := example_externals peak)
                (example_frame observed modeColour support) _ r
                (Nat.lt_0_succ 63) Hr) as [Hsome _].
  destruct Hsome as [c ->]; [rewrite Hgen; discriminate|].
  exists c. exact Hr.
Qed.

(** With modes that have no supporting samples, [estimate_pose] throws on
    the example frame although candidates were generated. *)
Lemma example_estimate_pose_throws peak observed modeColour omp_get_thread_num :
  consistentColour observed modeColour = true ->
  throws (estimate_pose (externals := example_externals peak)
            (example_frame observed modeColour 0) omp_get_thread_num).
Proof.
  intros Hcolour. unfold estimate_pose.
  destruct (example_generate peak observed modeColour 0 omp_get_thread_num Hcolour)
    as [first [rest [Hgen [Hlen Hall]]]].
  rewrite Hgen. apply estimate_pose_from_propagates_trim.
  apply first_trim_propagates.
  - rewrite Hlen. cbn. lia.
  - intros sampled. apply compute_and_sort_energies_throws.
    cbn [update_inliers_for_optimization map]. apply Exists_cons_hd.
    apply compute_pose_energy_throws. cbn [set_inliers inliers].
    inversion Hall as [|? ? Hfirst _]; subst. rewrite Hfirst.
    cbn [example_inliers app]. apply Exists_cons_hd. left. cbn. lia.
Qed.

(** ** The claims about the relocaliser *)

(** C5.  Inliers refer to valid features and to predictions with modes, at
    every stage: the inliers of a hypothesis that [hypothesize_pose] returns;
    the pixels that [sample_pixels_for_ransac] adds to a batch; the inliers
    after [update_inliers_for_optimization]; the inliers of every candidate
    that [generate_pose_candidates] produces; and the inliers of the
    candidate that [estimate_pose] returns.  Validity is
    [0 <= position.w], and having modes is [1 <= nbModes]. *)
Theorem inliers_come_from_valid_features_with_modes :
  forall (externals : Externals) (self : t),
  (forall res eng c eng',
     hypothesize_pose self res eng = (true, c, eng') ->
     Forall (fun inlier =>
               (0 <= ORUtils.w (RGBDPatchFeature.position
                                  (patchFeaturesData self (fst inlier))))%R
               /\ (1 <= GPUForestPrediction.nbModes
                         (predictionsData self (fst inlier)))%nat)
            (inliers c))
  /\ (forall mask sampled eng batchSize,
        Forall (pixel_ok self) sampled ->
        Forall (fun s =>
                  (0 <= ORUtils.w (RGBDPatchFeature.position
                                     (patchFeaturesData self
                                        (linearIdx_of self (fst s) (snd s)))))%R
                  /\ (1 <= GPUForestPrediction.nbModes
                            (predictionsData self
                               (linearIdx_of self (fst s) (snd s))))%nat)
               (snd (fst (sample_pixels_for_ransac self mask sampled eng batchSize))))
  /\ (forall sampled poseCandidates,
        Forall (pixel_ok self) sampled ->
        Forall (candidate_ok self) poseCandidates ->
        Forall (candidate_ok self)
               (update_inliers_for_optimization self sampled poseCandidates))
  /\ (forall omp_get_thread_num c,
        In c (generate_pose_candidates self omp_get_thread_num []) ->
        Forall (inlier_source_ok self) (inliers c))
  /\ (forall omp_get_thread_num c,
        estimate_pose self omp_get_thread_num = Ok (Some c) ->
        Forall (inlier_source_ok self) (inliers c)).
Proof.
  intros externals self. split; [|split; [|split; [|split]]].
  - intros res eng c eng' Hhyp.
    destruct (hypothesize_pose_true _ _ _ _ _ Hhyp)
      as [selected [Hsel [_ [_ [_ [Hinliers _]]]]]].
    rewrite Hinliers. exact (selection_sources_ok self selected Hsel).
  - intros mask sampled eng batchSize Hsampled.
    exact (sample_pixels_for_ransac_ok self batchSize mask sampled eng Hsampled).
  - intros sampled poseCandidates.
    apply update_inliers_for_optimization_ok.
  - intros omp_get_thread_num c Hin.
    pose proof (generate_pose_candidates_loop_ok self omp_get_thread_num
                  (m_kInitRansac self) 0%Z seeded_engines [] (Forall_nil _)) as Hall.
    rewrite Forall_forall in Hall. exact (Hall c Hin).
  - intros omp_get_thread_num c Hest.
    eapply estimate_pose_from_ok; [exact Hest|].
    apply generate_pose_candidates_loop_ok. constructor.
Qed.

(** On the example frame: the hypothesis drawn first, and the candidate that
    [estimate_pose] returns under the static schedule. *)
Lemma inliers_come_from_valid_features_with_modes_witness :
  Forall (fun inlier =>
            (0 <= ORUtils.w (RGBDPatchFeature.position
                               (patchFeaturesData (example_frame grey grey 1)
                                  (fst inlier))))%R
            /\ (1 <= GPUForestPrediction.nbModes
                      (predictionsData (example_frame grey grey 1) (fst inlier)))%nat)
         example_inliers
  /\ exists c,
       estimate_pose (externals := example_externals 1) (example_frame grey grey 1)
         static_schedule = Ok (Some c)
       /\ Forall (inlier_source_ok (example_frame grey grey 1)) (inliers c).
Proof.
  destruct (inliers_come_from_valid_features_with_modes (example_externals 1)
              (example_frame grey grey 1)) as [Hhyp [_ [_ [_ Hest]]]].
  split.
  - exact (Hhyp PoseCandidate_default (replayed three_pixels 0) _ _
             (example_hypothesize_pose (externals := example_externals 1)
                grey grey 1 PoseCandidate_default 0 eq_refl)).
  - destruct (example_estimate_pose 1 grey grey 1 static_schedule eq_refl
                ltac:(discriminate)) as [c Hc].
    exists c. split; [exact Hc|]. exact (Hest static_schedule c Hc).
Defined.

(** C7.  With the minimum-distance check enabled, any two different points
    of a hypothesis that [hypothesize_pose] returns have mode positions that
    are at least [m_minDistanceBetweenSampledModes] (0.3 as configured)
    apart. *)
Theorem hypothesis_modes_are_far_apart :
  forall (externals : Externals) (self : t) res eng c eng',
  m_checkMinDistanceBetweenSampledModes self = true ->
  hypothesize_pose self res eng = (true, c, eng') ->
  forall i j p q,
  i <> j ->
  nth_error (inliers c) i = Some p ->
  nth_error (inliers c) j = Some q ->
  (m_minDistanceBetweenSampledModes self
   <= ORUtils.length
        (ORUtils.Vector3f_sub
           (GPUForestMode.position
              (GPUForestPrediction.modes (predictionsData self (fst p)) (snd p)))
           (GPUForestMode.position
              (GPUForestPrediction.modes (predictionsData self (fst q)) (snd q)))))%R.
Proof.
  intros externals self res eng c eng' Hflag Hhyp i j p q Hij Hp Hq.
  destruct (hypothesize_pose_true _ _ _ _ _ Hhyp)
    as [selected [Hsel [_ [_ [_ [Hinliers _]]]]]].
  rewrite Hinliers in Hp, Hq.
  pose proof (selection_spread self selected Hflag Hsel) as Hspread.
  destruct (Nat.lt_ge_cases i j) as [Hlt|Hge].
  - exact (ForallOrdPairs_nth_error _ _ Hspread i j p q Hlt Hp Hq).
  - apply (far_apart_sym self q p).
    apply (ForallOrdPairs_nth_error _ _ Hspread j i q p); [lia|assumption|assumption].
Qed.

(** The first two points of the hypothesis drawn first on the example
    frame. *)
Lemma hypothesis_modes_are_far_apart_witness :
  (0.3 <= ORUtils.length
            (ORUtils.Vector3f_sub
               (GPUForestMode.position
                  (GPUForestPrediction.modes
                     (predictionsData (example_frame grey grey 1) 1) 0))
               (GPUForestMode.position
                  (GPUForestPrediction.modes
                     (predictionsData (example_frame grey grey 1) 2) 0))))%R.
Proof.
  exact (hypothesis_modes_are_far_apart (example_externals 1)
           (example_frame grey grey 1) PoseCandidate_default
           (replayed three_pixels 0) _ _ eq_refl
           (example_hypothesize_pose (externals := example_externals 1)
              grey grey 1 PoseCandidate_default 0 eq_refl)
           0%nat 1%nat (1, 0)%Z (2, 0)%Z ltac:(discriminate) eq_refl eq_refl).
Defined.



(** C3, as the claim states it, fails: a mode energy of 10 per supporting
    sample gives a hypothesis on the example frame the energy -1. *)
Lemma compute_pose_energy_can_be_negative :
  compute_pose_energy (externals := example_externals 10) (example_frame grey grey 1)
    {| ORUtils.m := [] |} example_inliers = Ok (-1)%R
  /\ example_inliers <> []
  /\ (-1 < 0)%R.
Proof.
  split; [|split; [discriminate|lra]].
  rewrite compute_pose_energy_returns.
  - f_equal. unfold example_inliers. cbn [map sum fold_right length].
    assert (Hterm : forall i,
               contribution (externals := example_externals 10)
                 (example_frame grey grey 1) {| ORUtils.m := [] |} (i, 0%Z)
               = (-1)%R).
    { intros i. unfold contribution, inlier_energy, matched_mode, matched.
      cbn [get_best_mode_and_energy example_externals predictionsData example_frame
           configured m_predictionsImage ORUtils.GetData example_prediction
           GPUForestPrediction.modes_array GPUForestPrediction.nbModes
           first_supported example_mode GPUForestMode.nbInliers Nat.eqb fst snd].
      change (GPUForestPrediction.modes (example_prediction grey 1 i) 0)
        with (example_mode grey 1 i).
      cbn [example_mode GPUForestMode.nbInliers].
      rewrite normalised_energy_above_floor by (cbn [INR]; lra).
      cbn [INR]. replace (10 * 1 / 1 / 1)%R with 10%R by lra.
      rewrite log10f_10. reflexivity. }
    rewrite !Hterm. cbn [INR]. lra.
  - intros Hex. apply Exists_exists in Hex. destruct Hex as [inlier [_ Hbad]].
    exact (example_never_violates 10 grey grey 1 {| ORUtils.m := [] |} inlier
             ltac:(discriminate) Hbad).
Qed.

(** C3, amended.  When [compute_pose_energy] returns for a non-empty inlier
    list, the value is the mean over the inliers of [-log10] of their
    normalised, floored mode energies; it is at most 6; it is non-negative
    when every normalised energy is at most 1; an inlier whose normalised
    energy is exactly 1 adds 0 to the sum, and one whose normalised energy
    is at or below the floor [1e-6] adds exactly 6. *)
Theorem compute_pose_energy_range :
  forall (externals : Externals) (self : t) pose inliersIndices value,
  inliersIndices <> [] ->
  compute_pose_energy self pose inliersIndices = Ok value ->
  value = (sum (map (fun inlier => - log10f (inlier_energy self pose inlier))
                    inliersIndices)
           / INR (length inliersIndices))%R
  /\ (value <= 6)%R
  /\ (Forall (fun inlier => (inlier_energy self pose inlier <= 1)%R) inliersIndices ->
      (0 <= value)%R)
  /\ (forall energy nbModes nbInliers,
        normalised_energy energy nbModes nbInliers = 1%R ->
        (- log10f (normalised_energy energy nbModes nbInliers) = 0)%R)
  /\ (forall energy nbModes nbInliers,
        (energy / INR nbModes / INR nbInliers <= 1e-6)%R ->
        normalised_energy energy nbModes nbInliers = 1e-6%R
        /\ (- log10f (normalised_energy energy nbModes nbInliers) = 6)%R).
Proof.
  intros externals self pose inliersIndices value Hne Hvalue.
  pose proof (compute_pose_energy_value _ _ _ _ Hvalue) as Hmean.
  pose proof (INR_length_pos inliersIndices Hne) as Hpos.
  pose proof (sum_le_6 self pose inliersIndices) as Hsum.
  split; [exact Hmean|]. split; [|split; [|split]].
  - rewrite Hmean. apply (Rmult_le_reg_r (INR (length inliersIndices))); [exact Hpos|].
    unfold Rdiv. rewrite Rmult_assoc, Rinv_l by lra. lra.
  - intros Hall. pose proof (sum_nonneg self pose inliersIndices Hall) as Hnonneg.
    rewrite Hmean. apply Rmult_le_pos; [exact Hnonneg|].
    left. apply Rinv_0_lt_compat. exact Hpos.
  - intros energy nbModes nbInliers ->. rewrite log10f_1. lra.
  - intros energy nbModes nbInliers Hlow.
    rewrite (normalised_energy_at_floor _ _ _ Hlow).
    split; [reflexivity|]. rewrite log10f_floor. lra.
Qed.

Lemma example_inlier_energy i :
  inlier_energy (externals := example_externals 1) (example_frame grey grey 1)
    {| ORUtils.m := [] |} (i, 0%Z) = 1%R.
Proof.
  unfold inlier_energy, matched_mode, matched.
  cbn [get_best_mode_and_energy example_externals predictionsData example_frame
       configured m_predictionsImage ORUtils.GetData example_prediction
       GPUForestPrediction.modes_array GPUForestPrediction.nbModes
       first_supported example_mode GPUForestMode.nbInliers Nat.eqb fst snd].
  change (GPUForestPrediction.modes (example_prediction grey 1 i) 0)
    with (example_mode grey 1 i).
  cbn [example_mode GPUForestMode.nbInliers].
  rewrite normalised_energy_above_floor by (cbn [INR]; lra).
  cbn [INR]. lra.
Qed.

(** The first hypothesis on the example frame, with a mode energy of 1 per
    supporting sample. *)
Lemma compute_pose_energy_range_witness :
  exists value,
    compute_pose_energy (externals := example_externals 1) (example_frame grey grey 1)
      {| ORUtils.m := [] |} example_inliers = Ok value
    /\ (value <= 6)%R
    /\ (0 <= value)%R.
Proof.
  assert (Hnever : ~ Exists (violates_invariant (externals := example_externals 1)
                               (example_frame grey grey 1) {| ORUtils.m := [] |})
                            example_inliers).
  { intros Hex. apply Exists_exists in Hex. destruct Hex as [inlier [_ Hbad]].
    exact (example_never_violates 1 grey grey 1 {| ORUtils.m := [] |} inlier
             ltac:(discriminate) Hbad). }
  pose proof (compute_pose_energy_returns (externals := example_externals 1)
                (example_frame grey grey 1) {| ORUtils.m := [] |} example_inliers
                Hnever) as Hvalue.
  destruct (compute_pose_energy_range (example_externals 1)
              (example_frame grey grey 1) {| ORUtils.m := [] |} example_inliers _
              ltac:(discriminate) Hvalue) as [_ [Hle [Hnonneg _]]].
  eexists. split; [exact Hvalue|]. split; [exact Hle|]. apply Hnonneg.
  repeat constructor; rewrite example_inlier_energy; lra.
Defined.

(** C9, as the claim states it, fails: on the example frame with unsupported
    modes 1024 candidates are generated and [estimate_pose] throws instead
    of returning one. *)
Lemma estimate_pose_throws_with_candidates :
  throws (estimate_pose (externals := example_externals 1)
            (example_frame grey grey 0) static_schedule)
  /\ generate_pose_candidates (externals := example_externals 1)
       (example_frame grey grey 0) static_schedule [] <> [].
Proof.
  split.
  - apply example_estimate_pose_throws. reflexivity.
  - destruct (example_generate 1 grey grey 0 static_schedule eq_refl)
      as [first [rest [Hgen _]]].
    rewrite Hgen. discriminate.
Qed.

(** C9, amended.  The main loop is a total function: it recurses on a
    candidate list that every completed iteration halves.  A completed
    iteration over [n] candidates keeps the [n / 2] candidates of lowest
    energy (fewer than [n] when [n > 1]); a loop that returns leaves at most
    one candidate, and exactly one if it started with any; [estimate_pose]
    either throws or returns, and when it returns it returns a candidate
    exactly when candidates were generated; it returns whenever refinement
    is off and the best-mode query finds a supported mode for every valid
    pixel with modes. *)
Theorem ransac_loop_halves_to_one_candidate :
  forall (externals : Externals) (self : t),
  (forall mask eng candidates mask' eng' candidates',
     ransac_iteration self mask eng candidates = Ok (mask', eng', candidates') ->
     length candidates' = (length candidates / 2)%nat
     /\ ((1 < length candidates)%nat -> (length candidates' < length candidates)%nat)
     /\ exists sampled scored sorted,
          compute_energies self
            (update_inliers_for_optimization self sampled candidates) = Ok scored
          /\ Permutation sorted scored
          /\ candidates' = firstn (length candidates / 2) sorted
          /\ (forall kept dropped,
                In kept candidates' ->
                In dropped (skipn (length candidates / 2) sorted) ->
                (energy kept <= energy dropped)%R))
  /\ (forall mask eng candidates final,
        ransac_loop self mask eng candidates = Ok final ->
        (length final <= 1)%nat /\ (candidates <> [] -> length final = 1%nat))
  /\ (forall omp_get_thread_num,
        throws (estimate_pose self omp_get_thread_num)
        \/ exists r, estimate_pose self omp_get_thread_num = Ok r)
  /\ (forall omp_get_thread_num r,
        (0 < m_trimKinitAfterFirstEnergyComputation self)%nat ->
        estimate_pose self omp_get_thread_num = Ok r ->
        (generate_pose_candidates self omp_get_thread_num [] <> []
         <-> exists c, r = Some c))
  /\ (forall omp_get_thread_num,
        m_poseUpdate self = false ->
        backend_finds_modes self ->
        exists r, estimate_pose self omp_get_thread_num = Ok r).
Proof.
  intros externals self. split; [|split; [|split; [|split]]].
  - intros mask eng candidates mask' eng' candidates' Hiter.
    pose proof (ransac_iteration_length _ _ _ _ _ _ _ Hiter) as Hlen.
    split; [exact Hlen|]. split.
    + intros Hmany. rewrite Hlen. apply Nat.div_lt; lia.
    + destruct (ransac_iteration_keeps_best _ _ _ _ _ _ _ Hiter)
        as [sampled [scored [sorted [Hscored [Hperm [_ [_ [Hkept Hbest]]]]]]]].
      exists sampled, scored, sorted. repeat split; assumption.
  - intros mask eng candidates final. apply ransac_loop_final.
  - intros omp_get_thread_num.
    destruct (estimate_pose self omp_get_thread_num) as [r|what].
    + right. exists r. reflexivity.
    + left. exists what. reflexivity.
  - intros omp_get_thread_num r Hpos Hest.
    exact (estimate_pose_from_result self _ r Hpos Hest).
  - intros omp_get_thread_num Hupdate Hbackend.
    apply estimate_pose_from_returns; [exact Hupdate|exact Hbackend|].
    apply generate_pose_candidates_loop_ok. constructor.
Qed.

(** On the example frame with supported modes, [estimate_pose] returns a
    candidate and candidates were generated. *)
Lemma ransac_loop_halves_to_one_candidate_witness :
  exists c,
    estimate_pose (externals := example_externals 1) (example_frame grey grey 1)
      static_schedule = Ok (Some c)
    /\ generate_pose_candidates (externals := example_externals 1)
         (example_frame grey grey 1) static_schedule [] <> [].
Proof.
  destruct (example_estimate_pose 1 grey grey 1 static_schedule eq_refl
              ltac:(discriminate)) as [c Hc].
  exists c. split; [exact Hc|].
  destruct (ransac_loop_halves_to_one_candidate (example_externals 1)
              (example_frame grey grey 1)) as [_ [_ [_ [Hresult _]]]].
  apply (Hresult static_schedule (Some c) (Nat.lt_0_succ 63) Hc).
  exists c. reflexivity.
Defined.

(** ** The colour test and the retry loop *)

(** The colour test accepts exactly the observed colours that lie, modulo
    256, 0 to 30 above the colour of the mode in every channel. *)
Lemma consistentColour_spec featureColour modeColour :
  consistentColour featureColour modeColour = true
  <-> ((ORUtils.x featureColour - ORUtils.x modeColour) mod 256 <= 30
       /\ (ORUtils.y featureColour - ORUtils.y modeColour) mod 256 <= 30
       /\ (ORUtils.z featureColour - ORUtils.z modeColour) mod 256 <= 30)%Z.
Proof.
  unfold consistentColour, ORUtils.Vector3u_sub, to_uchar.
  cbn [ORUtils.x ORUtils.y ORUtils.z].
  rewrite !andb_true_iff, !Z.leb_le.
  pose proof (Z.mod_pos_bound (ORUtils.x featureColour - ORUtils.x modeColour) 256
                ltac:(lia)).
  pose proof (Z.mod_pos_bound (ORUtils.y featureColour - ORUtils.y modeColour) 256
                ltac:(lia)).
  pose proof (Z.mod_pos_bound (ORUtils.z featureColour - ORUtils.z modeColour) 256
                ltac:(lia)).
  rewrite !Z.abs_eq by lia. tauto.
Qed.



(** An engine whose first 12000 raw numbers draw the pixel without depth and
    whose next numbers replay [three_pixels]. *)
Definition stalled_engine : std.mt19937 :=
  {| std.raw := fun n =>
       if (Z.of_nat n <? 12000)%Z then 0%Z
       else nth (Z.to_nat (Z.of_nat n - 12000) mod 9) three_pixels 0%Z;
     std.consumed := 0 |}.




Definition darker : ORUtils.Vector3u := ORUtils.mkVector3 105%Z 100%Z 100%Z.
Definition dim : ORUtils.Vector3u := ORUtils.mkVector3 10%Z 100%Z 100%Z.
Definition bright : ORUtils.Vector3u := ORUtils.mkVector3 250%Z 100%Z 100%Z.

Lemma example_darker_never_accepted support p :
  ~ acceptable (example_frame grey darker support) [] p.
Proof.
  intros [_ [_ [Hcolour _]]]. specialize (Hcolour eq_refl).
  unfold patchFeaturesData, predictionsData in Hcolour.
  cbn [example_frame configured m_featureImage m_predictionsImage ORUtils.GetData
       example_feature RGBDPatchFeature.colour example_prediction] in Hcolour.
  unfold GPUForestPrediction.modes in Hcolour.
  cbn [GPUForestPrediction.modes_array] in Hcolour.
  destruct (Z.to_nat (snd p)) as [|[|n]]; cbn in Hcolour; discriminate Hcolour.
Qed.

(** C4.  The colour test is one-sided.  A pixel observed as (100, 100, 100)
    is never accepted as first point for a mode of colour (105, 100, 100),
    five levels away: on a frame of such pixels [hypothesize_pose] fails for
    every engine.  A pixel observed as (10, 100, 100) is accepted as first
    point for a mode of colour (250, 100, 100), 240 levels away. *)
Theorem first_point_colour_test_is_one_sided :
  consistentColour grey darker = false
  /\ (forall res eng,
        fst (fst (hypothesize_pose (externals := example_externals 1)
                    (example_frame grey darker 1) res eng)) = false)
  /\ consistentColour dim bright = true
  /\ hypothesize_pose (externals := example_externals 1) (example_frame dim bright 1)
       PoseCandidate_default (replayed three_pixels 0)
     = (true,
        candidate_of (externals := example_externals 1) (example_frame dim bright 1)
          example_selection,
        replayed three_pixels 9).
Proof.
  split; [reflexivity|]. split; [|split; [reflexivity|]].
  - intros res eng. rewrite hypothesize_pose_single_attempt.
    pose proof (select_pixels_and_modes_nothing (example_frame grey darker 1)
                  (Z.to_nat maxIterationsInner)
                  (example_darker_never_accepted 1) eng) as Hnothing.
    destruct (select_pixels_and_modes (example_frame grey darker 1)
                (Z.to_nat maxIterationsInner) [] eng) as [selected eng'].
    cbn [fst] in Hnothing. subst selected. reflexivity.
  - exact (example_hypothesize_pose (externals := example_externals 1)
             dim bright 1 PoseCandidate_default 0 eq_refl).
Qed.

End RelocaliserProperties.

(* ################################################################# *)
(** * Properties of spaint::CollaborativePoseOptimiser *)

Module CollaborativePoseOptimiserProperties.

Import CollaborativePoseOptimiser.

Lemma SceneIDPair_eqb_refl key : SceneIDPair_eqb key key = true.
Proof. unfold SceneIDPair_eqb. rewrite !String.eqb_refl. reflexivity. Qed.

Section Optimiser.

Variable SE3Pose : Type.
Variable inverse : SE3Pose -> SE3Pose.
Variable CollaborationMode : Type.
Variable sufficiently_close : SE3Pose -> SE3PoseCluster SE3Pose -> bool.
Variable confidence_threshold : Z.

Lemma samples_of_put samples key (clusters : list (SE3PoseCluster SE3Pose)) :
  samples_of SE3Pose (samples_put SE3Pose samples key clusters) key = clusters.
Proof.
  unfold samples_of. induction samples as [|kv rest IH]; cbn.
  - rewrite SceneIDPair_eqb_refl. reflexivity.
  - destruct (SceneIDPair_eqb (fst kv) key) eqn:Hkey; cbn.
    + rewrite SceneIDPair_eqb_refl. reflexivity.
    + rewrite Hkey. exact IH.
Qed.

(** The receiving cluster is an old cluster, or an empty new one, with the
    sample appended. *)
Lemma assign_to_cluster_receiving sample clusters :
  exists before,
    nth_error (snd (assign_to_cluster SE3Pose sufficiently_close sample clusters))
              (fst (assign_to_cluster SE3Pose sufficiently_close sample clusters))
    = Some (before ++ [sample])
    /\ (nth_error clusters
                  (fst (assign_to_cluster SE3Pose sufficiently_close sample clusters))
        = Some before
        \/ (before = []
            /\ fst (assign_to_cluster SE3Pose sufficiently_close sample clusters)
               = length clusters)).
Proof.
  induction clusters as [|c rest IH]; cbn.
  - exists []. split; [reflexivity|]. right. split; reflexivity.
  - destruct (sufficiently_close sample c); cbn.
    + exists c. split; [reflexivity|]. left. reflexivity.
    + destruct (assign_to_cluster SE3Pose sufficiently_close sample rest)
        as [k rest'].
      cbn in *. destruct IH as [before [Hnew Hold]]. exists before.
      split; [exact Hnew|].
      destruct Hold as [Hold|[Hempty Hk]]; [left; exact Hold|].
      right. split; [exact Hempty|]. rewrite Hk. reflexivity.
Qed.

End Optimiser.

(** C2, as the claim states it, fails: the public operation returns the same
    (empty) value for a first sample, which leaves its cluster below a
    threshold of 2, and for a second, similar sample, which makes the
    cluster confident; only the private helper tells the two apart. *)
Lemma add_relative_transform_sample_returns_nothing :
  let close := fun (sample : Z) (cluster : list Z) => existsb (Z.eqb sample) cluster in
  let empty :=
    {| m_relativeTransformSamples := @nil (SceneIDPair * list (list Z));
       m_relativeTransformSamplesChanged := false;
       m_sceneIDs := [] |} in
  let once :=
    snd (add_relative_transform_sample Z Z.opp unit close 2 empty "i" "j" 5%Z tt) in
  fst (add_relative_transform_sample Z Z.opp unit close 2 empty "i" "j" 5%Z tt)
  = fst (add_relative_transform_sample Z Z.opp unit close 2 once "i" "j" 5%Z tt)
  /\ fst (add_relative_transform_sample_sub Z unit close 2 empty "i" "j" 5%Z tt) = false
  /\ fst (add_relative_transform_sample_sub Z unit close 2 once "i" "j" 5%Z tt) = true.
Proof. repeat split. Qed.

(** C2, amended.  The private helper [add_relative_transform_sample_sub]
    returns [true] exactly when the cluster that received the sample (an
    earlier cluster, or a new one, with the sample appended, stored for the
    pair [(sceneI, sceneJ)]) now holds at least [confidence_threshold]
    samples; the public [add_relative_transform_sample] returns no value. *)
Theorem add_relative_transform_sample_sub_reports_confidence :
  forall (SE3Pose : Type) (inverse : SE3Pose -> SE3Pose) (CollaborationMode : Type)
         (sufficiently_close : SE3Pose -> list SE3Pose -> bool)
         (confidence_threshold : Z)
         (self : State SE3Pose) (sceneI sceneJ : String.string) (sample : SE3Pose)
         (mode : CollaborationMode),
  (exists k before,
     nth_error
       (samples_of SE3Pose
          (m_relativeTransformSamples SE3Pose
             (snd (add_relative_transform_sample_sub SE3Pose CollaborationMode
                     sufficiently_close confidence_threshold self sceneI sceneJ
                     sample mode)))
          (sceneI, sceneJ)) k
     = Some (before ++ [sample])
     /\ (nth_error (samples_of SE3Pose (m_relativeTransformSamples SE3Pose self)
                      (sceneI, sceneJ)) k = Some before
         \/ before = [])
     /\ (fst (add_relative_transform_sample_sub SE3Pose CollaborationMode
                sufficiently_close confidence_threshold self sceneI sceneJ
                sample mode) = true
         <-> (confidence_threshold <= Z.of_nat (length (before ++ [sample])))%Z))
  /\ fst (add_relative_transform_sample SE3Pose inverse CollaborationMode
            sufficiently_close confidence_threshold self sceneI sceneJ sample mode)
     = tt.
Proof.
  intros SE3Pose inverse CollaborationMode sufficiently_close confidence_threshold
    self sceneI sceneJ sample mode.
  split.
  - unfold add_relative_transform_sample_sub.
    destruct (assign_to_cluster_receiving SE3Pose sufficiently_close sample
                (samples_of SE3Pose (m_relativeTransformSamples SE3Pose self)
                   (sceneI, sceneJ))) as [before [Hnew Hold]].
    destruct (assign_to_cluster SE3Pose sufficiently_close sample
                (samples_of SE3Pose (m_relativeTransformSamples SE3Pose self)
                   (sceneI, sceneJ))) as [k clusters'].
    cbn [fst snd] in *. cbn [m_relativeTransformSamples].
    rewrite samples_of_put. exists k, before.
    split; [exact Hnew|]. split.
    + destruct Hold as [Hold|[Hempty _]]; [left; exact Hold|right; exact Hempty].
    + rewrite (nth_error_nth _ _ _ Hnew). apply Z.leb_le.
  - destruct (add_relative_transform_sample SE3Pose inverse CollaborationMode
                sufficiently_close confidence_threshold self sceneI sceneJ sample mode)
      as [[] self'].
    reflexivity.
Qed.

End CollaborativePoseOptimiserProperties.

(* ################################################################# *)
(** * Further properties of the greyscale conversion *)

Module GreyscaleProperties.
Import OpenCVUtil OpenCVUtilProperties.

Lemma Int_part_le a b : (a <= b)%R -> (Int_part a <= Int_part b)%Z.
Proof.
  intros Hab.
  destruct (base_Int_part a) as [Ha1 Ha2]. destruct (base_Int_part b) as [Hb1 Hb2].
  assert (H : (IZR (Int_part a) < IZR (Int_part b + 1))%R).
  { rewrite plus_IZR. lra. }
  apply lt_IZR in H. lia.
Qed.

Lemma clamp_pixel_value_float_le (a b : float) :
  (a <= b)%R -> (clamp_pixel_value a <= clamp_pixel_value b)%Z.
Proof.
  intros Hab.
  destruct (clamp_pixel_value_float a) as [Hra [Hla [Hha Hma]]].
  destruct (clamp_pixel_value_float b) as [Hrb [Hlb [Hhb Hmb]]].
  destruct (Rlt_dec a 0) as [Ha0|Ha0]; [rewrite Hla by assumption; lia|].
  destruct (Rlt_dec 255 b) as [Hb255|Hb255]; [rewrite Hhb by assumption; lia|].
  rewrite Hma, Hmb by lra. apply Int_part_le. exact Hab.
Qed.

Lemma clamp_pixel_value_int (v : Z) :
  clamp_pixel_value v = Z.max 0 (Z.min 255 v).
Proof.
  unfold clamp_pixel_value. cbn [T_lt T_of_int T_to_uchar PixelValue_int].
  destruct (v <? 0)%Z eqn:Hlow.
  - apply Z.ltb_lt in Hlow. cbn. lia.
  - apply Z.ltb_ge in Hlow. destruct (255 <? v)%Z eqn:Hhigh.
    + apply Z.ltb_lt in Hhigh. cbn. lia.
    + apply Z.ltb_ge in Hhigh. rewrite to_uchar_small by lia. lia.
Qed.


(** The constructor's members, when it succeeds. *)
Lemma ScaleDataToRange_new_members inputData minOutputValue maxOutputValue f :
  ScaleDataToRange_new inputData minOutputValue maxOutputValue = Some f ->
  exists lo hi,
    min_element inputData = Some lo /\ max_element inputData = Some hi
    /\ (lo < hi)%R
    /\ m_minInputValue f = lo /\ m_minOutputValue f = minOutputValue
    /\ m_scalingFactor f = ((maxOutputValue - minOutputValue) / (hi - lo))%R.
Proof.
  unfold ScaleDataToRange_new. intros Hf.
  destruct (max_element inputData) as [hi|] eqn:Hhi; [|discriminate].
  destruct (min_element inputData) as [lo|] eqn:Hlo; [|discriminate].
  unfold float_div in Hf.
  destruct (Req_dec_T (hi - lo) 0) as [Hzero|Hnonzero]; [discriminate|].
  injection Hf as <-. exists lo, hi. cbn.
  destruct (max_element_spec _ _ Hhi) as [Hinhi Hmost].
  destruct (min_element_spec _ _ Hlo) as [Hinlo Hleast].
  pose proof (Hmost lo Hinlo).
  repeat split; try reflexivity. lra.
Qed.

Lemma ScaleDataToRange_call_le inputData minOutputValue maxOutputValue f a b :
  (minOutputValue <= maxOutputValue)%R ->
  ScaleDataToRange_new inputData minOutputValue maxOutputValue = Some f ->
  (a <= b)%R -> (ScaleDataToRange_call f a <= ScaleDataToRange_call f b)%R.
Proof.
  intros Hout Hf Hab.
  destruct (ScaleDataToRange_new_members _ _ _ _ Hf)
    as [lo [hi [_ [_ [Hlt [Hmin [Hminout Hfactor]]]]]]].
  unfold ScaleDataToRange_call. rewrite Hmin, Hminout, Hfactor.
  assert (Hpos : (0 <= (maxOutputValue - minOutputValue) / (hi - lo))%R).
  { apply Rmult_le_pos; [lra|]. left. apply Rinv_0_lt_compat. lra. }
  apply Rplus_le_compat_l. apply Rmult_le_compat_r; [exact Hpos|lra].
Qed.

(** X1.  The column-major image of a buffer is the transpose of its
    row-major image with width and height exchanged: the pixel in column [x]
    of row [y] of the one is the pixel in column [y] of row [x] of the
    other, and the one has as many rows as the other has columns. *)
Theorem col_major_image_is_transposed_row_major :
  forall (T U : Type) (pixel : PixelValue U) (inputData : Z -> T)
         (scaleFunc : T -> U) (width height x y : Z),
  (0 <= x < width)%Z -> (0 <= y < height)%Z ->
  Mat1b_at (make_greyscale_image inputData scaleFunc width height COL_MAJOR) x y
  = Mat1b_at (make_greyscale_image inputData scaleFunc height width ROW_MAJOR) y x
  /\ rows (make_greyscale_image inputData scaleFunc width height COL_MAJOR)
     = cols (make_greyscale_image inputData scaleFunc height width ROW_MAJOR)
  /\ cols (make_greyscale_image inputData scaleFunc width height COL_MAJOR)
     = rows (make_greyscale_image inputData scaleFunc height width ROW_MAJOR).
Proof.
  intros T U pixel inputData scaleFunc width height x y Hx Hy.
  split; [|split; reflexivity].
  unfold Mat1b_at. cbn [cols data make_greyscale_image].
  replace (Z.to_nat (y * width + x))
    with (Z.to_nat y * Z.to_nat width + Z.to_nat x)%nat by nia.
  rewrite col_major_loop_nth by lia.
  rewrite row_major_loop_nth by nia.
  rewrite !Z2Nat.id by nia. reflexivity.
Qed.

Lemma col_major_image_is_transposed_row_major_witness :
  Mat1b_at (make_greyscale_image (fun i => (40 * i)%Z) identity 3 2 COL_MAJOR) 2 1
  = Mat1b_at (make_greyscale_image (fun i => (40 * i)%Z) identity 2 3 ROW_MAJOR) 1 2.
Proof.
  exact (proj1 (col_major_image_is_transposed_row_major Z Z PixelValue_int
                  (fun i => (40 * i)%Z) identity 3 2 2 1
                  ltac:(lia) ltac:(lia))).
Defined.

Lemma row_major_loop_bytes {T U : Type} `{PixelValue U}
    (inputData : Z -> T) (scaleFunc : T -> U) n :
  (forall v : U, (0 <= clamp_pixel_value v <= 255)%Z) ->
  forall i, Forall (fun b => (0 <= b <= 255)%Z) (row_major_loop inputData scaleFunc n i).
Proof.
  intros Hbyte. induction n as [|n IH]; intros i; cbn [row_major_loop]; constructor.
  - apply Hbyte.
  - apply IH.
Qed.

Lemma col_major_row_bytes {T U : Type} `{PixelValue U}
    (inputData : Z -> T) (scaleFunc : T -> U) height y n :
  (forall v : U, (0 <= clamp_pixel_value v <= 255)%Z) ->
  forall x, Forall (fun b => (0 <= b <= 255)%Z)
                   (col_major_row inputData scaleFunc height y n x).
Proof.
  intros Hbyte. induction n as [|n IH]; intros x; cbn [col_major_row]; constructor.
  - apply Hbyte.
  - apply IH.
Qed.

Lemma col_major_loop_bytes {T U : Type} `{PixelValue U}
    (inputData : Z -> T) (scaleFunc : T -> U) width height n :
  (forall v : U, (0 <= clamp_pixel_value v <= 255)%Z) ->
  forall y, Forall (fun b => (0 <= b <= 255)%Z)
                   (col_major_loop inputData scaleFunc width height n y).
Proof.
  intros Hbyte. induction n as [|n IH]; intros y; cbn [col_major_loop].
  - constructor.
  - apply Forall_app. split; [apply col_major_row_bytes; exact Hbyte|apply IH].
Qed.

Lemma make_greyscale_image_bytes {T U : Type} `{PixelValue U}
    (inputData : Z -> T) (scaleFunc : T -> U) width height order :
  (forall v : U, (0 <= clamp_pixel_value v <= 255)%Z) ->
  Forall (fun b => (0 <= b <= 255)%Z)
         (data (make_greyscale_image inputData scaleFunc width height order)).
Proof.
  intros Hbyte. destruct order; cbn [data make_greyscale_image].
  - apply col_major_loop_bytes. exact Hbyte.
  - apply row_major_loop_bytes. exact Hbyte.
Qed.

(** X2.  For a width and a height that are not negative, the image has
    [height] rows, [width] columns and exactly [width * height] bytes in
    either order, every one of them written by the loop; for integer and
    for float pixel values every byte lies in [0, 255]. *)
Theorem make_greyscale_image_shape :
  forall (T U : Type) (pixel : PixelValue U) (inputData : Z -> T)
         (scaleFunc : T -> U) (width height : Z) (order : Order),
  (0 <= width)%Z -> (0 <= height)%Z ->
  rows (make_greyscale_image inputData scaleFunc width height order) = height
  /\ cols (make_greyscale_image inputData scaleFunc width height order) = width
  /\ length (data (make_greyscale_image inputData scaleFunc width height order))
     = Z.to_nat (width * height)
  /\ (forall scaleInt : T -> Z,
        Forall (fun b => (0 <= b <= 255)%Z)
               (data (make_greyscale_image inputData scaleInt width height order)))
  /\ (forall scaleFloat : T -> float,
        Forall (fun b => (0 <= b <= 255)%Z)
               (data (make_greyscale_image inputData scaleFloat width height order))).
Proof.
  intros T U pixel inputData scaleFunc width height order Hw Hh.
  split; [reflexivity|]. split; [reflexivity|]. split; [|split].
  - destruct order; cbn [data make_greyscale_image].
    + rewrite col_major_loop_length. nia.
    + apply row_major_loop_length.
  - intros scaleInt. apply make_greyscale_image_bytes.
    intros v. rewrite clamp_pixel_value_int. lia.
  - intros scaleFloat. apply make_greyscale_image_bytes.
    intros v. apply clamp_pixel_value_float.
Qed.

Lemma make_greyscale_image_shape_witness :
  length (data (make_greyscale_image (fun i => (40 * i)%Z) (fun v => IZR v) 3 2 COL_MAJOR))
  = 6%nat.
Proof.
  exact (proj1 (proj2 (proj2 (make_greyscale_image_shape Z float PixelValue_float
                                (fun i => (40 * i)%Z) (fun v => IZR v) 3 2 COL_MAJOR
                                ltac:(lia) ltac:(lia))))).
Defined.

(** X3.  Without a scaling argument an integer buffer is saturated, never
    wrapped around: a pixel is its input value limited to [0, 255], so a
    buffer of byte values is reproduced unchanged, in row-major order at
    [y * width + x] and in column-major order at [x * height + y]. *)
Theorem make_greyscale_image_unscaled_saturates :
  forall (inputData : Z -> Z) (width height x y : Z),
  (0 <= x < width)%Z -> (0 <= y < height)%Z ->
  Mat1b_at (make_greyscale_image_unscaled inputData width height ROW_MAJOR) x y
  = Z.max 0 (Z.min 255 (inputData (y * width + x)%Z))
  /\ Mat1b_at (make_greyscale_image_unscaled inputData width height COL_MAJOR) x y
     = Z.max 0 (Z.min 255 (inputData (x * height + y)%Z))
  /\ ((0 <= inputData (y * width + x)%Z <= 255)%Z ->
      Mat1b_at (make_greyscale_image_unscaled inputData width height ROW_MAJOR) x y
      = inputData (y * width + x)%Z)
  /\ ((0 <= inputData (x * height + y)%Z <= 255)%Z ->
      Mat1b_at (make_greyscale_image_unscaled inputData width height COL_MAJOR) x y
      = inputData (x * height + y)%Z).
Proof.
  intros inputData width height x y Hx Hy.
  assert (Hrow : Mat1b_at (make_greyscale_image_unscaled inputData width height ROW_MAJOR) x y
                 = Z.max 0 (Z.min 255 (inputData (y * width + x)%Z))).
  { unfold make_greyscale_image_unscaled, Mat1b_at.
    cbn [cols data make_greyscale_image].
    rewrite row_major_loop_nth by nia. rewrite Z2Nat.id by nia.
    unfold identity. apply clamp_pixel_value_int. }
  assert (Hcol : Mat1b_at (make_greyscale_image_unscaled inputData width height COL_MAJOR) x y
                 = Z.max 0 (Z.min 255 (inputData (x * height + y)%Z))).
  { unfold make_greyscale_image_unscaled, Mat1b_at.
    cbn [cols data make_greyscale_image].
    replace (Z.to_nat (y * width + x))
      with (Z.to_nat y * Z.to_nat width + Z.to_nat x)%nat by nia.
    rewrite col_major_loop_nth by lia. rewrite !Z2Nat.id by lia.
    unfold identity. apply clamp_pixel_value_int. }
  split; [exact Hrow|]. split; [exact Hcol|]. split.
  - intros Hbyte. rewrite Hrow. lia.
  - intros Hbyte. rewrite Hcol. lia.
Qed.

Lemma make_greyscale_image_unscaled_saturates_witness :
  Mat1b_at (make_greyscale_image_unscaled (fun i => (100 * i - 60)%Z) 3 2 ROW_MAJOR) 1 1
  = Z.max 0 (Z.min 255 (100 * (1 * 3 + 1) - 60))%Z.
Proof.
  exact (proj1 (make_greyscale_image_unscaled_saturates (fun i => (100 * i - 60)%Z)
                  3 2 1 1 ltac:(lia) ltac:(lia))).
Defined.

(** X4.  A brighter input never gives a darker pixel: with a scaling factor
    that is not negative, and with a [ScaleDataToRange] whose output range is
    not reversed, the pixel of a smaller input value is at most the pixel of
    a larger one. *)
Theorem greyscale_image_preserves_brightness_order :
  forall (inputData : Z -> float) (width height i j : Z),
  (0 <= i < width * height)%Z -> (0 <= j < width * height)%Z ->
  (inputData i <= inputData j)%R ->
  (forall scaleFactor : float,
     (0 <= scaleFactor)%R ->
     (nth (Z.to_nat i)
          (data (make_greyscale_image_by_factor (fun v => v) inputData width height
                   ROW_MAJOR scaleFactor)) 0
      <= nth (Z.to_nat j)
             (data (make_greyscale_image_by_factor (fun v => v) inputData width height
                      ROW_MAJOR scaleFactor)) 0)%Z)
  /\ (forall (values : list float) (minOutputValue maxOutputValue : float) f,
        (minOutputValue <= maxOutputValue)%R ->
        ScaleDataToRange_new values minOutputValue maxOutputValue = Some f ->
        (nth (Z.to_nat i)
             (data (make_greyscale_image inputData (ScaleDataToRange_call f) width height
                      ROW_MAJOR)) 0
         <= nth (Z.to_nat j)
                (data (make_greyscale_image inputData (ScaleDataToRange_call f) width
                         height ROW_MAJOR)) 0)%Z).
Proof.
  intros inputData width height i j Hi Hj Hij. split.
  - intros scaleFactor Hfactor. unfold make_greyscale_image_by_factor.
    cbn [data make_greyscale_image].
    rewrite !row_major_loop_nth by lia. rewrite !Z2Nat.id by lia.
    apply clamp_pixel_value_float_le. unfold ScaleByFactor_call. cbn [m_factor].
    rewrite !Z.add_0_l. apply Rmult_le_compat_r; assumption.
  - intros values minOutputValue maxOutputValue f Hout Hf.
    cbn [data make_greyscale_image].
    rewrite !row_major_loop_nth by lia. rewrite !Z2Nat.id by lia.
    apply clamp_pixel_value_float_le. rewrite !Z.add_0_l.
    eapply ScaleDataToRange_call_le; eassumption.
Qed.

Lemma greyscale_image_preserves_brightness_order_witness :
  (nth 1 (data (make_greyscale_image_by_factor (fun v => v) IZR 2 2 ROW_MAJOR 100)) 0
   <= nth 2 (data (make_greyscale_image_by_factor (fun v => v) IZR 2 2 ROW_MAJOR 100)) 0)%Z.
Proof.
  exact (proj1 (greyscale_image_preserves_brightness_order IZR 2 2 1 2
                  ltac:(lia) ltac:(lia) ltac:(apply IZR_le; lia))
           100%R ltac:(lra)).
Defined.



End GreyscaleProperties.

(* ################################################################# *)
(** * Further properties of the relocaliser *)

Module RelocaliserInvariants.

Import SLAMComponentWithScoreForest RelocaliserProperties.

(** ** Sampling stays inside the image *)

Definition image_width (self : t) : Z :=
  ORUtils.width (ORUtils.noDims (m_featureImage self)).

Definition image_height (self : t) : Z :=
  ORUtils.height (ORUtils.noDims (m_featureImage self)).

(** A selected triple names a pixel of the image and one of the modes of
    its prediction. *)
Definition in_bounds (self : t) (p : Z * Z * Z) : Prop :=
  (0 <= fst (fst p) < image_width self)%Z
  /\ (0 <= snd (fst p) < image_height self)%Z
  /\ (0 <= snd p
      < Z.of_nat (GPUForestPrediction.nbModes
                    (predictionsData self (linearIdx_of self (fst (fst p)) (snd (fst p))))))%Z.

(** [later] is [eng] after at least [least] and at most [most] more raw
    numbers. *)
Definition drew (eng later : std.mt19937) (least most : nat) : Prop :=
  std.raw later = std.raw eng
  /\ (std.consumed eng + least <= std.consumed later <= std.consumed eng + most)%nat.

Lemma drew_trans eng1 eng2 eng3 least1 most1 least2 most2 :
  drew eng1 eng2 least1 most1 -> drew eng2 eng3 least2 most2 ->
  drew eng1 eng3 (least1 + least2) (most1 + most2).
Proof.
  intros [Hraw1 Hn1] [Hraw2 Hn2]. split; [congruence|lia].
Qed.

Lemma drew_weaken eng later least most least' most' :
  drew eng later least most -> (least' <= least)%nat -> (most <= most')%nat ->
  drew eng later least' most'.
Proof. intros [Hraw Hn] Hl Hm. split; [exact Hraw|lia]. Qed.

Lemma uniform_int_distribution_range b eng :
  (0 <= b)%Z ->
  (0 <= fst (std.uniform_int_distribution 0 b eng) <= b)%Z.
Proof.
  intros Hb. unfold std.uniform_int_distribution. cbn [fst].
  pose proof (Z.mod_pos_bound (std.raw eng (std.consumed eng)) (b - 0 + 1) ltac:(lia)).
  lia.
Qed.

Lemma uniform_int_distribution_drew a b eng :
  drew eng (snd (std.uniform_int_distribution a b eng)) 1 1.
Proof. unfold std.uniform_int_distribution, drew. cbn. split; [reflexivity|lia]. Qed.

(** What one iteration of the inner loop does: it draws two or three raw
    numbers, and either leaves the selection as it is or pushes a triple
    that passed the checks and lies inside the image and the mode array. *)
Lemma sample_point_step self selected eng :
  (0 < image_width self)%Z -> (0 < image_height self)%Z ->
  drew eng (snd (sample_point self selected eng)) 2 3
  /\ (fst (sample_point self selected eng) = selected
      \/ exists p, fst (sample_point self selected eng) = selected ++ [p]
                   /\ acceptable self selected p /\ in_bounds self p).
Proof.
  intros Hw Hh.
  pose proof (sample_point_spec self selected eng) as Hspec.
  unfold sample_point in *.
  pose proof (uniform_int_distribution_range (image_width self - 1) eng ltac:(lia)) as Hx.
  pose proof (uniform_int_distribution_drew 0 (image_width self - 1) eng) as Hd1.
  unfold col_index_generator in *. fold (image_width self) in *.
  destruct (std.uniform_int_distribution 0 (image_width self - 1) eng) as [x eng1].
  pose proof (uniform_int_distribution_range (image_height self - 1) eng1 ltac:(lia)) as Hy.
  pose proof (uniform_int_distribution_drew 0 (image_height self - 1) eng1) as Hd2.
  unfold row_index_generator in *. fold (image_height self) in *.
  destruct (std.uniform_int_distribution 0 (image_height self - 1) eng1) as [y eng2].
  cbn [fst snd] in Hx, Hy, Hd1, Hd2.
  pose proof (drew_trans _ _ _ _ _ _ _ Hd1 Hd2) as Hd12. cbn in Hd12.
  destruct (float_lt _ 0).
  { cbn [fst snd]. split; [eapply drew_weaken; [exact Hd12|lia|lia]|left; reflexivity]. }
  destruct (_ =? 0)%nat eqn:Hmodes.
  { cbn [fst snd]. split; [eapply drew_weaken; [exact Hd12|lia|lia]|left; reflexivity]. }
  apply Nat.eqb_neq in Hmodes.
  set (nb := GPUForestPrediction.nbModes (predictionsData self (linearIdx_of self x y))) in *.
  assert (Hmode : exists modeIdx eng3,
             (if m_useAllModesPerLeafInPoseHypothesisGeneration self
              then std.uniform_int_distribution 0 (Z.of_nat nb - 1) eng2
              else (0%Z, eng2)) = (modeIdx, eng3)
             /\ (0 <= modeIdx < Z.of_nat nb)%Z /\ drew eng eng3 2 3).
  { destruct (m_useAllModesPerLeafInPoseHypothesisGeneration self).
    - pose proof (uniform_int_distribution_range (Z.of_nat nb - 1) eng2 ltac:(lia)) as Hm.
      pose proof (uniform_int_distribution_drew 0 (Z.of_nat nb - 1) eng2) as Hd3.
      destruct (std.uniform_int_distribution 0 (Z.of_nat nb - 1) eng2) as [modeIdx eng3].
      cbn [fst snd] in Hm, Hd3. exists modeIdx, eng3.
      split; [reflexivity|]. split; [lia|].
      pose proof (drew_trans _ _ _ _ _ _ _ Hd12 Hd3) as Hd. cbn in Hd.
      eapply drew_weaken; [exact Hd|lia|lia].
    - exists 0%Z, eng2. split; [reflexivity|]. split; [lia|].
      eapply drew_weaken; [exact Hd12|lia|lia]. }
  destruct Hmode as [modeIdx [eng3 [Hdraw [Hrange Hd]]]].
  rewrite Hdraw in *.
  destruct (std.empty selected && _).
  { cbn [fst snd]. split; [exact Hd|left; reflexivity]. }
  destruct (m_checkMinDistanceBetweenSampledModes self && _).
  { cbn [fst snd]. split; [exact Hd|left; reflexivity]. }
  destruct (m_checkRigidTransformationConstraint self && _).
  { cbn [fst snd]. split; [exact Hd|left; reflexivity]. }
  cbn [fst snd] in *. split; [exact Hd|]. right.
  destruct Hspec as [Hsame|[p [Hpush Hacc]]].
  { exfalso. apply (f_equal (@length _)) in Hsame. rewrite length_app in Hsame.
    cbn in Hsame. lia. }
  apply app_inj_tail in Hpush. destruct Hpush as [_ <-].
  exists (x, y, modeIdx). split; [reflexivity|]. split; [exact Hacc|].
  unfold in_bounds. cbn [fst snd]. fold nb. lia.
Qed.

(** The inner loop builds a selection of triples inside the image, and
    draws at most three raw numbers per iteration. *)
Lemma select_pixels_and_modes_bounds self remaining :
  (0 < image_width self)%Z -> (0 < image_height self)%Z ->
  forall selected eng,
  Forall (in_bounds self) selected ->
  Forall (in_bounds self) (fst (select_pixels_and_modes self remaining selected eng))
  /\ drew eng (snd (select_pixels_and_modes self remaining selected eng))
          0 (3 * remaining).
Proof.
  intros Hw Hh.
  induction remaining as [|remaining IH]; intros selected eng Hsel;
    cbn [select_pixels_and_modes].
  - cbn [fst snd]. split; [exact Hsel|]. split; [reflexivity|lia].
  - destruct (_ =? _)%nat.
    { cbn [fst snd]. split; [exact Hsel|]. split; [reflexivity|lia]. }
    destruct (sample_point_step self selected eng Hw Hh) as [Hd Hstep].
    destruct (sample_point self selected eng) as [selected' eng'].
    cbn [fst snd] in Hd, Hstep.
    assert (Hsel' : Forall (in_bounds self) selected').
    { destruct Hstep as [->|[p [-> [_ Hp]]]]; [exact Hsel|].
      apply Forall_app. split; [exact Hsel|]. constructor; [exact Hp|constructor]. }
    destruct (IH selected' eng' Hsel') as [Hall Hd'].
    split; [exact Hall|].
    pose proof (drew_trans _ _ _ _ _ _ _ Hd Hd') as Hboth.
    eapply drew_weaken; [exact Hboth|lia|lia].
Qed.

Lemma tmpInliers_of_in_bounds self selected :
  Forall (in_bounds self) selected ->
  Forall (fun inlier =>
            (0 <= fst inlier < image_width self * image_height self)%Z
            /\ (0 <= snd inlier
                < Z.of_nat (GPUForestPrediction.nbModes
                              (predictionsData self (fst inlier))))%Z)
         (tmpInliers_of self selected).
Proof.
  intros Hall. unfold tmpInliers_of. apply Forall_map.
  eapply Forall_impl; [|exact Hall].
  intros [[x y] modeIdx] [Hx [Hy Hm]]. cbn [fst snd] in *.
  split; [|exact Hm]. unfold linearIdx_of. fold (image_width self). nia.
Qed.

Section WithExternals.

Context {externals : Externals}.

(** ** The candidates that are generated *)

Lemma StronglySorted_lt_cons (a : Z) (l : list Z) :
  StronglySorted Z.lt l -> Forall (fun b => (a < b)%Z) l -> StronglySorted Z.lt (a :: l).
Proof. intros Hl Ha. constructor; assumption. Qed.

Lemma StronglySorted_lt_NoDup (l : list Z) : StronglySorted Z.lt l -> NoDup l.
Proof.
  induction 1 as [|a l Hl IH Ha]; constructor; [|exact IH].
  intros Hin. rewrite Forall_forall in Ha. specialize (Ha a Hin). lia.
Qed.

(** A candidate as [hypothesize_pose] leaves it: built from a selection of
    [m_nbPointsForKabschBoostrap] triples. *)
Definition fresh_hypothesis (self : t) (c : PoseCandidate) : Prop :=
  exists selected,
    selection self selected
    /\ length selected = m_nbPointsForKabschBoostrap self
    /\ cameraPose c
       = Kabsch (map (localPt_of self) selected) (map (worldPt_of self) selected)
    /\ inliers c = tmpInliers_of self selected
    /\ energy c = 0%R.

Lemma generate_pose_candidates_loop_spec self omp_get_thread_num remaining :
  forall i engs poseCandidates,
  exists generated,
    generate_pose_candidates_loop self omp_get_thread_num remaining i engs poseCandidates
    = poseCandidates ++ generated
    /\ (length generated <= remaining)%nat
    /\ StronglySorted Z.lt (map cameraId generated)
    /\ Forall (fun c => (i <= cameraId c < i + Z.of_nat remaining)%Z
                        /\ inliers c <> [] /\ fresh_hypothesis self c)
              generated.
Proof.
  induction remaining as [|remaining IH]; intros i engs poseCandidates;
    cbn [generate_pose_candidates_loop].
  - exists []. rewrite app_nil_r. repeat split; cbn; try lia; constructor.
  - destruct (hypothesize_pose self PoseCandidate_default
                (nth (omp_get_thread_num i) engs (mt19937_seed 1)))
      as [[found candidate] eng'] eqn:Hhyp.
    set (kept := found && negb (std.empty (inliers candidate))).
    destruct (IH (i + 1)%Z (std.vector_set engs (omp_get_thread_num i) eng')
                (if kept then poseCandidates ++ [set_cameraId candidate i]
                 else poseCandidates))
      as [generated [Hloop [Hlen [Hsorted Hall]]]].
    assert (Hwider : Forall (fun c => (i < cameraId c < i + Z.of_nat (S remaining))%Z
                                      /\ inliers c <> [] /\ fresh_hypothesis self c)
                            generated).
    { eapply Forall_impl; [|exact Hall]. cbn beta. intros c [Hid Hrest].
      split; [lia|exact Hrest]. }
    unfold kept in *. destruct found; cbn [andb] in *.
    + destruct (std.empty (inliers candidate)) eqn:Hempty; cbn [negb] in *.
      * exists generated. split; [exact Hloop|]. split; [lia|]. split; [exact Hsorted|].
        eapply Forall_impl; [|exact Hwider]. cbn beta. intros c [Hid Hrest].
        split; [lia|exact Hrest].
      * exists (set_cameraId candidate i :: generated).
        split; [rewrite Hloop, <- app_assoc; reflexivity|].
        split; [cbn [length]; lia|]. split.
        -- cbn [map]. apply StronglySorted_lt_cons; [exact Hsorted|].
           apply Forall_map. eapply Forall_impl; [|exact Hwider].
           cbn beta. intros c [Hid _]. cbn [set_cameraId cameraId]. lia.
        -- constructor.
           ++ cbn [set_cameraId cameraId inliers]. split; [lia|]. split.
              ** destruct (inliers candidate); [discriminate Hempty|discriminate].
              ** destruct (hypothesize_pose_true _ _ _ _ _ Hhyp)
                   as [selected [Hsel [Hsize [_ [Hpose [Hinliers [Henergy _]]]]]]].
                 exists selected. repeat split; assumption.
           ++ eapply Forall_impl; [|exact Hwider]. cbn beta. intros c [Hid Hrest].
              split; [lia|exact Hrest].
    + exists generated. split; [exact Hloop|]. split; [lia|]. split; [exact Hsorted|].
      eapply Forall_impl; [|exact Hwider]. cbn beta. intros c [Hid Hrest].
      split; [lia|exact Hrest].
Qed.

(** ** A frame without usable pixels *)

Lemma select_pixels_and_modes_unusable self remaining :
  (0 < image_width self)%Z -> (0 < image_height self)%Z ->
  (forall i, (0 <= i < image_width self * image_height self)%Z ->
     (ORUtils.w (RGBDPatchFeature.position (patchFeaturesData self i)) < 0)%R
     \/ GPUForestPrediction.nbModes (predictionsData self i) = O) ->
  forall eng, fst (select_pixels_and_modes self remaining [] eng) = [].
Proof.
  intros Hw Hh Hunusable.
  induction remaining as [|remaining IH]; intros eng; cbn [select_pixels_and_modes].
  - reflexivity.
  - destruct (_ =? _)%nat; [reflexivity|].
    destruct (sample_point_step self [] eng Hw Hh) as [_ Hstep].
    destruct (sample_point self [] eng) as [selected' eng'].
    cbn [fst] in Hstep. destruct Hstep as [->|[p [_ [Hacc Hp]]]]; [apply IH|].
    exfalso. destruct Hacc as [Hvalid [Hmodes _]]. destruct Hp as [Hx [Hy _]].
    destruct (Hunusable (linearIdx_of self (fst (fst p)) (snd (fst p)))) as [Hneg|Hnone].
    + unfold linearIdx_of. fold (image_width self). nia.
    + rewrite float_lt_true in Hvalid by exact Hneg. discriminate.
    + exact (Hmodes Hnone).
Qed.

Lemma generate_pose_candidates_loop_unusable self omp_get_thread_num remaining :
  (forall eng, fst (select_pixels_and_modes self (Z.to_nat maxIterationsInner) [] eng) = []) ->
  forall i engs poseCandidates,
  generate_pose_candidates_loop self omp_get_thread_num remaining i engs poseCandidates
  = poseCandidates.
Proof.
  intros Hnothing.
  induction remaining as [|remaining IH]; intros i engs poseCandidates;
    cbn [generate_pose_candidates_loop]; [reflexivity|].
  rewrite hypothesize_pose_single_attempt.
  pose proof (Hnothing (nth (omp_get_thread_num i) engs (mt19937_seed 1))) as Hsel.
  destruct (select_pixels_and_modes self (Z.to_nat maxIterationsInner) []
              (nth (omp_get_thread_num i) engs (mt19937_seed 1))) as [selected eng'].
  cbn [fst] in Hsel. subst selected.
  destruct (_ =? _)%nat; cbn [andb negb std.empty candidate_of inliers tmpInliers_of map];
    apply IH.
Qed.

Lemma estimate_pose_from_nil self : estimate_pose_from self [] = Ok None.
Proof.
  unfold estimate_pose_from, first_trim. cbn [length Nat.ltb Nat.leb bind].
  rewrite ransac_loop_single by (cbn; lia). reflexivity.
Qed.

(** ** What scoring and trimming keep of a candidate *)

(** [c] is [c0] with the same pose and [cameraId], and with inliers that
    continue those of [c0] by sampled pixels, which carry the mode index
    [-1]. *)
Definition extends (c0 c : PoseCandidate) : Prop :=
  cameraPose c = cameraPose c0
  /\ cameraId c = cameraId c0
  /\ exists extra,
       inliers c = inliers c0 ++ extra
       /\ Forall (fun inlier => snd inlier = (-1)%Z) extra.

Lemma extends_refl c : extends c c.
Proof.
  split; [reflexivity|]. split; [reflexivity|].
  exists []. rewrite app_nil_r. split; [reflexivity|constructor].
Qed.

Lemma extends_trans c0 c1 c2 : extends c0 c1 -> extends c1 c2 -> extends c0 c2.
Proof.
  intros [Hp1 [Hi1 [e1 [He1 Hm1]]]] [Hp2 [Hi2 [e2 [He2 Hm2]]]].
  split; [congruence|]. split; [congruence|].
  exists (e1 ++ e2). split.
  - rewrite He2, He1, app_assoc. reflexivity.
  - apply Forall_app. split; assumption.
Qed.

(** Every candidate of [current] extends a candidate of [original]. *)
Definition descend (original current : list PoseCandidate) : Prop :=
  Forall (fun c => exists c0, In c0 original /\ extends c0 c) current.

Lemma descend_refl candidates : descend candidates candidates.
Proof.
  apply Forall_forall. intros c Hin. exists c. split; [exact Hin|apply extends_refl].
Qed.

Lemma descend_trans original middle current :
  descend original middle -> descend middle current -> descend original current.
Proof.
  unfold descend. rewrite !Forall_forall. intros H1 H2 c Hc.
  destruct (H2 c Hc) as [c1 [Hc1 He1]]. destruct (H1 c1 Hc1) as [c0 [Hc0 He0]].
  exists c0. split; [exact Hc0|]. eapply extends_trans; eassumption.
Qed.

Lemma descend_firstn original current n :
  descend original current -> descend original (firstn n current).
Proof. apply Forall_firstn_keep. Qed.

Lemma update_inliers_for_optimization_descend self sampledPixelIdx poseCandidates :
  descend poseCandidates
    (update_inliers_for_optimization self sampledPixelIdx poseCandidates).
Proof.
  unfold descend, update_inliers_for_optimization. apply Forall_map.
  apply Forall_forall. intros c Hin. exists c. split; [exact Hin|].
  split; [reflexivity|]. split; [reflexivity|].
  eexists. cbn [set_inliers inliers]. split; [reflexivity|].
  apply Forall_map. apply Forall_forall. intros [x y] _. reflexivity.
Qed.

Lemma Forall2_In_right {A B : Type} (R : A -> B -> Prop) l l' b :
  Forall2 R l l' -> In b l' -> exists a, In a l /\ R a b.
Proof.
  induction 1 as [|a0 b0 l l' Hab _ IH]; intros Hin; [destruct Hin|].
  destruct Hin as [<-|Hin].
  - exists a0. split; [left; reflexivity|exact Hab].
  - destruct (IH Hin) as [a [Ha HR]]. exists a. split; [right; exact Ha|exact HR].
Qed.

(** Scoring and sorting: the same candidates in ascending order of the
    energies just computed. *)
Lemma compute_and_sort_energies_spec self poseCandidates sorted :
  compute_and_sort_energies self poseCandidates = Ok sorted ->
  StronglySorted energy_le sorted
  /\ exists scored,
       Permutation sorted scored
       /\ Forall2 (fun c c' => exists value,
                     compute_pose_energy self (cameraPose c) (inliers c) = Ok value
                     /\ c' = set_energy c value)
                  poseCandidates scored.
Proof.
  unfold compute_and_sort_energies. intros Hsorted.
  destruct (compute_energies self poseCandidates) as [scored|] eqn:Hscored;
    cbn [bind] in Hsorted; [|discriminate].
  injection Hsorted as <-. split; [apply sort_by_energy_sorted|].
  exists scored. split; [apply sort_by_energy_perm|].
  apply compute_energies_rest. exact Hscored.
Qed.

Lemma compute_and_sort_energies_In self poseCandidates sorted c' :
  compute_and_sort_energies self poseCandidates = Ok sorted ->
  In c' sorted ->
  exists c value,
    In c poseCandidates
    /\ compute_pose_energy self (cameraPose c) (inliers c) = Ok value
    /\ c' = set_energy c value.
Proof.
  intros Hsorted Hin.
  destruct (compute_and_sort_energies_spec _ _ _ Hsorted) as [_ [scored [Hperm Hall]]].
  destruct (Forall2_In_right _ _ _ c' Hall (Permutation_in _ Hperm Hin))
    as [c [Hc [value [Hvalue ->]]]].
  exists c, value. repeat split; assumption.
Qed.

Lemma compute_and_sort_energies_descend self poseCandidates sorted :
  compute_and_sort_energies self poseCandidates = Ok sorted ->
  descend poseCandidates sorted.
Proof.
  intros Hsorted. apply Forall_forall. intros c' Hin.
  destruct (compute_and_sort_energies_In _ _ _ _ Hsorted Hin) as [c [value [Hc [_ ->]]]].
  exists c. split; [exact Hc|].
  split; [reflexivity|]. split; [reflexivity|].
  exists []. cbn [set_energy inliers]. rewrite app_nil_r. split; [reflexivity|constructor].
Qed.

Lemma ransac_iteration_descend self mask eng candidates mask' eng' candidates' :
  ransac_iteration self mask eng candidates = Ok (mask', eng', candidates') ->
  descend candidates candidates'.
Proof.
  unfold ransac_iteration. intros Hiter.
  destruct (sample_pixels_for_ransac self mask [] eng (m_batchSizeRansac self))
    as [[mask1 sampled] eng1].
  pose proof (update_inliers_for_optimization_descend self sampled candidates) as Hup.
  set (updated := update_inliers_for_optimization self sampled candidates) in *.
  assert (Hrefined : forall refined,
             (if m_poseUpdate self then update_candidate_poses self updated
              else Ok updated) = Ok refined -> refined = updated).
  { intros refined Href. destruct (m_poseUpdate self).
    - eapply update_candidate_poses_ok. exact Href.
    - injection Href as <-. reflexivity. }
  destruct (if m_poseUpdate self then update_candidate_poses self updated
            else Ok updated) as [refined|]; cbn [bind] in Hiter; [|discriminate].
  rewrite (Hrefined refined eq_refl) in Hiter.
  destruct (compute_and_sort_energies self updated) as [sorted|] eqn:Hsorted;
    cbn [bind] in Hiter; [|discriminate].
  injection Hiter as _ _ <-.
  apply descend_firstn. eapply descend_trans; [exact Hup|].
  eapply compute_and_sort_energies_descend. exact Hsorted.
Qed.

Lemma ransac_loop_descend self mask eng candidates final :
  ransac_loop self mask eng candidates = Ok final -> descend candidates final.
Proof.
  funelim (ransac_loop self mask eng candidates); intros Hloop.
  - injection Hloop as <-. apply descend_refl.
  - eapply descend_trans; [|apply H; exact Hloop].
    eapply ransac_iteration_descend. exact Hbody.
  - discriminate Hloop.
Qed.

Lemma cap_inliers_extends n c0 c :
  length (inliers c0) = n -> extends c0 c -> extends c0 (cap_inliers n c).
Proof.
  intros Hlen [Hpose [Hid [extra [Hinliers Hmodes]]]]. unfold cap_inliers.
  destruct (_ <? _)%nat.
  - split; [exact Hpose|]. split; [exact Hid|].
    cbn [set_inliers inliers]. exists (firstn (n - length (inliers c0)) extra).
    split.
    + rewrite Hinliers, firstn_app, firstn_all2 by lia. reflexivity.
    + apply Forall_firstn_keep. exact Hmodes.
  - split; [exact Hpose|]. split; [exact Hid|]. exists extra. split; assumption.
Qed.

Lemma first_trim_descend self eng candidates eng' candidates' n :
  Forall (fun c => length (inliers c) = n) candidates ->
  first_trim self eng candidates = Ok (eng', candidates') ->
  descend candidates candidates'.
Proof.
  unfold first_trim. intros Hsame Htrim.
  destruct (_ <? length candidates)%nat eqn:Hmany.
  - destruct (sample_pixels_for_ransac self [] [] eng (m_batchSizeRansac self))
      as [[mask1 sampled] eng1].
    destruct (compute_and_sort_energies self
                (update_inliers_for_optimization self sampled candidates))
      as [sorted|] eqn:Hsorted; cbn [bind] in Htrim; [|discriminate].
    injection Htrim as _ <-.
    assert (Hkept : descend candidates
                      (firstn (m_trimKinitAfterFirstEnergyComputation self) sorted)).
    { apply descend_firstn.
      eapply descend_trans; [apply update_inliers_for_optimization_descend|].
      eapply compute_and_sort_energies_descend. exact Hsorted. }
    destruct (1 <? _)%nat; [|exact Hkept].
    assert (Hfirst : length (inliers (nth 0 candidates PoseCandidate_default)) = n).
    { apply Nat.ltb_lt in Hmany. destruct candidates as [|c0 rest]; [cbn in Hmany; lia|].
      inversion Hsame; subst. reflexivity. }
    rewrite Hfirst. unfold descend. apply Forall_map.
    eapply Forall_impl; [|exact Hkept]. cbn beta.
    intros c [c0 [Hc0 Hext]]. exists c0. split; [exact Hc0|].
    apply cap_inliers_extends; [|exact Hext].
    rewrite Forall_forall in Hsame. apply Hsame. exact Hc0.
  - injection Htrim as _ <-. apply descend_refl.
Qed.

Lemma generated_same_size self omp_get_thread_num :
  Forall (fun c => length (inliers c) = m_nbPointsForKabschBoostrap self)
         (generate_pose_candidates self omp_get_thread_num []).
Proof.
  unfold generate_pose_candidates.
  destruct (generate_pose_candidates_loop_spec self omp_get_thread_num
              (m_kInitRansac self) 0%Z seeded_engines [])
    as [generated [Hloop [_ [_ Hall]]]].
  rewrite Hloop. cbn [app]. eapply Forall_impl; [|exact Hall]. cbn beta.
  intros c [_ [_ [selected [_ [Hsize [_ [Hinliers _]]]]]]].
  rewrite Hinliers, tmpInliers_of_length. exact Hsize.
Qed.

Lemma estimate_pose_descend self omp_get_thread_num c :
  estimate_pose self omp_get_thread_num = Ok (Some c) ->
  exists c0,
    In c0 (generate_pose_candidates self omp_get_thread_num []) /\ extends c0 c.
Proof.
  unfold estimate_pose, estimate_pose_from. intros Hest.
  set (generated := generate_pose_candidates self omp_get_thread_num []) in *.
  destruct (first_trim self default_engine generated) as [[eng1 trimmed]|] eqn:Htrim;
    cbn [bind] in Hest; [|discriminate].
  destruct (ransac_loop self _ eng1 trimmed) as [final|] eqn:Hloop;
    cbn [bind] in Hest; [|discriminate].
  pose proof (descend_trans _ _ _
                (first_trim_descend _ _ _ _ _ _
                   (generated_same_size self omp_get_thread_num) Htrim)
                (ransac_loop_descend _ _ _ _ _ Hloop)) as Hdesc.
  destruct final as [|c1 final]; cbn in Hest; [discriminate|].
  injection Hest as <-. inversion Hdesc; subst. assumption.
Qed.

(** ** The energy reads pixels, not modes *)

Lemma compute_pose_energy_loop_pixels self pose :
  forall inliers1 inliers2 totalEnergy,
  map fst inliers1 = map fst inliers2 ->
  compute_pose_energy_loop self pose inliers1 totalEnergy
  = compute_pose_energy_loop self pose inliers2 totalEnergy.
Proof.
  induction inliers1 as [|[i1 m1] rest1 IH]; intros [|[i2 m2] rest2] totalEnergy Hsame;
    try discriminate; [reflexivity|].
  cbn [map fst] in Hsame. injection Hsame as <- Hrest.
  cbn [compute_pose_energy_loop].
  destruct (get_best_mode_and_energy _ _) as [argmax value].
  destruct (argmax <? 0)%Z; [reflexivity|].
  destruct (_ =? 0)%nat; [reflexivity|].
  apply IH. exact Hrest.
Qed.

(** ** The first trim *)

Lemma StronglySorted_firstn {A : Type} (R : A -> A -> Prop) n l :
  StronglySorted R l -> StronglySorted R (firstn n l).
Proof.
  intros Hl. revert n. induction Hl as [|a l Hl IH Ha]; intros [|n]; cbn;
    try constructor; [apply IH|apply Forall_firstn_keep; exact Ha].
Qed.

Lemma StronglySorted_energy_map (f : PoseCandidate -> PoseCandidate) l :
  (forall c, energy (f c) = energy c) ->
  StronglySorted energy_le l -> StronglySorted energy_le (map f l).
Proof.
  intros Hf. induction 1 as [|a l Hl IH Ha]; cbn [map]; constructor; [exact IH|].
  apply Forall_map. eapply Forall_impl; [|exact Ha].
  intros b Hab. unfold energy_le in *. rewrite !Hf. exact Hab.
Qed.

Lemma cap_inliers_energy n c : energy (cap_inliers n c) = energy c.
Proof. unfold cap_inliers. destruct (_ <? _)%nat; reflexivity. Qed.

Lemma cap_inliers_restores n c0 c :
  length (inliers c0) = n -> extends c0 c -> inliers (cap_inliers n c) = inliers c0.
Proof.
  intros Hlen [_ [_ [extra [Hinliers _]]]]. unfold cap_inliers.
  destruct (_ <? _)%nat eqn:Hmore.
  - cbn [set_inliers inliers].
    rewrite Hinliers, firstn_app, firstn_all2 by lia.
    replace (n - length (inliers c0))%nat with O by lia.
    cbn [firstn]. apply app_nil_r.
  - apply Nat.ltb_ge in Hmore. rewrite Hinliers, length_app in Hmore.
    destruct extra as [|e extra]; [|cbn [length] in Hmore; lia].
    rewrite Hinliers. apply app_nil_r.
Qed.

Lemma cap_inliers_pose n c :
  cameraPose (cap_inliers n c) = cameraPose c /\ cameraId (cap_inliers n c) = cameraId c.
Proof. unfold cap_inliers. destruct (_ <? _)%nat; split; reflexivity. Qed.

Lemma first_trim_spec self eng candidates eng' candidates' n :
  Forall (fun c => length (inliers c) = n) candidates ->
  first_trim self eng candidates = Ok (eng', candidates') ->
  ((length candidates <= m_trimKinitAfterFirstEnergyComputation self)%nat ->
   candidates' = candidates /\ eng' = eng)
  /\ ((m_trimKinitAfterFirstEnergyComputation self < length candidates)%nat ->
      length candidates' = m_trimKinitAfterFirstEnergyComputation self
      /\ StronglySorted energy_le candidates'
      /\ ((1 < m_trimKinitAfterFirstEnergyComputation self)%nat ->
          Forall (fun c' => exists c0,
                    In c0 candidates
                    /\ cameraPose c' = cameraPose c0
                    /\ cameraId c' = cameraId c0
                    /\ inliers c' = inliers c0)
                 candidates')).
Proof.
  unfold first_trim. intros Hsame Htrim. split.
  - intros Hfew. rewrite (proj2 (Nat.ltb_ge _ _) Hfew) in Htrim.
    injection Htrim as <- <-. split; reflexivity.
  - intros Hmany. rewrite (proj2 (Nat.ltb_lt _ _) Hmany) in Htrim.
    destruct (sample_pixels_for_ransac self [] [] eng (m_batchSizeRansac self))
      as [[mask1 sampled] eng1].
    destruct (compute_and_sort_energies self
                (update_inliers_for_optimization self sampled candidates))
      as [sorted|] eqn:Hsorted; cbn [bind] in Htrim; [|discriminate].
    injection Htrim as _ <-.
    pose proof (compute_and_sort_energies_length _ _ _ Hsorted) as Hlen.
    rewrite update_inliers_for_optimization_length in Hlen.
    destruct (compute_and_sort_energies_spec _ _ _ Hsorted) as [Hord _].
    assert (Hkept : descend candidates
                      (firstn (m_trimKinitAfterFirstEnergyComputation self) sorted)).
    { apply descend_firstn.
      eapply descend_trans; [apply update_inliers_for_optimization_descend|].
      eapply compute_and_sort_energies_descend. exact Hsorted. }
    assert (Hfirst : length (inliers (nth 0 candidates PoseCandidate_default)) = n).
    { destruct candidates as [|c0 rest]; [cbn in Hmany; lia|].
      inversion Hsame; subst. reflexivity. }
    rewrite Hfirst.
    destruct (1 <? m_trimKinitAfterFirstEnergyComputation self)%nat eqn:Hcap.
    + split; [rewrite length_map, firstn_length_le by lia; reflexivity|].
      split.
      * apply StronglySorted_energy_map; [apply cap_inliers_energy|].
        apply StronglySorted_firstn. exact Hord.
      * intros _. apply Forall_map. eapply Forall_impl; [|exact Hkept]. cbn beta.
        intros c [c0 [Hc0 Hext]]. exists c0. split; [exact Hc0|].
        destruct (cap_inliers_pose n c) as [Hpose Hid].
        destruct Hext as [Hp [Hi Hrest]].
        split; [congruence|]. split; [congruence|].
        apply cap_inliers_restores.
        -- rewrite Forall_forall in Hsame. apply Hsame. exact Hc0.
        -- split; [exact Hp|]. split; [exact Hi|exact Hrest].
    + split; [rewrite firstn_length_le by lia; reflexivity|].
      split; [apply StronglySorted_firstn; exact Hord|].
      intros Hbig. apply Nat.ltb_ge in Hcap. lia.
Qed.

(** ** The rigidity check *)

Definition inlier_localPt (self : t) (inlier : Z * Z) : ORUtils.Vector3f :=
  ORUtils.toVector3 (RGBDPatchFeature.position (patchFeaturesData self (fst inlier))).

(** Two inlier pairs whose camera-space points are at least the minimum
    distance apart, and as far apart as their modes up to half the
    translation error. *)
Definition rigid_pair (self : t) (p q : Z * Z) : Prop :=
  let distLocal :=
    ORUtils.length (ORUtils.Vector3f_sub (inlier_localPt self p) (inlier_localPt self q)) in
  let distWorld :=
    ORUtils.length (ORUtils.Vector3f_sub (inlier_worldPt self p) (inlier_worldPt self q)) in
  (m_minDistanceBetweenSampledModes self <= distLocal)%R
  /\ (Rabs (distLocal - distWorld) <= 0.5 * m_translationErrorMaxForCorrectPose self)%R.

Lemma rigid_pair_sym self p q : rigid_pair self p q -> rigid_pair self q p.
Proof.
  unfold rigid_pair. cbn zeta.
  rewrite (length_sub_sym (inlier_localPt self q)), (length_sub_sym (inlier_worldPt self q)).
  exact (fun H => H).
Qed.

Lemma localPt_of_inlier self p :
  localPt_of self p
  = inlier_localPt self (linearIdx_of self (fst (fst p)) (snd (fst p)), snd p).
Proof. destruct p as [[x y] modeIdx]. reflexivity. Qed.

Lemma violatesConditions_rigid self selected worldPtCur localCur :
  violatesConditions self selected worldPtCur localCur = false ->
  Forall (fun first =>
            let distLocal :=
              ORUtils.length (ORUtils.Vector3f_sub (localPt_of self first) localCur) in
            let distWorld :=
              ORUtils.length (ORUtils.Vector3f_sub (worldPt_of self first) worldPtCur) in
            (m_minDistanceBetweenSampledModes self <= distLocal)%R
            /\ (Rabs (distLocal - distWorld)
                <= 0.5 * m_translationErrorMaxForCorrectPose self)%R)
         selected.
Proof.
  unfold violatesConditions. intros Hnone. apply Forall_forall. intros first Hin.
  cbn zeta.
  destruct (float_lt_spec
              (ORUtils.length (ORUtils.Vector3f_sub (localPt_of self first) localCur))
              (m_minDistanceBetweenSampledModes self)) as [Hclose|Hfar].
  - exfalso. assert (Hex : existsb
        (fun first0 =>
           float_lt (ORUtils.length (ORUtils.Vector3f_sub (localPt_of self first0) localCur))
                    (m_minDistanceBetweenSampledModes self)
           || float_gt
                (Rabs (ORUtils.length (ORUtils.Vector3f_sub (localPt_of self first0) localCur)
                       - ORUtils.length (ORUtils.Vector3f_sub (worldPt_of self first0) worldPtCur)))
                (0.5 * m_translationErrorMaxForCorrectPose self))
        selected = true).
    { apply existsb_exists. exists first. split; [exact Hin|].
      rewrite float_lt_true by exact Hclose. reflexivity. }
    rewrite Hex in Hnone. discriminate.
  - split; [lra|].
    destruct (float_lt_spec
                (0.5 * m_translationErrorMaxForCorrectPose self)
                (Rabs (ORUtils.length (ORUtils.Vector3f_sub (localPt_of self first) localCur)
                       - ORUtils.length (ORUtils.Vector3f_sub (worldPt_of self first) worldPtCur))))
      as [Hoff|Hok]; [|lra].
    exfalso. assert (Hex : existsb
        (fun first0 =>
           float_lt (ORUtils.length (ORUtils.Vector3f_sub (localPt_of self first0) localCur))
                    (m_minDistanceBetweenSampledModes self)
           || float_gt
                (Rabs (ORUtils.length (ORUtils.Vector3f_sub (localPt_of self first0) localCur)
                       - ORUtils.length (ORUtils.Vector3f_sub (worldPt_of self first0) worldPtCur)))
                (0.5 * m_translationErrorMaxForCorrectPose self))
        selected = true).
    { apply existsb_exists. exists first. split; [exact Hin|].
      unfold float_gt. rewrite (float_lt_true _ _ Hoff). apply orb_true_r. }
    rewrite Hex in Hnone. discriminate.
Qed.

Lemma selection_rigid self selected :
  m_checkRigidTransformationConstraint self = true ->
  selection self selected ->
  ForallOrdPairs (rigid_pair self) (tmpInliers_of self selected).
Proof.
  intros Hflag. induction 1 as [|selected p Hsel IH Hacc].
  - constructor.
  - rewrite tmpInliers_of_push. apply ForallOrdPairs_push; [exact IH|].
    destruct Hacc as [_ [_ [_ [_ Hrigid]]]]. specialize (Hrigid Hflag).
    apply violatesConditions_rigid in Hrigid.
    unfold tmpInliers_of. apply Forall_map.
    eapply Forall_impl; [|exact Hrigid].
    intros other Hother. cbn beta zeta in Hother. unfold rigid_pair. cbn zeta.
    destruct other as [[x y] modeIdx]. exact Hother.
Qed.

End WithExternals.

(** ** Sampling under a mask *)

Lemma vector_set_length {A : Type} (v : list A) i a :
  length (std.vector_set v i a) = length v.
Proof.
  revert i. induction v as [|b v IH]; intros i; cbn; [reflexivity|].
  destruct i; cbn; [reflexivity|]. rewrite IH. reflexivity.
Qed.

Lemma vector_set_nth_same {A : Type} (v : list A) i a d :
  (i < length v)%nat -> nth i (std.vector_set v i a) d = a.
Proof.
  revert i. induction v as [|b v IH]; intros i Hi; cbn in Hi; [lia|].
  destruct i; cbn; [reflexivity|]. apply IH. lia.
Qed.

Lemma vector_set_nth_other {A : Type} (v : list A) i j a d :
  i <> j -> nth j (std.vector_set v i a) d = nth j v d.
Proof.
  revert i j. induction v as [|b v IH]; intros i j Hij; cbn; [reflexivity|].
  destruct i; destruct j; cbn; try reflexivity; [lia|]. apply IH. lia.
Qed.

(** The pixel index of a sampled pair, as an index into the mask. *)
Definition mask_index (self : t) (s : Z * Z) : nat :=
  Z.to_nat (linearIdx_of self (fst s) (snd s)).

(** What the search for one slot of the batch does. *)
Lemma sample_valid_pixel_spec self remaining :
  (0 < image_width self)%Z -> (0 < image_height self)%Z ->
  forall mask sampled eng,
  let '(validIndex, mask', sampled', eng') :=
    sample_valid_pixel self remaining mask sampled eng in
  drew eng eng' 0 (2 * remaining)
  /\ ((validIndex = false /\ mask' = mask /\ sampled' = sampled)
      \/ (validIndex = true
          /\ exists s,
               sampled' = sampled ++ [s]
               /\ (0 <= fst s < image_width self)%Z
               /\ (0 <= snd s < image_height self)%Z
               /\ ((mask = [] /\ mask' = [])
                   \/ (mask <> []
                       /\ nth (mask_index self s) mask false = false
                       /\ mask' = std.vector_set mask (mask_index self s) true)))).
Proof.
  intros Hw Hh.
  induction remaining as [|remaining IH]; intros mask sampled eng;
    cbn [sample_valid_pixel].
  - split; [split; [reflexivity|lia]|]. left. repeat split.
  - pose proof (uniform_int_distribution_range (image_width self - 1) eng ltac:(lia)) as Hx.
    pose proof (uniform_int_distribution_drew 0 (image_width self - 1) eng) as Hd1.
    unfold col_index_generator. fold (image_width self).
    destruct (std.uniform_int_distribution 0 (image_width self - 1) eng) as [first eng1].
    pose proof (uniform_int_distribution_range (image_height self - 1) eng1 ltac:(lia)) as Hy.
    pose proof (uniform_int_distribution_drew 0 (image_height self - 1) eng1) as Hd2.
    unfold row_index_generator. fold (image_height self).
    destruct (std.uniform_int_distribution 0 (image_height self - 1) eng1) as [second eng2].
    cbn [fst snd] in Hx, Hy, Hd1, Hd2.
    pose proof (drew_trans _ _ _ _ _ _ _ Hd1 Hd2) as Hd12. cbn in Hd12.
    assert (Hagain :
              let '(validIndex, mask', sampled', eng') :=
                sample_valid_pixel self remaining mask sampled eng2 in
              drew eng eng' 0 (2 * S remaining)
              /\ ((validIndex = false /\ mask' = mask /\ sampled' = sampled)
                  \/ (validIndex = true
                      /\ exists s,
                           sampled' = sampled ++ [s]
                           /\ (0 <= fst s < image_width self)%Z
                           /\ (0 <= snd s < image_height self)%Z
                           /\ ((mask = [] /\ mask' = [])
                               \/ (mask <> []
                                   /\ nth (mask_index self s) mask false = false
                                   /\ mask' = std.vector_set mask (mask_index self s) true))))).
    { specialize (IH mask sampled eng2).
      destruct (sample_valid_pixel self remaining mask sampled eng2)
        as [[[validIndex mask'] sampled'] eng'].
      destruct IH as [Hd Hrest]. split; [|exact Hrest].
      pose proof (drew_trans _ _ _ _ _ _ _ Hd12 Hd) as Hboth.
      eapply drew_weaken; [exact Hboth|lia|lia]. }
    destruct (float_ge _ 0); [|exact Hagain].
    destruct (0 <? _)%nat; [|exact Hagain].
    destruct mask as [|b mask].
    + cbn [std.empty orb negb]. split; [eapply drew_weaken; [exact Hd12|lia|lia]|].
      right. split; [reflexivity|]. exists (first, second). cbn [fst snd].
      split; [reflexivity|]. split; [lia|]. split; [lia|]. left. split; reflexivity.
    + cbn [std.empty orb negb].
      destruct (nth (Z.to_nat (linearIdx_of self first second)) (b :: mask) false) eqn:Hmasked;
        cbn [negb]; [exact Hagain|].
      split; [eapply drew_weaken; [exact Hd12|lia|lia]|].
      right. split; [reflexivity|]. exists (first, second). cbn [fst snd].
      split; [reflexivity|]. split; [lia|]. split; [lia|]. right.
      split; [discriminate|]. split; [exact Hmasked|reflexivity].
Qed.

(** The batch loop over a mask that covers the image. *)
Lemma sample_pixels_for_ransac_loop_spec self :
  (0 < image_width self)%Z -> (0 < image_height self)%Z ->
  forall batchSize mask sampled eng,
  length mask = Z.to_nat (image_width self * image_height self) ->
  let '(mask', sampled', eng') :=
    sample_pixels_for_ransac_loop self batchSize mask sampled eng in
  exists new,
    sampled' = sampled ++ new
    /\ (length new <= batchSize)%nat
    /\ length mask' = length mask
    /\ Forall (fun s => (0 <= fst s < image_width self)%Z
                        /\ (0 <= snd s < image_height self)%Z) new
    /\ NoDup (map (mask_index self) new)
    /\ Forall (fun s => nth (mask_index self s) mask false = false) new
    /\ (forall i, nth i mask' false = true
                  <-> nth i mask false = true \/ In i (map (mask_index self) new))
    /\ drew eng eng' 0 (100 * batchSize).
Proof.
  intros Hw Hh.
  induction batchSize as [|batchSize IH]; intros mask sampled eng Hcover;
    cbn [sample_pixels_for_ransac_loop].
  - exists []. rewrite app_nil_r. cbn [length map].
    repeat split; try constructor; try lia; try tauto.
    intros [H|[]]; exact H.
  - pose proof (sample_valid_pixel_spec self 50 Hw Hh mask sampled eng) as Hslot.
    destruct (sample_valid_pixel self 50 mask sampled eng)
      as [[[validIndex mask1] sampled1] eng1].
    destruct Hslot as [Hd [[-> [-> ->]]|[-> [s [-> [Hx [Hy Hmask]]]]]]]; cbn [negb].
    + exists []. rewrite app_nil_r. cbn [length map].
      split; [reflexivity|]. split; [lia|]. split; [reflexivity|].
      split; [constructor|]. split; [constructor|]. split; [constructor|].
      split; [intros i; split; [tauto|intros [H|[]]; exact H]|].
      eapply drew_weaken; [exact Hd|lia|lia].
    + assert (Hnonempty : mask <> []).
      { intros ->. cbn [length] in Hcover. nia. }
      destruct Hmask as [[Hnil _]|[_ [Hfree ->]]]; [contradiction|].
      assert (Hin : (mask_index self s < length mask)%nat).
      { rewrite Hcover. unfold mask_index, linearIdx_of. fold (image_width self). nia. }
      specialize (IH (std.vector_set mask (mask_index self s) true) (sampled ++ [s]) eng1).
      rewrite vector_set_length in IH. specialize (IH Hcover).
      destruct (sample_pixels_for_ransac_loop self batchSize
                  (std.vector_set mask (mask_index self s) true) (sampled ++ [s]) eng1)
        as [[mask' sampled'] eng'].
      destruct IH as [new [-> [Hlen [Hlength [Hbounds [Hdistinct [Hfresh [Hmarks Hd']]]]]]]].
      exists (s :: new). rewrite <- app_assoc. cbn [app length map].
      split; [reflexivity|]. split; [lia|]. split; [exact Hlength|].
      split; [constructor; [split; assumption|exact Hbounds]|].
      assert (Hothers : Forall (fun s' => mask_index self s' <> mask_index self s) new).
      { eapply Forall_impl; [|exact Hfresh]. cbn beta. intros s' Hs' Heq.
        rewrite Heq, vector_set_nth_same in Hs' by exact Hin. discriminate. }
      split.
      { constructor; [|exact Hdistinct].
        intros Hdup. apply in_map_iff in Hdup. destruct Hdup as [s' [Heq Hs']].
        rewrite Forall_forall in Hothers. exact (Hothers s' Hs' Heq). }
      split.
      { constructor; [exact Hfree|].
        rewrite Forall_forall in Hfresh, Hothers |- *. intros s' Hs'.
        rewrite <- (vector_set_nth_other mask (mask_index self s) (mask_index self s') true false).
        - apply Hfresh. exact Hs'.
        - intros Heq. exact (Hothers s' Hs' (eq_sym Heq)). }
      split.
      { intros i. rewrite Hmarks.
        destruct (Nat.eq_dec (mask_index self s) i) as [<-|Hne].
        - rewrite vector_set_nth_same by exact Hin.
          split; intros _; [right; left; reflexivity|left; reflexivity].
        - rewrite vector_set_nth_other by exact Hne. split.
          + intros [H|H]; [left; exact H|right; right; exact H].
          + intros [H|[H|H]]; [left; exact H|contradiction|right; exact H]. }
      pose proof (drew_trans _ _ _ _ _ _ _ Hd Hd') as Hboth.
      eapply drew_weaken; [exact Hboth|lia|lia].
Qed.

Section WithExternals.

Context {externals : Externals}.

(** ** The energy of the candidate that is returned *)

(** The energy stored in [c] is the energy of its pose over its inliers. *)
Definition scored (self : t) (c : PoseCandidate) : Prop :=
  compute_pose_energy self (cameraPose c) (inliers c) = Ok (energy c).

Lemma compute_and_sort_energies_scored self poseCandidates sorted :
  compute_and_sort_energies self poseCandidates = Ok sorted ->
  Forall (scored self) sorted.
Proof.
  intros Hsorted. apply Forall_forall. intros c' Hin.
  destruct (compute_and_sort_energies_In _ _ _ _ Hsorted Hin)
    as [c [value [_ [Hvalue ->]]]].
  exact Hvalue.
Qed.

(** What a completed iteration did: it sampled [new], appended it to the
    inliers of every candidate, scored the candidates and kept some. *)
Lemma ransac_iteration_sampled self mask eng candidates mask' eng' candidates' :
  ransac_iteration self mask eng candidates = Ok (mask', eng', candidates') ->
  exists new,
    sample_pixels_for_ransac self mask [] eng (m_batchSizeRansac self)
    = (mask', new, eng')
    /\ Forall (scored self) candidates'
    /\ Forall (fun c' => exists c,
                 In c candidates
                 /\ cameraPose c' = cameraPose c
                 /\ cameraId c' = cameraId c
                 /\ inliers c'
                    = inliers c
                      ++ map (fun s => (linearIdx_of self (fst s) (snd s), (-1)%Z)) new)
              candidates'.
Proof.
  unfold ransac_iteration. intros Hiter.
  destruct (sample_pixels_for_ransac self mask [] eng (m_batchSizeRansac self))
    as [[mask1 sampled] eng1].
  set (updated := update_inliers_for_optimization self sampled candidates) in *.
  assert (Hrefined : forall refined,
             (if m_poseUpdate self then update_candidate_poses self updated
              else Ok updated) = Ok refined -> refined = updated).
  { intros refined Href. destruct (m_poseUpdate self).
    - eapply update_candidate_poses_ok. exact Href.
    - injection Href as <-. reflexivity. }
  destruct (if m_poseUpdate self then update_candidate_poses self updated
            else Ok updated) as [refined|]; cbn [bind] in Hiter; [|discriminate].
  rewrite (Hrefined refined eq_refl) in Hiter.
  destruct (compute_and_sort_energies self updated) as [sorted|] eqn:Hsorted;
    cbn [bind] in Hiter; [|discriminate].
  injection Hiter as <- <- <-.
  exists sampled. split; [reflexivity|]. split.
  - apply Forall_firstn_keep. eapply compute_and_sort_energies_scored. exact Hsorted.
  - apply Forall_firstn_keep. apply Forall_forall. intros c' Hin.
    destruct (compute_and_sort_energies_In _ _ _ _ Hsorted Hin)
      as [c1 [value [Hc1 [_ ->]]]].
    unfold updated, update_inliers_for_optimization in Hc1.
    apply in_map_iff in Hc1. destruct Hc1 as [c [<- Hc]].
    exists c. split; [exact Hc|]. cbn [set_energy set_inliers cameraPose cameraId inliers].
    split; [reflexivity|]. split; [reflexivity|].
    f_equal. apply map_ext. intros [x y]. reflexivity.
Qed.

Lemma ransac_loop_scored self mask eng candidates final :
  ransac_loop self mask eng candidates = Ok final ->
  (1 < length candidates)%nat \/ Forall (scored self) candidates ->
  Forall (scored self) final.
Proof.
  funelim (ransac_loop self mask eng candidates); intros Hloop Hstart.
  - injection Hloop as <-. destruct Hstart as [Hmany|Hall]; [|exact Hall].
    pose proof (proj1 (Nat.ltb_ge _ _) e). lia.
  - apply (H _ Hloop). right.
    destruct (ransac_iteration_sampled _ _ _ _ _ _ _ Hbody) as [new [_ [Hscored _]]].
    exact Hscored.
  - discriminate Hloop.
Qed.

(** ** The sampled inliers of the candidate that is returned *)




Lemma first_trim_length self eng candidates eng' candidates' :
  first_trim self eng candidates = Ok (eng', candidates') ->
  length candidates'
  = Nat.min (length candidates) (m_trimKinitAfterFirstEnergyComputation self).
Proof.
  unfold first_trim. intros Htrim.
  destruct (_ <? length candidates)%nat eqn:Hmany.
  - apply Nat.ltb_lt in Hmany.
    destruct (sample_pixels_for_ransac self [] [] eng (m_batchSizeRansac self))
      as [[mask1 sampled] eng1].
    destruct (compute_and_sort_energies self
                (update_inliers_for_optimization self sampled candidates))
      as [sorted|] eqn:Hsorted; cbn [bind] in Htrim; [|discriminate].
    injection Htrim as _ <-.
    apply compute_and_sort_energies_length in Hsorted.
    rewrite update_inliers_for_optimization_length in Hsorted.
    assert (Hkept : length (firstn (m_trimKinitAfterFirstEnergyComputation self) sorted)
                    = m_trimKinitAfterFirstEnergyComputation self)
      by (apply firstn_length_le; lia).
    destruct (1 <? _)%nat; [rewrite length_map|]; rewrite Hkept; lia.
  - apply Nat.ltb_ge in Hmany. injection Htrim as _ <-. lia.
Qed.

End WithExternals.

Section WithExternals.

Context {externals : Externals}.

(** ** Which errors can be raised *)

(** One of the two errors of [compute_pose_energy]. *)
Definition energy_error (what : String.string) : Prop :=
  what = "prediction has no valid modes"%string
  \/ what = "mode has no inliers"%string.

Lemma compute_pose_energy_loop_error self pose inliersIndices :
  forall totalEnergy what,
  compute_pose_energy_loop self pose inliersIndices totalEnergy = Throw what ->
  energy_error what.
Proof.
  induction inliersIndices as [|[linearIdx modeIdx] rest IH]; intros totalEnergy what;
    cbn [compute_pose_energy_loop]; [discriminate|].
  destruct (get_best_mode_and_energy _ _) as [argmax value].
  destruct (argmax <? 0)%Z; [intros Hw; injection Hw as <-; left; reflexivity|].
  destruct (_ =? 0)%nat; [intros Hw; injection Hw as <-; right; reflexivity|].
  apply IH.
Qed.

Lemma compute_pose_energy_error self pose inliersIndices what :
  compute_pose_energy self pose inliersIndices = Throw what -> energy_error what.
Proof.
  unfold compute_pose_energy.
  destruct (compute_pose_energy_loop self pose inliersIndices 0) as [value|what']
    eqn:Hloop; cbn [bind]; [discriminate|].
  intros Hw. injection Hw as <-. eapply compute_pose_energy_loop_error. exact Hloop.
Qed.

Lemma compute_energies_error self poseCandidates what :
  compute_energies self poseCandidates = Throw what -> energy_error what.
Proof.
  induction poseCandidates as [|c rest IH]; cbn [compute_energies]; [discriminate|].
  destruct (compute_pose_energy self (cameraPose c) (inliers c)) as [value|what']
    eqn:Hc; cbn [bind].
  - destruct (compute_energies self rest) as [rest'|what'']; cbn [bind]; [discriminate|].
    intros Hw. injection Hw as <-. apply IH. reflexivity.
  - intros Hw. injection Hw as <-. eapply compute_pose_energy_error. exact Hc.
Qed.

Lemma compute_and_sort_energies_error self poseCandidates what :
  compute_and_sort_energies self poseCandidates = Throw what -> energy_error what.
Proof.
  unfold compute_and_sort_energies.
  destruct (compute_energies self poseCandidates) as [scored|what'] eqn:Hscored;
    cbn [bind]; [discriminate|].
  intros Hw. injection Hw as <-. eapply compute_energies_error. exact Hscored.
Qed.

Lemma ransac_iteration_error self mask eng candidates what :
  m_poseUpdate self = false ->
  ransac_iteration self mask eng candidates = Throw what -> energy_error what.
Proof.
  unfold ransac_iteration. intros Hupdate.
  destruct (sample_pixels_for_ransac self mask [] eng (m_batchSizeRansac self))
    as [[mask1 sampled] eng1].
  rewrite Hupdate. cbn [bind].
  destruct (compute_and_sort_energies self
              (update_inliers_for_optimization self sampled candidates))
    as [sorted|what'] eqn:Hsorted; cbn [bind]; [discriminate|].
  intros Hw. injection Hw as <-. eapply compute_and_sort_energies_error. exact Hsorted.
Qed.

Lemma ransac_iteration_refinement_error self mask eng candidates :
  m_poseUpdate self = true -> candidates <> [] ->
  ransac_iteration self mask eng candidates = Throw "not updated yet"%string.
Proof.
  unfold ransac_iteration. intros Hupdate Hne.
  destruct (sample_pixels_for_ransac self mask [] eng (m_batchSizeRansac self))
    as [[mask1 sampled] eng1].
  rewrite Hupdate. destruct candidates as [|c rest]; [contradiction|].
  reflexivity.
Qed.

Lemma ransac_loop_error self mask eng candidates :
  forall message,
  m_poseUpdate self = false ->
  ransac_loop self mask eng candidates = Throw message -> energy_error message.
Proof.
  funelim (ransac_loop self mask eng candidates); intros message Hupdate Hloop.
  - discriminate Hloop.
  - apply H; assumption.
  - injection Hloop as Hsame. rewrite <- Hsame.
    eapply ransac_iteration_error; [exact Hupdate|exact e].
Qed.

Lemma first_trim_error self eng candidates what :
  first_trim self eng candidates = Throw what -> energy_error what.
Proof.
  unfold first_trim. destruct (_ <? length candidates)%nat; [|discriminate].
  destruct (sample_pixels_for_ransac self [] [] eng (m_batchSizeRansac self))
    as [[mask1 sampled] eng1].
  destruct (compute_and_sort_energies self
              (update_inliers_for_optimization self sampled candidates))
    as [sorted|what'] eqn:Hsorted; cbn [bind]; [discriminate|].
  intros Hw. injection Hw as <-. eapply compute_and_sort_energies_error. exact Hsorted.
Qed.

Lemma estimate_pose_from_error self candidates what :
  m_poseUpdate self = false ->
  estimate_pose_from self candidates = Throw what -> energy_error what.
Proof.
  unfold estimate_pose_from. intros Hupdate.
  destruct (first_trim self default_engine candidates) as [[eng1 trimmed]|what']
    eqn:Hfirst; cbn [bind].
  - destruct (ransac_loop self _ eng1 trimmed) as [final|what'] eqn:Hloop;
      cbn [bind]; [discriminate|].
    intros Hw. injection Hw as <-. eapply ransac_loop_error; eassumption.
  - intros Hw. injection Hw as <-. eapply first_trim_error. exact Hfirst.
Qed.

End WithExternals.

(** ** Distinct points *)

Lemma length_sub_self a : ORUtils.length (ORUtils.Vector3f_sub a a) = 0%R.
Proof.
  unfold ORUtils.length, ORUtils.Vector3f_sub. cbn.
  replace ((ORUtils.x a - ORUtils.x a) * (ORUtils.x a - ORUtils.x a)
           + (ORUtils.y a - ORUtils.y a) * (ORUtils.y a - ORUtils.y a)
           + (ORUtils.z a - ORUtils.z a) * (ORUtils.z a - ORUtils.z a))%R
    with 0%R by ring.
  apply sqrt_0.
Qed.

Lemma ForallOrdPairs_NoDup {A : Type} (R : A -> A -> Prop) l :
  (forall a, ~ R a a) -> ForallOrdPairs R l -> NoDup l.
Proof.
  intros Hirr. induction 1 as [|a l Ha Hl IH]; constructor; [|exact IH].
  intros Hin. rewrite Forall_forall in Ha. exact (Hirr a (Ha a Hin)).
Qed.

Lemma ForallOrdPairs_map {A B : Type} (f : A -> B) (R : B -> B -> Prop) l :
  ForallOrdPairs (fun a b => R (f a) (f b)) l -> ForallOrdPairs R (map f l).
Proof.
  induction 1 as [|a l Ha Hl IH]; cbn [map]; constructor; [|exact IH].
  apply Forall_map. exact Ha.
Qed.

(** ** Examples for the properties below *)

(** The component [self] with another number of initial hypotheses. *)
Definition with_kInitRansac (self : t) (kInitRansac : nat) : t :=
  {| m_featureImage := m_featureImage self;
     m_predictionsImage := m_predictionsImage self;
     m_kInitRansac := kInitRansac;
     m_nbPointsForKabschBoostrap := m_nbPointsForKabschBoostrap self;
     m_useAllModesPerLeafInPoseHypothesisGeneration :=
       m_useAllModesPerLeafInPoseHypothesisGeneration self;
     m_checkMinDistanceBetweenSampledModes := m_checkMinDistanceBetweenSampledModes self;
     m_minDistanceBetweenSampledModes := m_minDistanceBetweenSampledModes self;
     m_checkRigidTransformationConstraint := m_checkRigidTransformationConstraint self;
     m_translationErrorMaxForCorrectPose := m_translationErrorMaxForCorrectPose self;
     m_batchSizeRansac := m_batchSizeRansac self;
     m_trimKinitAfterFirstEnergyComputation := m_trimKinitAfterFirstEnergyComputation self;
     m_poseUpdate := m_poseUpdate self;
     m_usePredictionCovarianceForPoseOptimization :=
       m_usePredictionCovarianceForPoseOptimization self;
     m_maxNbModesPerLeaf := m_maxNbModesPerLeaf self |}.

(** The component [self] with the rigidity check switched on, as it was in
    scoreforests. *)
Definition with_rigidity_check (self : t) : t :=
  {| m_featureImage := m_featureImage self;
     m_predictionsImage := m_predictionsImage self;
     m_kInitRansac := m_kInitRansac self;
     m_nbPointsForKabschBoostrap := m_nbPointsForKabschBoostrap self;
     m_useAllModesPerLeafInPoseHypothesisGeneration :=
       m_useAllModesPerLeafInPoseHypothesisGeneration self;
     m_checkMinDistanceBetweenSampledModes := m_checkMinDistanceBetweenSampledModes self;
     m_minDistanceBetweenSampledModes := m_minDistanceBetweenSampledModes self;
     m_checkRigidTransformationConstraint := true;
     m_translationErrorMaxForCorrectPose := m_translationErrorMaxForCorrectPose self;
     m_batchSizeRansac := m_batchSizeRansac self;
     m_trimKinitAfterFirstEnergyComputation := m_trimKinitAfterFirstEnergyComputation self;
     m_poseUpdate := m_poseUpdate self;
     m_usePredictionCovarianceForPoseOptimization :=
       m_usePredictionCovarianceForPoseOptimization self;
     m_maxNbModesPerLeaf := m_maxNbModesPerLeaf self |}.

Lemma select_pixels_and_modes_with_kInitRansac self kInitRansac remaining :
  forall selected eng,
  select_pixels_and_modes (with_kInitRansac self kInitRansac) remaining selected eng
  = select_pixels_and_modes self remaining selected eng.
Proof.
  induction remaining as [|remaining IH]; intros selected eng;
    cbn [select_pixels_and_modes]; [reflexivity|].
  change (m_nbPointsForKabschBoostrap (with_kInitRansac self kInitRansac))
    with (m_nbPointsForKabschBoostrap self).
  destruct (_ =? _)%nat; [reflexivity|].
  change (sample_point (with_kInitRansac self kInitRansac) selected eng)
    with (sample_point self selected eng).
  destruct (sample_point self selected eng) as [selected' eng']. apply IH.
Qed.

(** The rigidity check accepts what it is given when camera-space points
    and mode positions coincide and are far enough apart. *)
Lemma example_violatesConditions observed modeColour support selected x :
  Forall (fun other => exists xo, other = (xo, 0, 0)%Z /\ xo <> x) selected ->
  violatesConditions (with_rigidity_check (example_frame observed modeColour support))
    selected (ORUtils.mkVector3 (IZR x) 0%R 0%R) (ORUtils.mkVector3 (IZR x) 0%R 0%R)
  = false.
Proof.
  intros Hothers. unfold violatesConditions.
  apply not_true_is_false. intros Hex. apply existsb_exists in Hex.
  destruct Hex as [other [Hin Hbad]].
  rewrite Forall_forall in Hothers. destruct (Hothers other Hin) as [xo [-> Hne]].
  change (worldPt_of (with_rigidity_check (example_frame observed modeColour support))
            (xo, 0, 0)%Z)
    with (ORUtils.mkVector3 (IZR (0 * 4 + xo)) 0%R 0%R) in Hbad.
  change (localPt_of (with_rigidity_check (example_frame observed modeColour support))
            (xo, 0, 0)%Z)
    with (ORUtils.mkVector3 (IZR (0 * 4 + xo)) 0%R 0%R) in Hbad.
  change (0 * 4 + xo)%Z with xo in Hbad.
  rewrite !length_along_x in Hbad.
  change (m_minDistanceBetweenSampledModes
            (with_rigidity_check (example_frame observed modeColour support)))
    with 0.3%R in Hbad.
  change (m_translationErrorMaxForCorrectPose
            (with_rigidity_check (example_frame observed modeColour support)))
    with 0.05%R in Hbad.
  pose proof (pixels_apart xo x Hne) as Hapart.
  rewrite float_lt_false in Hbad by lra.
  unfold float_gt in Hbad. rewrite float_lt_false in Hbad.
  - discriminate.
  - replace (Rabs (IZR xo - IZR x) - Rabs (IZR xo - IZR x))%R with 0%R by ring.
    rewrite Rabs_R0. lra.
Qed.

Lemma rigid_example_farEnough observed modeColour support selected x :
  Forall (fun other => exists xo, other = (xo, 0, 0)%Z /\ xo <> x) selected ->
  farEnough (with_rigidity_check (example_frame observed modeColour support)) selected
    (ORUtils.mkVector3 (IZR x) 0%R 0%R) = true.
Proof. exact (example_farEnough observed modeColour support selected x). Qed.

Lemma rigid_example_sample_point observed modeColour support selected eng x :
  (std.raw eng (std.consumed eng) mod 4 = x)%Z -> x <> 0%Z ->
  (selected = [] -> consistentColour observed modeColour = true) ->
  Forall (fun other => exists xo, other = (xo, 0, 0)%Z /\ xo <> x) selected ->
  sample_point (with_rigidity_check (example_frame observed modeColour support))
    selected eng
  = (selected ++ [(x, 0, 0)%Z], advanced eng 3).
Proof.
  intros Hx Hnonzero Hcolour Hothers.
  pose proof (example_violatesConditions observed modeColour support selected x Hothers)
    as Hrigid.
  pose proof (rigid_example_farEnough observed modeColour support selected x Hothers)
    as Hfar.
  unfold sample_point, col_index_generator, row_index_generator,
    std.uniform_int_distribution.
  cbn [with_rigidity_check example_frame configured m_featureImage m_predictionsImage
       ORUtils.noDims
       ORUtils.width ORUtils.height std.raw std.consumed
       m_useAllModesPerLeafInPoseHypothesisGeneration
       m_checkMinDistanceBetweenSampledModes m_checkRigidTransformationConstraint].
  change (4 - 1 - 0 + 1)%Z with 4%Z. change (1 - 1 - 0 + 1)%Z with 1%Z.
  rewrite Z.mod_1_r.
  rewrite Hx. rewrite !Z.add_0_l.
  unfold linearIdx_of, patchFeaturesData, predictionsData.
  cbn [with_rigidity_check example_frame configured m_featureImage m_predictionsImage
       ORUtils.noDims ORUtils.width ORUtils.GetData].
  change (0 * 4 + x)%Z with x.
  unfold example_feature at 1.
  cbn [RGBDPatchFeature.position ORUtils.w].
  rewrite (proj2 (Z.eqb_neq x 0) Hnonzero).
  rewrite float_lt_false by lra.
  cbn [example_prediction GPUForestPrediction.nbModes Nat.eqb Z.of_nat].
  rewrite Z.mod_1_r.
  change (GPUForestPrediction.modes (example_prediction modeColour support x) 0)
    with (example_mode modeColour support x).
  cbn [example_mode GPUForestMode.colour GPUForestMode.position
       example_feature RGBDPatchFeature.colour RGBDPatchFeature.position
       ORUtils.toVector3 andb].
  assert (Hfirst : std.empty selected && negb (consistentColour observed modeColour) = false).
  { destruct selected; [|reflexivity]. rewrite Hcolour by reflexivity. reflexivity. }
  rewrite Hfirst, Hfar, Hrigid.
  reflexivity.
Qed.

Lemma hypothesize_pose_with_kInitRansac {externals : Externals} self kInitRansac res eng :
  hypothesize_pose (with_kInitRansac self kInitRansac) res eng
  = hypothesize_pose self res eng.
Proof.
  rewrite !hypothesize_pose_single_attempt.
  rewrite select_pixels_and_modes_with_kInitRansac. reflexivity.
Qed.

Lemma rigid_example_select_three observed modeColour support eng remaining :
  consistentColour observed modeColour = true ->
  (std.raw eng (std.consumed eng) mod 4 = 1)%Z ->
  (std.raw eng (3 + std.consumed eng) mod 4 = 2)%Z ->
  (std.raw eng (6 + std.consumed eng) mod 4 = 3)%Z ->
  select_pixels_and_modes
    (with_rigidity_check (example_frame observed modeColour support))
    (3 + remaining) [] eng
  = (example_selection, advanced eng 9).
Proof.
  intros Hcolour H1 H2 H3.
  change (3 + remaining)%nat with (S (S (S remaining))).
  rewrite select_pixels_and_modes_step by reflexivity.
  rewrite (rigid_example_sample_point observed modeColour support [] eng 1%Z H1
             ltac:(lia) (fun _ => Hcolour) (Forall_nil _)).
  cbn [fst snd app].
  rewrite select_pixels_and_modes_step by reflexivity.
  rewrite (rigid_example_sample_point observed modeColour support [(1, 0, 0)%Z]
             (advanced eng 3) 2%Z H2 ltac:(lia) ltac:(discriminate)).
  2: { repeat constructor. exists 1%Z. split; [reflexivity|lia]. }
  cbn [fst snd app].
  rewrite select_pixels_and_modes_step by reflexivity.
  rewrite (rigid_example_sample_point observed modeColour support
             [(1, 0, 0); (2, 0, 0)]%Z (advanced (advanced eng 3) 3) 3%Z H3
             ltac:(lia) ltac:(discriminate)).
  2: { repeat constructor; [exists 1%Z|exists 2%Z]; (split; [reflexivity|lia]). }
  cbn [fst snd app].
  rewrite select_pixels_and_modes_done by reflexivity.
  reflexivity.
Qed.

Lemma rigid_example_hypothesize_pose {externals : Externals} res :
  hypothesize_pose (with_rigidity_check (example_frame grey grey 1)) res
    (replayed three_pixels 0)
  = (true,
     candidate_of (with_rigidity_check (example_frame grey grey 1)) example_selection,
     replayed three_pixels 9).
Proof.
  rewrite hypothesize_pose_single_attempt.
  change (Z.to_nat maxIterationsInner) with (3 + Z.to_nat 5997)%nat.
  rewrite (rigid_example_select_three grey grey 1 _ _ eq_refl);
    reflexivity.
Qed.

(** A frame of four pixels none of which has depth. *)
Definition blind_frame : t :=
  configured
    {| ORUtils.noDims := {| ORUtils.width := 4; ORUtils.height := 1 |};
       ORUtils.dataSize := 4;
       ORUtils.GetData := fun _ =>
         {| RGBDPatchFeature.position :=
              ORUtils.mkVector4 (ORUtils.mkVector3 0%R 0%R 0%R) (-1)%R;
            RGBDPatchFeature.colour := grey |} |}
    {| ORUtils.noDims := {| ORUtils.width := 4; ORUtils.height := 1 |};
       ORUtils.dataSize := 4;
       ORUtils.GetData := example_prediction grey 1 |}.

Lemma blind_frame_has_no_depth (i : Z) :
  (ORUtils.w (RGBDPatchFeature.position (patchFeaturesData blind_frame i)) < 0)%R.
Proof. unfold patchFeaturesData, blind_frame. cbn. lra. Qed.

(** The example frame with modes without supporting samples, when a single
    hypothesis is asked for. *)
Definition lone_frame : t := with_kInitRansac (example_frame grey grey 0) 1.

Lemma lone_frame_generates_one :
  generate_pose_candidates (externals := example_externals 1) lone_frame
    static_schedule []
  = [set_cameraId
       (candidate_of (externals := example_externals 1) (example_frame grey grey 0)
          example_selection) 0].
Proof.
  unfold generate_pose_candidates, lone_frame.
  cbn [m_kInitRansac with_kInitRansac generate_pose_candidates_loop].
  rewrite hypothesize_pose_with_kInitRansac.
  change (nth (static_schedule 0)
            (seeded_engines (externals := example_externals 1))
            (mt19937_seed (Externals := example_externals 1) 1))
    with (replayed three_pixels (0 * 9)).
  rewrite (example_hypothesize_pose (externals := example_externals 1)
             grey grey 0 PoseCandidate_default 0 eq_refl).
  reflexivity.
Qed.

(** ** Properties of the relocaliser *)

(** X6.  On an image with at least one pixel, every inlier of a hypothesis
    that [hypothesize_pose] returns indexes a pixel inside the feature and
    prediction buffers and a mode inside the mode count of that pixel's
    prediction. *)
Theorem hypothesis_indices_are_in_bounds :
  forall (externals : Externals) (self : t) res eng c eng',
  (0 < ORUtils.width (ORUtils.noDims (m_featureImage self)))%Z ->
  (0 < ORUtils.height (ORUtils.noDims (m_featureImage self)))%Z ->
  hypothesize_pose self res eng = (true, c, eng') ->
  Forall (fun inlier =>
            (0 <= fst inlier
             < ORUtils.width (ORUtils.noDims (m_featureImage self))
               * ORUtils.height (ORUtils.noDims (m_featureImage self)))%Z
            /\ (0 <= snd inlier
                < Z.of_nat (GPUForestPrediction.nbModes
                              (predictionsData self (fst inlier))))%Z)
         (inliers c).
Proof.
  intros externals self res eng c eng' Hw Hh Hhyp.
  destruct (hypothesize_pose_true _ _ _ _ _ Hhyp)
    as [selected [_ [_ [Hselect [_ [Hinliers _]]]]]].
  rewrite Hinliers.
  apply (tmpInliers_of_in_bounds self selected).
  pose proof (select_pixels_and_modes_bounds self (Z.to_nat maxIterationsInner)
                Hw Hh [] eng (Forall_nil _)) as [Hall _].
  rewrite Hselect in Hall. exact Hall.
Qed.

(** The hypothesis drawn first on the example frame. *)
Lemma hypothesis_indices_are_in_bounds_witness :
  Forall (fun inlier =>
            (0 <= fst inlier < 4 * 1)%Z
            /\ (0 <= snd inlier
                < Z.of_nat (GPUForestPrediction.nbModes
                              (predictionsData (example_frame grey grey 1) (fst inlier))))%Z)
         example_inliers.
Proof.
  exact (hypothesis_indices_are_in_bounds (example_externals 1)
           (example_frame grey grey 1) PoseCandidate_default
           (replayed three_pixels (0 * 9)) _ _
           ltac:(cbn; lia) ltac:(cbn; lia)
           (example_hypothesize_pose (externals := example_externals 1)
              grey grey 1 PoseCandidate_default 0 eq_refl)).
Defined.

(** X7.  [hypothesize_pose] makes at most three draws from its engine (a
    column, a row and a mode) in each of its at most [maxIterationsInner]
    sampling rounds, 18000 in all, and the engine it leaves behind is the
    engine it was given after those draws. *)
Theorem hypothesize_pose_draws_are_bounded :
  forall (externals : Externals) (self : t) res eng,
  (0 < ORUtils.width (ORUtils.noDims (m_featureImage self)))%Z ->
  (0 < ORUtils.height (ORUtils.noDims (m_featureImage self)))%Z ->
  std.raw (snd (hypothesize_pose self res eng)) = std.raw eng
  /\ (std.consumed eng <= std.consumed (snd (hypothesize_pose self res eng))
      <= std.consumed eng + 3 * Z.to_nat maxIterationsInner)%nat.
Proof.
  intros externals self res eng Hw Hh.
  rewrite hypothesize_pose_single_attempt.
  pose proof (select_pixels_and_modes_bounds self (Z.to_nat maxIterationsInner)
                Hw Hh [] eng (Forall_nil _)) as [_ [Hraw Hn]].
  destruct (select_pixels_and_modes self (Z.to_nat maxIterationsInner) [] eng)
    as [selected eng1].
  cbn [snd] in Hraw, Hn.
  destruct (_ =? _)%nat; cbn [snd]; split; try exact Hraw; lia.
Qed.

(** The example frame and the engine that never finds a pixel with depth in
    its first 6000 rounds. *)
Lemma hypothesize_pose_draws_are_bounded_witness :
  (std.consumed (snd (hypothesize_pose (externals := example_externals 1)
                        (example_frame grey grey 1) PoseCandidate_default
                        stalled_engine))
   <= std.consumed stalled_engine + 3 * Z.to_nat maxIterationsInner)%nat.
Proof.
  exact (proj2 (proj2 (hypothesize_pose_draws_are_bounded (example_externals 1)
                         (example_frame grey grey 1) PoseCandidate_default
                         stalled_engine ltac:(cbn; lia) ltac:(cbn; lia)))).
Defined.

(** X8.  [generate_pose_candidates] produces at most [m_kInitRansac]
    candidates; their [cameraId]s are distinct indices of the loop; every
    one of them is a hypothesis as [hypothesize_pose] returned it, with
    exactly [m_nbPointsForKabschBoostrap] inliers, at least one, the Kabsch
    pose of its selection, and energy 0. *)
Theorem generated_candidates_are_distinct_hypotheses :
  forall (externals : Externals) (self : t) (omp_get_thread_num : Z -> nat),
  (length (generate_pose_candidates self omp_get_thread_num []) <= m_kInitRansac self)%nat
  /\ NoDup (map cameraId (generate_pose_candidates self omp_get_thread_num []))
  /\ Forall (fun c =>
               (0 <= cameraId c < Z.of_nat (m_kInitRansac self))%Z
               /\ length (inliers c) = m_nbPointsForKabschBoostrap self
               /\ inliers c <> []
               /\ energy c = 0%R
               /\ exists selected,
                    inliers c = tmpInliers_of self selected
                    /\ cameraPose c
                       = Kabsch (map (localPt_of self) selected)
                                (map (worldPt_of self) selected))
            (generate_pose_candidates self omp_get_thread_num []).
Proof.
  intros externals self omp_get_thread_num. unfold generate_pose_candidates.
  destruct (generate_pose_candidates_loop_spec self omp_get_thread_num
              (m_kInitRansac self) 0%Z seeded_engines [])
    as [generated [Hloop [Hlen [Hsorted Hall]]]].
  rewrite Hloop. cbn [app]. split; [exact Hlen|]. split.
  - apply StronglySorted_lt_NoDup. exact Hsorted.
  - eapply Forall_impl; [|exact Hall]. cbn beta.
    intros c [Hid [Hne [selected [_ [Hsize [Hpose [Hinliers Henergy]]]]]]].
    split; [lia|]. split; [rewrite Hinliers, tmpInliers_of_length; exact Hsize|].
    split; [exact Hne|]. split; [exact Henergy|].
    exists selected. split; assumption.
Qed.

(** X9.  When every pixel of the image has no depth or no mode, no
    hypothesis is generated, [estimate_pose] returns no candidate without
    throwing, and [process_relocalisation] returns the tracking failure it
    was given. *)
Theorem relocalisation_gives_up_without_usable_pixels :
  forall (externals : Externals) (self : t) (omp_get_thread_num : Z -> nat)
         (validDepths : nat) (track : ORUtils.Matrix4f -> TrackingResult),
  (0 < ORUtils.width (ORUtils.noDims (m_featureImage self)))%Z ->
  (0 < ORUtils.height (ORUtils.noDims (m_featureImage self)))%Z ->
  (forall i,
     (0 <= i < ORUtils.width (ORUtils.noDims (m_featureImage self))
              * ORUtils.height (ORUtils.noDims (m_featureImage self)))%Z ->
     (ORUtils.w (RGBDPatchFeature.position (patchFeaturesData self i)) < 0)%R
     \/ GPUForestPrediction.nbModes (predictionsData self i) = O) ->
  generate_pose_candidates self omp_get_thread_num [] = []
  /\ estimate_pose self omp_get_thread_num = Ok None
  /\ process_relocalisation self omp_get_thread_num validDepths track TRACKING_FAILED
     = Ok TRACKING_FAILED.
Proof.
  intros externals self omp_get_thread_num validDepths track Hw Hh Hunusable.
  assert (Hgen : generate_pose_candidates self omp_get_thread_num [] = []).
  { unfold generate_pose_candidates. apply generate_pose_candidates_loop_unusable.
    intros eng. apply select_pixels_and_modes_unusable; assumption. }
  assert (Hest : estimate_pose self omp_get_thread_num = Ok None).
  { unfold estimate_pose. rewrite Hgen. apply estimate_pose_from_nil. }
  split; [exact Hgen|]. split; [exact Hest|].
  unfold process_relocalisation. rewrite Hest. cbn [bind].
  destruct (_ <? _)%nat; reflexivity.
Qed.

(** The frame without depth, with 1000 valid depths reported. *)
Lemma relocalisation_gives_up_without_usable_pixels_witness :
  estimate_pose (externals := example_externals 1) blind_frame static_schedule = Ok None
  /\ process_relocalisation (externals := example_externals 1) blind_frame
       static_schedule 1000 (fun _ => TRACKING_GOOD) TRACKING_FAILED
     = Ok TRACKING_FAILED.
Proof.
  exact (proj2 (relocalisation_gives_up_without_usable_pixels (example_externals 1)
                  blind_frame static_schedule 1000 (fun _ => TRACKING_GOOD)
                  ltac:(cbn; lia) ltac:(cbn; lia)
                  (fun i _ => or_introl (blind_frame_has_no_depth i)))).
Defined.

(** X10.  When exactly one hypothesis was generated and the first trim keeps
    at least one candidate, [estimate_pose] returns that hypothesis as it
    is: no pixel is sampled and no energy is computed, so its energy is
    still 0 and no error can be raised. *)
Theorem estimate_pose_accepts_a_lone_hypothesis :
  forall (externals : Externals) (self : t) (omp_get_thread_num : Z -> nat) c,
  (1 <= m_trimKinitAfterFirstEnergyComputation self)%nat ->
  generate_pose_candidates self omp_get_thread_num [] = [c] ->
  estimate_pose self omp_get_thread_num = Ok (Some c) /\ energy c = 0%R.
Proof.
  intros externals self omp_get_thread_num c Htrim Hgen. split.
  - unfold estimate_pose. rewrite Hgen. unfold estimate_pose_from, first_trim.
    cbn [length].
    rewrite (proj2 (Nat.ltb_ge _ _) Htrim). cbn [bind].
    rewrite ransac_loop_single by (cbn; lia). reflexivity.
  - unfold generate_pose_candidates in Hgen.
    destruct (generate_pose_candidates_loop_spec self omp_get_thread_num
                (m_kInitRansac self) 0%Z seeded_engines [])
      as [generated [Hloop [_ [_ Hall]]]].
    rewrite Hgen in Hloop. cbn [app] in Hloop. subst generated.
    inversion Hall as [|? ? [_ [_ [selected [_ [_ [_ [_ Henergy]]]]]]] _]; subst.
    exact Henergy.
Qed.

(** The example frame with [m_kInitRansac] set to 1, whose modes have no
    supporting samples: scoring the hypothesis would throw, and it is
    returned unscored. *)
Lemma estimate_pose_accepts_a_lone_hypothesis_witness :
  estimate_pose (externals := example_externals 1) lone_frame static_schedule
  = Ok (Some (set_cameraId
                (candidate_of (externals := example_externals 1)
                   (example_frame grey grey 0) example_selection) 0)).
Proof.
  exact (proj1 (estimate_pose_accepts_a_lone_hypothesis (example_externals 1)
                  lone_frame static_schedule _
                  ltac:(cbn; lia) lone_frame_generates_one)).
Defined.

(** X11.  The candidate that [estimate_pose] returns is one of the generated
    hypotheses: it has the pose and the [cameraId] of a candidate of
    [generate_pose_candidates], unrefined, and its inliers are the inliers of
    that hypothesis followed by sampled pixels, which carry the mode index
    [-1]. *)
Theorem estimate_pose_returns_a_generated_hypothesis :
  forall (externals : Externals) (self : t) (omp_get_thread_num : Z -> nat) c,
  estimate_pose self omp_get_thread_num = Ok (Some c) ->
  exists c0,
    In c0 (generate_pose_candidates self omp_get_thread_num [])
    /\ cameraPose c = cameraPose c0
    /\ cameraId c = cameraId c0
    /\ exists extra,
         inliers c = inliers c0 ++ extra
         /\ Forall (fun inlier => snd inlier = (-1)%Z) extra.
Proof.
  intros externals self omp_get_thread_num c Hest.
  destruct (estimate_pose_descend self omp_get_thread_num c Hest) as [c0 [Hin Hext]].
  exists c0. split; [exact Hin|]. exact Hext.
Qed.

(** The candidate returned on the example frame. *)
Lemma estimate_pose_returns_a_generated_hypothesis_witness :
  exists c c0,
    estimate_pose (externals := example_externals 1) (example_frame grey grey 1)
      static_schedule = Ok (Some c)
    /\ In c0 (generate_pose_candidates (externals := example_externals 1)
                (example_frame grey grey 1) static_schedule [])
    /\ cameraPose c = cameraPose c0.
Proof.
  destruct (example_estimate_pose 1 grey grey 1 static_schedule eq_refl
              ltac:(discriminate)) as [c Hc].
  destruct (estimate_pose_returns_a_generated_hypothesis (example_externals 1)
              (example_frame grey grey 1) static_schedule c Hc)
    as [c0 [Hin [Hpose _]]].
  exists c, c0. split; [exact Hc|]. split; [exact Hin|exact Hpose].
Defined.

(** X12.  [compute_and_sort_energies], when it returns, returns the
    candidates it was given, each with the energy that [compute_pose_energy]
    gives its pose and inliers and otherwise unchanged, in ascending order of
    energy. *)
Theorem compute_and_sort_energies_sorts_the_scored_candidates :
  forall (externals : Externals) (self : t) poseCandidates sorted,
  compute_and_sort_energies self poseCandidates = Ok sorted ->
  StronglySorted (fun a b => (energy a <= energy b)%R) sorted
  /\ exists scored,
       Permutation sorted scored
       /\ Forall2 (fun c c' =>
                     cameraPose c' = cameraPose c
                     /\ inliers c' = inliers c
                     /\ cameraId c' = cameraId c
                     /\ compute_pose_energy self (cameraPose c) (inliers c)
                        = Ok (energy c'))
                  poseCandidates scored.
Proof.
  intros externals self poseCandidates sorted Hsorted.
  destruct (compute_and_sort_energies_spec _ _ _ Hsorted) as [Hord [scored [Hperm Hall]]].
  split; [exact Hord|]. exists scored. split; [exact Hperm|].
  eapply Forall2_impl; [|exact Hall]. cbn beta.
  intros c c' [value [Hvalue ->]]. cbn [set_energy cameraPose inliers cameraId energy].
  repeat split; try reflexivity. exact Hvalue.
Qed.

(** The hypotheses generated on the example frame, scored as they are. *)
Lemma compute_and_sort_energies_sorts_the_scored_candidates_witness :
  exists sorted,
    compute_and_sort_energies (externals := example_externals 1)
      (example_frame grey grey 1)
      (generate_pose_candidates (externals := example_externals 1)
         (example_frame grey grey 1) static_schedule [])
    = Ok sorted
    /\ StronglySorted (fun a b => (energy a <= energy b)%R) sorted.
Proof.
  destruct (compute_and_sort_energies_returns (externals := example_externals 1)
              (example_frame grey grey 1) _
              (example_backend_finds_modes 1 grey grey 1 ltac:(discriminate))
              (example_generated_ok 1 grey grey 1 static_schedule))
    as [sorted Hsorted].
  exists sorted. split; [exact Hsorted|].
  exact (proj1 (compute_and_sort_energies_sorts_the_scored_candidates
                  (example_externals 1) (example_frame grey grey 1) _ sorted Hsorted)).
Defined.

(** X13.  The energy of a pose depends on the pixels of its inliers only:
    the mode index that an inlier carries is not read, so two inlier lists
    over the same pixels get the same energy, or the same error. *)
Theorem compute_pose_energy_ignores_mode_indices :
  forall (externals : Externals) (self : t) pose inliers1 inliers2,
  map fst inliers1 = map fst inliers2 ->
  compute_pose_energy self pose inliers1 = compute_pose_energy self pose inliers2.
Proof.
  intros externals self pose inliers1 inliers2 Hsame. unfold compute_pose_energy.
  rewrite (compute_pose_energy_loop_pixels self pose inliers1 inliers2 0%R Hsame).
  replace (length inliers1) with (length inliers2); [reflexivity|].
  rewrite <- (length_map fst inliers2), <- Hsame, length_map. reflexivity.
Qed.

(** The inliers of the example hypothesis, and the same pixels as sampled
    pixels. *)
Lemma compute_pose_energy_ignores_mode_indices_witness :
  compute_pose_energy (externals := example_externals 1) (example_frame grey grey 1)
    {| ORUtils.m := [] |} example_inliers
  = compute_pose_energy (externals := example_externals 1) (example_frame grey grey 1)
      {| ORUtils.m := [] |} [(1, -1); (2, -1); (3, -1)]%Z.
Proof.
  exact (compute_pose_energy_ignores_mode_indices (example_externals 1)
           (example_frame grey grey 1) {| ORUtils.m := [] |}
           example_inliers [(1, -1); (2, -1); (3, -1)]%Z eq_refl).
Defined.

(** X14.  [process_relocalisation] leaves a result other than
    [TRACKING_FAILED] as it is, and likewise a failure on a frame with fewer
    valid depths than the larger of [m_nbPointsForKabschBoostrap] and
    [m_batchSizeRansac]; whenever it returns, it returns either the result
    it was given or the tracker's result for the pose of one of the
    generated hypotheses. *)
Theorem process_relocalisation_outcomes :
  forall (externals : Externals) (self : t) (omp_get_thread_num : Z -> nat)
         (validDepths : nat) (track : ORUtils.Matrix4f -> TrackingResult)
         (trackingResult : TrackingResult),
  (trackingResult <> TRACKING_FAILED ->
   process_relocalisation self omp_get_thread_num validDepths track trackingResult
   = Ok trackingResult)
  /\ ((validDepths < Nat.max (m_nbPointsForKabschBoostrap self) (m_batchSizeRansac self))%nat ->
      process_relocalisation self omp_get_thread_num validDepths track trackingResult
      = Ok trackingResult)
  /\ (forall r,
        process_relocalisation self omp_get_thread_num validDepths track trackingResult
        = Ok r ->
        r = trackingResult
        \/ exists c0,
             In c0 (generate_pose_candidates self omp_get_thread_num [])
             /\ r = track (cameraPose c0)).
Proof.
  intros externals self omp_get_thread_num validDepths track trackingResult.
  split; [|split].
  - intros Hother. destruct trackingResult; [reflexivity|reflexivity|contradiction].
  - intros Hfew. unfold process_relocalisation.
    rewrite (proj2 (Nat.ltb_lt _ _) Hfew). destruct trackingResult; reflexivity.
  - intros r. unfold process_relocalisation.
    destruct trackingResult; try (intros Hr; injection Hr as <-; left; reflexivity).
    destruct (_ <? _)%nat; [intros Hr; injection Hr as <-; left; reflexivity|].
    destruct (estimate_pose self omp_get_thread_num) as [[c|]|] eqn:Hest; cbn [bind];
      intros Hr; try discriminate; injection Hr as <-; [|left; reflexivity].
    right. destruct (estimate_pose_descend self omp_get_thread_num c Hest)
      as [c0 [Hin [Hpose _]]].
    exists c0. split; [exact Hin|]. rewrite Hpose. reflexivity.
Qed.

(** A tracking failure on the example frame with 499 valid depths, one
    fewer than the batch size. *)
Lemma process_relocalisation_outcomes_witness :
  process_relocalisation (externals := example_externals 1) (example_frame grey grey 1)
    static_schedule 499 (fun _ => TRACKING_GOOD) TRACKING_FAILED
  = Ok TRACKING_FAILED.
Proof.
  exact (proj1 (proj2 (process_relocalisation_outcomes (example_externals 1)
                         (example_frame grey grey 1) static_schedule 499
                         (fun _ => TRACKING_GOOD) TRACKING_FAILED))
           ltac:(cbn; lia)).
Defined.

(** X15.  Over a mask that covers the image, [sample_pixels_for_ransac]
    appends at most [batchSize] pixels, all inside the image, pairwise
    different and none of them marked before; afterwards the mask has the
    same length and marks exactly the pixels that were marked before and the
    pixels just sampled; and no more than 50 pairs of a column and a row
    are drawn for each pixel of the batch. *)
Theorem sample_pixels_for_ransac_marks_what_it_samples :
  forall (self : t) (maskSampledPixels : list bool) (sampledPixelIdx : list (Z * Z))
         (eng : std.mt19937) (batchSize : nat) mask' sampled' eng',
  (0 < ORUtils.width (ORUtils.noDims (m_featureImage self)))%Z ->
  (0 < ORUtils.height (ORUtils.noDims (m_featureImage self)))%Z ->
  length maskSampledPixels
  = Z.to_nat (ORUtils.width (ORUtils.noDims (m_featureImage self))
              * ORUtils.height (ORUtils.noDims (m_featureImage self))) ->
  sample_pixels_for_ransac self maskSampledPixels sampledPixelIdx eng batchSize
  = (mask', sampled', eng') ->
  exists new,
    sampled' = sampledPixelIdx ++ new
    /\ (length new <= batchSize)%nat
    /\ length mask' = length maskSampledPixels
    /\ Forall (fun s =>
                 (0 <= fst s < ORUtils.width (ORUtils.noDims (m_featureImage self)))%Z
                 /\ (0 <= snd s < ORUtils.height (ORUtils.noDims (m_featureImage self)))%Z)
              new
    /\ NoDup (map (fun s => linearIdx_of self (fst s) (snd s)) new)
    /\ Forall (fun s =>
                 nth (Z.to_nat (linearIdx_of self (fst s) (snd s))) maskSampledPixels false
                 = false)
              new
    /\ (forall i,
          nth i mask' false = true
          <-> nth i maskSampledPixels false = true
              \/ exists s, In s new /\ Z.to_nat (linearIdx_of self (fst s) (snd s)) = i)
    /\ (std.consumed eng <= std.consumed eng' <= std.consumed eng + 100 * batchSize)%nat.
Proof.
  intros self mask sampled eng batchSize mask' sampled' eng' Hw Hh Hcover Hrun.
  pose proof (sample_pixels_for_ransac_loop_spec self Hw Hh batchSize mask sampled eng
                Hcover) as Hspec.
  unfold sample_pixels_for_ransac in Hrun. rewrite Hrun in Hspec.
  destruct Hspec as [new [Hnew [Hlen [Hlength [Hbounds [Hdistinct [Hfresh [Hmarks Hd]]]]]]]].
  exists new. split; [exact Hnew|]. split; [exact Hlen|]. split; [exact Hlength|].
  split; [exact Hbounds|]. split.
  { replace (map (mask_index self) new)
      with (map Z.to_nat (map (fun s => linearIdx_of self (fst s) (snd s)) new))
      in Hdistinct by (rewrite map_map; reflexivity).
    eapply NoDup_map_inv. exact Hdistinct. }
  split; [exact Hfresh|]. split.
  { intros i. rewrite Hmarks. rewrite in_map_iff. unfold mask_index.
    split; (intros [H|[s [H1 H2]]]; [left; exact H|right; exists s; tauto]). }
  destruct Hd as [_ Hd]. lia.
Qed.

(** A batch of two over the unmarked mask of the example frame. *)
Lemma sample_pixels_for_ransac_marks_what_it_samples_witness :
  exists mask' sampled' eng',
    sample_pixels_for_ransac (example_frame grey grey 1) [false; false; false; false]
      [] (replayed three_pixels 0) 2
    = (mask', sampled', eng')
    /\ length mask' = 4%nat
    /\ NoDup (map (fun s => linearIdx_of (example_frame grey grey 1) (fst s) (snd s))
                  sampled').
Proof.
  destruct (sample_pixels_for_ransac (example_frame grey grey 1)
              [false; false; false; false] [] (replayed three_pixels 0) 2)
    as [[mask' sampled'] eng'] eqn:Hrun.
  destruct (sample_pixels_for_ransac_marks_what_it_samples (example_frame grey grey 1)
              [false; false; false; false] [] (replayed three_pixels 0) 2
              mask' sampled' eng' ltac:(cbn; lia) ltac:(cbn; lia) eq_refl Hrun)
    as [new [Hnew [_ [Hlength [_ [Hdistinct _]]]]]].
  exists mask', sampled', eng'. split; [reflexivity|]. split; [exact Hlength|].
  rewrite Hnew. exact Hdistinct.
Defined.

(** X16.  The first trim, given candidates that all have as many inliers as
    the first of them: a list of at most
    [m_trimKinitAfterFirstEnergyComputation] candidates is left as it is and
    no random number is drawn; a longer list is cut to exactly that many
    candidates in ascending order of energy, and, when more than one is kept,
    each of them has the pose, the [cameraId] and exactly the inliers of one
    of the candidates given: the pixels sampled for scoring are removed
    again. *)
Theorem first_trim_keeps_the_best_hypotheses :
  forall (externals : Externals) (self : t) eng candidates eng' candidates' n,
  Forall (fun c => length (inliers c) = n) candidates ->
  first_trim self eng candidates = Ok (eng', candidates') ->
  ((length candidates <= m_trimKinitAfterFirstEnergyComputation self)%nat ->
   candidates' = candidates /\ eng' = eng)
  /\ ((m_trimKinitAfterFirstEnergyComputation self < length candidates)%nat ->
      length candidates' = m_trimKinitAfterFirstEnergyComputation self
      /\ StronglySorted (fun a b => (energy a <= energy b)%R) candidates'
      /\ ((1 < m_trimKinitAfterFirstEnergyComputation self)%nat ->
          Forall (fun c' => exists c0,
                    In c0 candidates
                    /\ cameraPose c' = cameraPose c0
                    /\ cameraId c' = cameraId c0
                    /\ inliers c' = inliers c0)
                 candidates')).
Proof.
  intros externals self eng candidates eng' candidates' n Hsame Htrim.
  exact (first_trim_spec self eng candidates eng' candidates' n Hsame Htrim).
Qed.

(** The 1024 hypotheses generated on the example frame are cut to 64. *)
Lemma first_trim_keeps_the_best_hypotheses_witness :
  exists eng' candidates',
    first_trim (externals := example_externals 1) (example_frame grey grey 1)
      (default_engine (externals := example_externals 1))
      (generate_pose_candidates (externals := example_externals 1)
         (example_frame grey grey 1) static_schedule [])
    = Ok (eng', candidates')
    /\ length candidates' = 64%nat.
Proof.
  destruct (first_trim_returns (externals := example_externals 1)
              (example_frame grey grey 1)
              (default_engine (externals := example_externals 1)) _
              (example_backend_finds_modes 1 grey grey 1 ltac:(discriminate))
              (example_generated_ok 1 grey grey 1 static_schedule))
    as [[eng' candidates'] Htrim].
  exists eng', candidates'. split; [exact Htrim|].
  destruct (example_generate 1 grey grey 1 static_schedule eq_refl)
    as [first [rest [Hgen [Hlen Hall]]]].
  refine (proj1 (proj2 (first_trim_keeps_the_best_hypotheses (example_externals 1)
                          (example_frame grey grey 1) _ _ eng' candidates' 3
                          _ Htrim) _)).
  - rewrite Hgen. eapply Forall_impl; [|exact Hall].
    intros c Hc. rewrite Hc. reflexivity.
  - rewrite Hgen, Hlen. cbn. lia.
Defined.

(** X17.  With the rigidity check enabled, any two different points of a
    hypothesis that [hypothesize_pose] returns are at least
    [m_minDistanceBetweenSampledModes] apart in camera space, and their
    distance in camera space differs from the distance of their modes in
    world space by at most half of [m_translationErrorMaxForCorrectPose]. *)
Theorem hypothesis_points_pass_the_rigidity_check :
  forall (externals : Externals) (self : t) res eng c eng',
  m_checkRigidTransformationConstraint self = true ->
  hypothesize_pose self res eng = (true, c, eng') ->
  forall i j p q,
  i <> j ->
  nth_error (inliers c) i = Some p ->
  nth_error (inliers c) j = Some q ->
  let distLocal :=
    ORUtils.length
      (ORUtils.Vector3f_sub
         (ORUtils.toVector3 (RGBDPatchFeature.position (patchFeaturesData self (fst p))))
         (ORUtils.toVector3 (RGBDPatchFeature.position (patchFeaturesData self (fst q)))))
  in
  let distWorld :=
    ORUtils.length
      (ORUtils.Vector3f_sub
         (GPUForestMode.position
            (GPUForestPrediction.modes (predictionsData self (fst p)) (snd p)))
         (GPUForestMode.position
            (GPUForestPrediction.modes (predictionsData self (fst q)) (snd q))))
  in
  (m_minDistanceBetweenSampledModes self <= distLocal)%R
  /\ (Rabs (distLocal - distWorld)
      <= 0.5 * m_translationErrorMaxForCorrectPose self)%R.
Proof.
  intros externals self res eng c eng' Hflag Hhyp i j p q Hij Hp Hq.
  destruct (hypothesize_pose_true _ _ _ _ _ Hhyp)
    as [selected [Hsel [_ [_ [_ [Hinliers _]]]]]].
  rewrite Hinliers in Hp, Hq.
  pose proof (selection_rigid self selected Hflag Hsel) as Hrigid.
  destruct (Nat.lt_ge_cases i j) as [Hlt|Hge].
  - exact (ForallOrdPairs_nth_error _ _ Hrigid i j p q Hlt Hp Hq).
  - apply (rigid_pair_sym self q p).
    apply (ForallOrdPairs_nth_error _ _ Hrigid j i q p); [lia|assumption|assumption].
Qed.

(** The first two points of the hypothesis drawn first on the example frame
    with the check enabled. *)
Lemma hypothesis_points_pass_the_rigidity_check_witness :
  (0.3
   <= ORUtils.length
        (ORUtils.Vector3f_sub (ORUtils.mkVector3 1 0 0) (ORUtils.mkVector3 2 0 0)))%R.
Proof.
  exact (proj1 (hypothesis_points_pass_the_rigidity_check (example_externals 1)
                  (with_rigidity_check (example_frame grey grey 1))
                  PoseCandidate_default (replayed three_pixels 0) _ _ eq_refl
                  (rigid_example_hypothesize_pose (externals := example_externals 1)
                     PoseCandidate_default)
                  0%nat 1%nat (1, 0)%Z (2, 0)%Z ltac:(discriminate) eq_refl eq_refl)).
Defined.

(** X18.  A main loop that starts with more than one candidate and returns
    stores in every candidate it leaves the energy of that candidate's pose
    over that candidate's inliers; so does [estimate_pose] in the candidate
    it returns, when more than one hypothesis was generated and the first
    trim keeps more than one. *)
Theorem returned_energy_belongs_to_the_returned_inliers :
  forall (externals : Externals) (self : t),
  (forall mask eng candidates final,
     (1 < length candidates)%nat ->
     ransac_loop self mask eng candidates = Ok final ->
     Forall (fun c => compute_pose_energy self (cameraPose c) (inliers c)
                      = Ok (energy c))
            final)
  /\ (forall omp_get_thread_num c,
        (1 < m_trimKinitAfterFirstEnergyComputation self)%nat ->
        (1 < length (generate_pose_candidates self omp_get_thread_num []))%nat ->
        estimate_pose self omp_get_thread_num = Ok (Some c) ->
        compute_pose_energy self (cameraPose c) (inliers c) = Ok (energy c)).
Proof.
  intros externals self. split.
  - intros mask eng candidates final Hmany Hloop.
    exact (ransac_loop_scored self mask eng candidates final Hloop (or_introl Hmany)).
  - intros omp_get_thread_num c Htrim Hmany. unfold estimate_pose, estimate_pose_from.
    intros Hest.
    set (generated := generate_pose_candidates self omp_get_thread_num []) in *.
    destruct (first_trim self default_engine generated) as [[eng1 trimmed]|] eqn:Hfirst;
      cbn [bind] in Hest; [|discriminate].
    destruct (ransac_loop self _ eng1 trimmed) as [final|] eqn:Hloop;
      cbn [bind] in Hest; [|discriminate].
    pose proof (first_trim_length _ _ _ _ _ Hfirst) as Hlen.
    assert (Hscored : Forall (scored self) final).
    { eapply ransac_loop_scored; [exact Hloop|]. left. lia. }
    destruct final as [|c1 final]; cbn in Hest; [discriminate|].
    injection Hest as <-. inversion Hscored; subst. assumption.
Qed.

(** The candidate returned on the example frame. *)
Lemma returned_energy_belongs_to_the_returned_inliers_witness :
  exists c,
    estimate_pose (externals := example_externals 1) (example_frame grey grey 1)
      static_schedule = Ok (Some c)
    /\ compute_pose_energy (externals := example_externals 1) (example_frame grey grey 1)
         (cameraPose c) (inliers c) = Ok (energy c).
Proof.
  destruct (example_estimate_pose 1 grey grey 1 static_schedule eq_refl
              ltac:(discriminate)) as [c Hc].
  exists c. split; [exact Hc|].
  destruct (example_generate 1 grey grey 1 static_schedule eq_refl)
    as [first [rest [Hgen [Hlen _]]]].
  refine (proj2 (returned_energy_belongs_to_the_returned_inliers (example_externals 1)
                   (example_frame grey grey 1)) static_schedule c _ _ Hc).
  - cbn. lia.
  - rewrite Hgen, Hlen. lia.
Defined.



(** X20.  [build_rgbd_image] returns a float matrix of nine channels: the
    three colour channels in the order in which [make_rgb_image] produced
    them, since the exchange of the first and third channel undoes the
    conversion from BGR to RGB before it; then two channels of zeros, the
    raw depth, and three more channels of zeros.  When the colour image and
    the depth image differ in size, merging the channels is an error. *)
Theorem build_rgbd_image_channel_layout :
  forall (make_rgb_image : (Z -> ORUtils.Vector4 uchar) -> Z -> Z -> cv.Mat)
         (inputRGBImage : ORUtils.Image (ORUtils.Vector4 uchar))
         (inputRawDepthImage : ORUtils.Image Z) c0 c1 c2,
  let rgb :=
    make_rgb_image (ORUtils.GetData inputRGBImage)
      (ORUtils.width (ORUtils.noDims inputRGBImage))
      (ORUtils.height (ORUtils.noDims inputRGBImage)) in
  let zero : Z -> Z -> float := fun _ _ => 0%R in
  cv.planes rgb = [c0; c1; c2] ->
  (cv.rows rgb = ORUtils.height (ORUtils.noDims inputRawDepthImage)
   /\ cv.cols rgb = ORUtils.width (ORUtils.noDims inputRawDepthImage) ->
   build_rgbd_image make_rgb_image inputRGBImage inputRawDepthImage
   = Ok {| cv.rows := cv.rows rgb;
           cv.cols := cv.cols rgb;
           cv.depth := cv.CV_32F;
           cv.planes :=
             [c0; c1; c2; zero; zero;
              (fun y x =>
                 IZR (ORUtils.GetData inputRawDepthImage
                        (y * ORUtils.width (ORUtils.noDims inputRawDepthImage) + x)%Z));
              zero; zero; zero] |})
  /\ (cv.rows rgb <> ORUtils.height (ORUtils.noDims inputRawDepthImage)
      \/ cv.cols rgb <> ORUtils.width (ORUtils.noDims inputRawDepthImage) ->
      throws (build_rgbd_image make_rgb_image inputRGBImage inputRawDepthImage)).
Proof.
  intros make_rgb_image inputRGBImage inputRawDepthImage c0 c1 c2 rgb zero Hplanes.
  unfold build_rgbd_image. fold rgb.
  unfold cv.cvtColor_BGR2RGB. rewrite Hplanes. cbn [bind].
  cbn [cv.split cv.convertTo_32F cv.planes cv.rows cv.cols cv.depth map swap_0_2 app
       cv.zeros cv.merge forallb cv.Depth_eqb flat_map].
  rewrite !Z.eqb_refl. cbn [andb].
  split.
  - intros [Hrows Hcols]. rewrite <- Hrows, <- Hcols, !Z.eqb_refl. cbn [andb].
    reflexivity.
  - intros Hdiff.
    destruct ((ORUtils.height (ORUtils.noDims inputRawDepthImage) =? cv.rows rgb)%Z
              && (ORUtils.width (ORUtils.noDims inputRawDepthImage) =? cv.cols rgb)%Z)
      eqn:Hsame.
    + apply andb_true_iff in Hsame. destruct Hsame as [H1 H2].
      apply Z.eqb_eq in H1, H2. destruct Hdiff; congruence.
    + cbn [andb]. eexists. reflexivity.
Qed.

(** A colour image and a depth image of two by two pixels. *)
Lemma build_rgbd_image_channel_layout_witness :
  exists rgbd,
    build_rgbd_image
      (fun rgbaData width height =>
         {| cv.rows := height; cv.cols := width; cv.depth := cv.CV_8U;
            cv.planes := [fun _ _ => 10%R; fun _ _ => 20%R; fun _ _ => 30%R] |})
      {| ORUtils.noDims := {| ORUtils.width := 2; ORUtils.height := 2 |};
         ORUtils.dataSize := 4;
         ORUtils.GetData := fun _ =>
           ORUtils.mkVector4 (ORUtils.mkVector3 10%Z 20%Z 30%Z) 255%Z |}
      {| ORUtils.noDims := {| ORUtils.width := 2; ORUtils.height := 2 |};
         ORUtils.dataSize := 4;
         ORUtils.GetData := fun i => (1000 + i)%Z |}
    = Ok rgbd
    /\ length (cv.planes rgbd) = 9%nat.
Proof.
  eexists. split.
  - exact (proj1 (build_rgbd_image_channel_layout
                    (fun rgbaData width height =>
                       {| cv.rows := height; cv.cols := width; cv.depth := cv.CV_8U;
                          cv.planes := [fun _ _ => 10%R; fun _ _ => 20%R;
                                        fun _ _ => 30%R] |})
                    {| ORUtils.noDims := {| ORUtils.width := 2; ORUtils.height := 2 |};
                       ORUtils.dataSize := 4;
                       ORUtils.GetData := fun _ =>
                         ORUtils.mkVector4 (ORUtils.mkVector3 10%Z 20%Z 30%Z) 255%Z |}
                    {| ORUtils.noDims := {| ORUtils.width := 2; ORUtils.height := 2 |};
                       ORUtils.dataSize := 4;
                       ORUtils.GetData := fun i => (1000 + i)%Z |}
                    _ _ _ eq_refl)
             (conj eq_refl eq_refl)).
  - reflexivity.
Defined.

(** X21.  With pose refinement off, as the constructor sets it, the only
    errors that leave [estimate_pose] and [process_relocalisation] are the
    two of [compute_pose_energy], "prediction has no valid modes" and "mode
    has no inliers"; with refinement on, every round of the main loop over
    candidates ends in the error "not updated yet". *)
Theorem relocalisation_errors_come_from_the_energy :
  forall (externals : Externals) (self : t),
  (m_poseUpdate self = false ->
   forall omp_get_thread_num validDepths track trackingResult what,
   estimate_pose self omp_get_thread_num = Throw what
   \/ process_relocalisation self omp_get_thread_num validDepths track trackingResult
      = Throw what ->
   what = "prediction has no valid modes"%string
   \/ what = "mode has no inliers"%string)
  /\ (m_poseUpdate self = true ->
      forall mask eng candidates,
      candidates <> [] ->
      ransac_iteration self mask eng candidates = Throw "not updated yet"%string).
Proof.
  intros externals self. split.
  - intros Hupdate omp_get_thread_num validDepths track trackingResult what.
    assert (Hest : estimate_pose self omp_get_thread_num = Throw what ->
                   energy_error what).
    { unfold estimate_pose. apply estimate_pose_from_error. exact Hupdate. }
    intros [Hthrow|Hthrow]; [exact (Hest Hthrow)|].
    unfold process_relocalisation in Hthrow.
    destruct trackingResult; try discriminate Hthrow.
    destruct (_ <? _)%nat; [discriminate Hthrow|].
    destruct (estimate_pose self omp_get_thread_num) as [[c|]|what'];
      cbn [bind] in Hthrow; try discriminate Hthrow.
    injection Hthrow as <-. apply Hest. reflexivity.
  - intros Hupdate mask eng candidates Hne.
    apply ransac_iteration_refinement_error; assumption.
Qed.

(** The example frame with modes without supporting samples. *)
Lemma relocalisation_errors_come_from_the_energy_witness :
  exists what,
    estimate_pose (externals := example_externals 1) (example_frame grey grey 0)
      static_schedule = Throw what
    /\ (what = "prediction has no valid modes"%string
        \/ what = "mode has no inliers"%string).
Proof.
  destruct (example_estimate_pose_throws 1 grey grey static_schedule eq_refl)
    as [what Hwhat].
  exists what. split; [exact Hwhat|].
  exact (proj1 (relocalisation_errors_come_from_the_energy (example_externals 1)
                  (example_frame grey grey 0))
           eq_refl static_schedule O (fun _ => TRACKING_GOOD) TRACKING_FAILED what
           (or_introl Hwhat)).
Defined.

(** X22.  The first point of a hypothesis that [hypothesize_pose] returns
    passed the colour test as the code makes it: in every channel the
    observed colour minus the colour of the chosen mode, taken modulo 256 as
    the subtraction of unsigned bytes does, is at most 30. *)
Theorem hypothesis_first_point_passed_the_colour_test :
  forall (externals : Externals) (self : t) res eng c eng' p,
  hypothesize_pose self res eng = (true, c, eng') ->
  nth_error (inliers c) 0 = Some p ->
  let observed := RGBDPatchFeature.colour (patchFeaturesData self (fst p)) in
  let predicted :=
    GPUForestMode.colour
      (GPUForestPrediction.modes (predictionsData self (fst p)) (snd p)) in
  ((ORUtils.x observed - ORUtils.x predicted) mod 256 <= 30
   /\ (ORUtils.y observed - ORUtils.y predicted) mod 256 <= 30
   /\ (ORUtils.z observed - ORUtils.z predicted) mod 256 <= 30)%Z.
Proof.
  intros externals self res eng c eng' p Hhyp Hfirst.
  destruct (hypothesize_pose_true _ _ _ _ _ Hhyp)
    as [selected [Hsel [_ [_ [_ [Hinliers _]]]]]].
  rewrite Hinliers in Hfirst. unfold tmpInliers_of in Hfirst.
  destruct selected as [|[[x y] modeIdx] selected]; [discriminate Hfirst|].
  cbn in Hfirst. injection Hfirst as <-.
  cbn zeta. apply consistentColour_spec.
  exact (selection_first_colour self _ (x, y, modeIdx) Hsel eq_refl).
Qed.

(** The hypothesis drawn first on the example frame when the pixels are
    observed 5 brighter in the first channel than the modes predict. *)
Lemma hypothesis_first_point_passed_the_colour_test_witness :
  ((105 - 100) mod 256 <= 30 /\ (100 - 100) mod 256 <= 30
   /\ (100 - 100) mod 256 <= 30)%Z.
Proof.
  exact (hypothesis_first_point_passed_the_colour_test (example_externals 1)
           (example_frame darker grey 1) PoseCandidate_default
           (replayed three_pixels (0 * 9)) _ _ (1, 0)%Z
           (example_hypothesize_pose (externals := example_externals 1)
              darker grey 1 PoseCandidate_default 0 eq_refl)
           eq_refl).
Defined.

(** X23.  With the minimum-distance check enabled and a positive minimum
    distance, as the constructor sets them, the points of a hypothesis that
    [hypothesize_pose] returns are pairwise different, and so are the world
    positions of their modes: the alignment is never computed from a
    repeated correspondence. *)
Theorem hypothesis_points_are_distinct :
  forall (externals : Externals) (self : t) res eng c eng',
  m_checkMinDistanceBetweenSampledModes self = true ->
  (0 < m_minDistanceBetweenSampledModes self)%R ->
  hypothesize_pose self res eng = (true, c, eng') ->
  NoDup (inliers c)
  /\ NoDup (map (fun inlier =>
                   GPUForestMode.position
                     (GPUForestPrediction.modes (predictionsData self (fst inlier))
                        (snd inlier)))
                (inliers c)).
Proof.
  intros externals self res eng c eng' Hflag Hpositive Hhyp.
  destruct (hypothesize_pose_true _ _ _ _ _ Hhyp)
    as [selected [Hsel [_ [_ [_ [Hinliers _]]]]]].
  rewrite Hinliers.
  pose proof (selection_spread self selected Hflag Hsel) as Hspread.
  split.
  - apply (ForallOrdPairs_NoDup (far_apart self)); [|exact Hspread].
    intros p Hp. unfold far_apart in Hp. rewrite length_sub_self in Hp. lra.
  - apply (ForallOrdPairs_NoDup
             (fun a b => (m_minDistanceBetweenSampledModes self
                          <= ORUtils.length (ORUtils.Vector3f_sub a b))%R)).
    + intros a Ha. rewrite length_sub_self in Ha. lra.
    + apply ForallOrdPairs_map. exact Hspread.
Qed.

(** The hypothesis drawn first on the example frame. *)
Lemma hypothesis_points_are_distinct_witness :
  NoDup example_inliers.
Proof.
  exact (proj1 (hypothesis_points_are_distinct (example_externals 1)
                  (example_frame grey grey 1) PoseCandidate_default
                  (replayed three_pixels (0 * 9)) _ _ eq_refl
                  ltac:(cbn; lra)
                  (example_hypothesize_pose (externals := example_externals 1)
                     grey grey 1 PoseCandidate_default 0 eq_refl))).
Defined.


End RelocaliserInvariants.
